(** * cryptocanon: the reference annotator, the quote-share flow and the
      reader preferences, embedded from the TypeScript sources.

    Sources embedded here:
    - [src/components/ui/tabs/HomeTab.tsx] (the version with quote sharing):
      [handleSelection], [resetQuoteSelection], [handleQuoteShare],
      [renderContentWithReferences], the font-size preference;
    - the quote-share page ([sanitizeQuote] over a query parameter that is
      absent, a string or an array of strings);
    - the OpenGraph quote image route ([sanitizeQuote] over a string or null).

    JavaScript strings are sequences of UTF-16 code units; they are modelled
    as lists of code units, a code unit being a number of type [N]. *)

From Stdlib Require Import Ascii String NArith QArith.
From Stdlib Require DecimalFacts DecimalN.
From stdpp Require Import gmap strings list fin_maps.
Local Open Scope N_scope.
Local Open Scope nat_scope.

(** ** JavaScript strings *)

Module JS.

Definition code_unit := N.
Abbreviation jsstring := (list N).

(** An ASCII literal of the source, as code units. *)
Definition lit (s : string) : jsstring :=
  map N_of_ascii (list_ascii_of_string s).

(** Truthiness of a string: the empty string is the only falsy one. *)
Definition truthy (s : jsstring) : bool :=
  match s with [] => false | _ => true end.

(** [s.slice(a, b)] for non-negative indices: both ends are clamped to the
    length and an inverted range is empty; [s.slice(a)] is [drop a s]. *)
Definition slice (s : jsstring) (a b : nat) : jsstring := take (b - a) (drop a s).

(** Errors of the run time and completions of a call: it returns
    normally or throws. *)
Inductive error := URIError | TypeError | HostError.

Inductive completion (A : Type) :=
| Normal (a : A)
| Throw (e : error).
Arguments Normal {A} a.
Arguments Throw {A} e.

(** *** White space: the class [\s] of regular expressions, which is also
    the set [String.prototype.trim] strips (WhiteSpace and LineTerminator of
    ECMA-262). *)
Definition is_space (c : N) : bool :=
  ((9 <=? c) && (c <=? 13) || (c =? 32) || (c =? 160) || (c =? 5760)
   || (8192 <=? c) && (c <=? 8202) || (c =? 8232) || (c =? 8233)
   || (c =? 8239) || (c =? 8287) || (c =? 12288) || (c =? 65279))%N.

Definition SPACE : N := 32%N.

(** [s.replace(/\s+/g, " ")]: every maximal run of white space becomes one
    space. [in_run] tells that the previous code unit was white space, whose
    run has already been replaced. *)
Fixpoint replace_runs (in_run : bool) (s : jsstring) : jsstring :=
  match s with
  | [] => []
  | c :: r =>
      if is_space c
      then (if in_run then replace_runs true r else SPACE :: replace_runs true r)
      else c :: replace_runs false r
  end.

Definition replace_ws (s : jsstring) : jsstring := replace_runs false s.

Fixpoint trimStart (s : jsstring) : jsstring :=
  match s with
  | [] => []
  | c :: r => if is_space c then trimStart r else s
  end.

Definition trimEnd (s : jsstring) : jsstring := reverse (trimStart (reverse s)).

Definition trim (s : jsstring) : jsstring := trimEnd (trimStart s).

(** The expression [x.replace(/\s+/g, " ").trim()] of the three sources. *)
Definition normalize_ws (s : jsstring) : jsstring := trim (replace_ws s).

End JS.
Export JS.

(** ** The built-in functions of the run time that the sources call
    (ECMA-262 and the URL standard), on code units. *)

Module ES.

Definition prepend (pre : jsstring) (k : completion jsstring) : completion jsstring :=
  match k with
  | Normal t => Normal (pre ++ t)
  | Throw e => Throw e
  end.

Definition PERCENT : N := 37%N.

Definition hexval (c : N) : option N :=
  (if (48 <=? c) && (c <=? 57) then Some (c - 48)
   else if (65 <=? c) && (c <=? 70) then Some (c - 55)
   else if (97 <=? c) && (c <=? 102) then Some (c - 87)
   else None)%N.

(** ParseHexOctet at the head of [s]: two hexadecimal digits. *)
Definition ParseHexOctet (s : jsstring) : option N :=
  match s with
  | h :: l :: _ =>
      match hexval h, hexval l with
      | Some a, Some b => Some (16 * a + b)%N
      | _, _ => None
      end
  | _ => None
  end.

(** Number of leading 1 bits of an octet. *)
Definition leading_ones (B : N) : nat :=
  if (B <? 128)%N then 0 else if (B <? 192)%N then 1
  else if (B <? 224)%N then 2 else if (B <? 240)%N then 3
  else if (B <? 248)%N then 4 else 5.

(** The [n] escapes [%XX] that continue a multi-octet sequence. *)
Fixpoint continuation_octets (n : nat) (s : jsstring) : option (list N) :=
  match n with
  | O => Some []
  | S n' =>
      match s with
      | c :: r =>
          if (c =? PERCENT)%N then
            match ParseHexOctet r with
            | Some b =>
                match continuation_octets n' (drop 2 r) with
                | Some bs => Some (b :: bs)
                | None => None
                end
            | None => None
            end
          else None
      | [] => None
      end
  end.

Definition is_continuation (b : N) : bool := ((128 <=? b) && (b <=? 191))%N.
Definition is_lead_surrogate (c : N) : bool := ((55296 <=? c) && (c <=? 56319))%N.
Definition is_trail_surrogate (c : N) : bool := ((56320 <=? c) && (c <=? 57343))%N.
Definition is_surrogate (c : N) : bool := ((55296 <=? c) && (c <=? 57343))%N.

(** The code point of a well-formed UTF-8 sequence of two to four octets:
    continuation octets in 80..BF, no overlong form, no surrogate, at most
    U+10FFFF. *)
Definition utf8_code_point (octets : list N) : option N :=
  (match octets with
   | [b0; b1] =>
       let v := (b0 - 192) * 64 + (b1 - 128) in
       if is_continuation b1 && (128 <=? v) then Some v else None
   | [b0; b1; b2] =>
       let v := (b0 - 224) * 4096 + (b1 - 128) * 64 + (b2 - 128) in
       if is_continuation b1 && is_continuation b2 && (2048 <=? v)
          && negb (is_surrogate v)
       then Some v else None
   | [b0; b1; b2; b3] =>
       let v := (b0 - 240) * 262144 + (b1 - 128) * 4096 + (b2 - 128) * 64
                + (b3 - 128) in
       if is_continuation b1 && is_continuation b2 && is_continuation b3
          && (65536 <=? v) && (v <=? 1114111)
       then Some v else None
   | _ => None
   end)%N.

Definition UTF16EncodeCodePoint (cp : N) : jsstring :=
  (if cp <=? 65535 then [cp]
   else [(cp - 65536) / 1024 + 55296; (cp - 65536) mod 1024 + 56320])%N.

(** Decode of ECMA-262 with an empty set of preserved escapes. [skip] is
    the number of code units of the current escape still to step over (the
    [k := k + 2] of the standard). *)
Fixpoint Decode (skip : nat) (s : jsstring) : completion jsstring :=
  match s with
  | [] => Normal []
  | c :: r =>
      match skip with
      | S k => Decode k r
      | O =>
          if (c =? PERCENT)%N then
            match ParseHexOctet r with
            | None => Throw URIError
            | Some B =>
                match leading_ones B with
                | 0 => prepend [B] (Decode 2 r)
                | 1 => Throw URIError
                | S (S _ as n') =>
                    if 3 <? n' then Throw URIError
                    else
                      match continuation_octets n' (drop 2 r) with
                      | None => Throw URIError
                      | Some bs =>
                          match utf8_code_point (B :: bs) with
                          | None => Throw URIError
                          | Some V =>
                              prepend (UTF16EncodeCodePoint V)
                                      (Decode (2 + 3 * n') r)
                          end
                      end
                end
            end
          else prepend [c] (Decode 0 r)
      end
  end.

Definition decodeURIComponent (s : jsstring) : completion jsstring := Decode 0 s.

(** ToString of [undefined], and of a value that is a string or undefined. *)
Definition ToString_opt (v : option jsstring) : jsstring :=
  match v with
  | Some s => s
  | None => lit "undefined"
  end.

(** *** [encodeURIComponent] (Encode of ECMA-262) *)

Definition utf8_encode (cp : N) : list N :=
  (if cp <? 128 then [cp]
   else if cp <? 2048 then [192 + cp / 64; 128 + cp mod 64]
   else if cp <? 65536
   then [224 + cp / 4096; 128 + (cp / 64) mod 64; 128 + cp mod 64]
   else [240 + cp / 262144; 128 + (cp / 4096) mod 64;
         128 + (cp / 64) mod 64; 128 + cp mod 64])%N.

Definition hexdigit (v : N) : N := (if v <? 10 then 48 + v else 55 + v)%N.

Definition percent_octet (b : N) : jsstring :=
  [PERCENT; hexdigit (b / 16); hexdigit (b mod 16)].

Definition percent_encode (cp : N) : jsstring :=
  concat (map percent_octet (utf8_encode cp)).

Definition is_alnum (c : N) : bool :=
  ((48 <=? c) && (c <=? 57) || (65 <=? c) && (c <=? 90)
   || (97 <=? c) && (c <=? 122))%N.

(** The unreserved set of [encodeURIComponent]: letters, digits and
    [-_.!~*'()]. *)
Definition uriUnreserved (c : N) : bool :=
  is_alnum c || existsb (N.eqb c) (lit "-_.!~*'()").

Definition surrogate_pair (hi lo : N) : N :=
  ((hi - 55296) * 1024 + (lo - 56320) + 65536)%N.

Fixpoint Encode (unreserved : N -> bool) (s : jsstring) : completion jsstring :=
  match s with
  | [] => Normal []
  | c :: r =>
      if unreserved c then prepend [c] (Encode unreserved r)
      else if is_lead_surrogate c then
        match r with
        | c2 :: r2 =>
            if is_trail_surrogate c2
            then prepend (percent_encode (surrogate_pair c c2)) (Encode unreserved r2)
            else Throw URIError
        | [] => Throw URIError
        end
      else if is_trail_surrogate c then Throw URIError
      else prepend (percent_encode c) (Encode unreserved r)
  end.

Definition encodeURIComponent (s : jsstring) : completion jsstring :=
  Encode uriUnreserved s.

(** *** [URL] and [URLSearchParams] (URL standard) *)

(** The application/x-www-form-urlencoded serializer on one string: letters,
    digits and [*-._] stay, a space becomes [+], everything else is the
    percent-encoded UTF-8 of its code point; an unpaired surrogate is
    first replaced by U+FFFD. *)
Definition form_safe (c : N) : bool :=
  is_alnum c || existsb (N.eqb c) (lit "*-._").

Fixpoint form_urlencode (s : jsstring) : jsstring :=
  match s with
  | [] => []
  | c :: r =>
      if form_safe c then c :: form_urlencode r
      else if (c =? 32)%N then 43%N :: form_urlencode r
      else if is_lead_surrogate c then
        match r with
        | c2 :: r2 =>
            if is_trail_surrogate c2
            then percent_encode (surrogate_pair c c2) ++ form_urlencode r2
            else percent_encode 65533 ++ form_urlencode r
        | [] => percent_encode 65533
        end
      else if is_trail_surrogate c then percent_encode 65533 ++ form_urlencode r
      else percent_encode c ++ form_urlencode r
  end.

Fixpoint form_serialize (params : list (jsstring * jsstring)) : jsstring :=
  match params with
  | [] => []
  | [(n, v)] => form_urlencode n ++ lit "=" ++ form_urlencode v
  | (n, v) :: rest =>
      form_urlencode n ++ lit "=" ++ form_urlencode v ++ lit "&" ++ form_serialize rest
  end.

(** A URL without fragment: what precedes the query, and the list of
    [searchParams]. *)
Record URL := {
  url_base : jsstring;
  url_params : list (jsstring * jsstring)
}.

(** [searchParams.set(name, value)]: the first pair of that name takes the
    value and the others go; with no such pair, the pair is appended. *)
Fixpoint params_remove (name : jsstring) (ps : list (jsstring * jsstring)) :=
  match ps with
  | [] => []
  | (n, v) :: r =>
      if decide (n = name) then params_remove name r
      else (n, v) :: params_remove name r
  end.

Fixpoint params_set (name value : jsstring) (ps : list (jsstring * jsstring)) :=
  match ps with
  | [] => [(name, value)]
  | (n, v) :: r =>
      if decide (n = name) then (n, value) :: params_remove name r
      else (n, v) :: params_set name value r
  end.

Definition searchParams_set (name value : jsstring) (u : URL) : URL :=
  {| url_base := url_base u; url_params := params_set name value (url_params u) |}.

Definition searchParams_append (name value : jsstring) (u : URL) : URL :=
  {| url_base := url_base u; url_params := url_params u ++ [(name, value)] |}.

Definition URL_toString (u : URL) : jsstring :=
  match url_params u with
  | [] => url_base u
  | ps => url_base u ++ lit "?" ++ form_serialize ps
  end.

End ES.

(** ** The quote-share page: [sanitizeQuote] over a query parameter *)

(** A value of a Next.js search parameter: [string | string[] | undefined]. *)
Inductive query_param :=
| Absent
| Single (s : jsstring)
| Multi (l : list jsstring).

Module QuoteSharePage.

Definition MAX_QUOTE_LENGTH : nat := 280.

(** [!raw]: undefined and the empty string are falsy, an array is truthy. *)
Definition falsy (raw : query_param) : bool :=
  match raw with
  | Absent => true
  | Single s => negb (truthy s)
  | Multi _ => false
  end.

(** [Array.isArray(raw) ? raw[0] : raw]; [None] is [undefined] (the first
    element of an empty array). *)
Definition value_of (raw : query_param) : option jsstring :=
  match raw with
  | Absent => None
  | Single s => Some s
  | Multi l => head l
  end.

Definition sanitizeQuote (raw : query_param) : completion jsstring :=
  if falsy raw then Normal []
  else
    let value := value_of raw in
    (* let decoded = value; try { decoded = decodeURIComponent(value) }
       catch { decoded = value } *)
    let decoded :=
      match ES.decodeURIComponent (ES.ToString_opt value) with
      | Normal d => Some d
      | Throw _ => value
      end in
    match decoded with
    | None => Throw TypeError          (* a method call on undefined *)
    | Some decoded =>
        let normalized := normalize_ws decoded in
        if negb (truthy normalized) then Normal []
        else Normal (if MAX_QUOTE_LENGTH <? length normalized
                     then slice normalized 0 MAX_QUOTE_LENGTH
                     else normalized)
    end.

(** *** [generateMetadata] of the page *)

Record Metadata := {
  title : jsstring;
  description : jsstring;
  openGraph_title : jsstring;
  openGraph_description : jsstring;
  openGraph_images : list jsstring;
  other_fc_frame : jsstring
}.

Definition EN_DASH : N := 8211%N.

Section Metadata.

(** The constants of [~/lib/constants], and
    [JSON.stringify(getMiniAppEmbedMetadata(imageUrl))] of [~/lib/utils] as a
    function of the image URL. *)
Variable APP_NAME APP_DESCRIPTION APP_URL : jsstring.
Variable embedMetadata : jsstring -> jsstring.

(** [generateMetadata] on [resolvedParams?.text]. *)
Definition generateMetadata (text : query_param) : completion Metadata :=
  match sanitizeQuote text with
  | Throw e => Throw e
  | Normal quote =>
      let shown := if truthy quote then quote else APP_DESCRIPTION in
      match ES.encodeURIComponent shown with
      | Throw e => Throw e
      | Normal encoded =>
          let imageUrl := APP_URL ++ lit "/api/opengraph-quote?text=" ++ encoded in
          Normal {| title := APP_NAME ++ lit " " ++ EN_DASH :: lit " Quote";
                    description := shown;
                    openGraph_title := APP_NAME;
                    openGraph_description := shown;
                    openGraph_images := [imageUrl];
                    other_fc_frame := embedMetadata imageUrl |}
      end
  end.

End Metadata.

End QuoteSharePage.

(** ** The OpenGraph quote image route: [sanitizeQuote] over
    [searchParams.get("text")], a string or null. *)

Module OpengraphQuoteRoute.

Definition MAX_QUOTE_LENGTH : nat := 280.

Definition sanitizeQuote (value : option jsstring) : completion jsstring :=
  match value with
  | None => Normal []
  | Some value =>
      if negb (truthy value) then Normal []
      else
        let decoded :=
          match ES.decodeURIComponent value with
          | Normal d => d
          | Throw _ => value
          end in
        let normalized := normalize_ws decoded in
        if negb (truthy normalized) then Normal []
        else Normal (if MAX_QUOTE_LENGTH <? length normalized
                     then slice normalized 0 MAX_QUOTE_LENGTH
                     else normalized)
  end.

(** *** The handler [GET] of the route: the quote the image shows *)

Definition default_quote : jsstring :=
  lit "In this paper, we propose a solution to the double-spending problem using a peer-to-peer distributed timestamp server.".

(** [displayQuote] of [GET], from [searchParams.get("text")]. *)
Definition displayQuote (text : option jsstring) : completion jsstring :=
  match sanitizeQuote text with
  | Throw e => Throw e
  | Normal quote => Normal (if truthy quote then quote else default_quote)
  end.

End OpengraphQuoteRoute.

(** ** Numbers: [Number(digits)], [n + 1] and number-to-string *)

Module Num.

(** The values [Number] yields on the strings the annotator passes: a
    non-negative integral double, [Infinity] (a digit string past the
    largest double) or [NaN]. *)
Inductive number :=
| Finite (m : N)
| Infinity
| NaN.

Definition is_digit (c : N) : bool := ((48 <=? c) && (c <=? 57))%N.

Definition digit_of (c : N) (k : Decimal.uint) : Decimal.uint :=
  match (c - 48)%N with
  | 0%N => Decimal.D0 k | 1%N => Decimal.D1 k | 2%N => Decimal.D2 k
  | 3%N => Decimal.D3 k | 4%N => Decimal.D4 k | 5%N => Decimal.D5 k
  | 6%N => Decimal.D6 k | 7%N => Decimal.D7 k | 8%N => Decimal.D8 k
  | _ => Decimal.D9 k
  end.

(** A string of decimal digits as a decimal numeral, most significant
    digit first. *)
Fixpoint uint_of_digits (s : jsstring) : Decimal.uint :=
  match s with
  | [] => Decimal.Nil
  | c :: r => digit_of c (uint_of_digits r)
  end.

Fixpoint digits_of_uint (d : Decimal.uint) : jsstring :=
  match d with
  | Decimal.Nil => []
  | Decimal.D0 k => 48%N :: digits_of_uint k
  | Decimal.D1 k => 49%N :: digits_of_uint k
  | Decimal.D2 k => 50%N :: digits_of_uint k
  | Decimal.D3 k => 51%N :: digits_of_uint k
  | Decimal.D4 k => 52%N :: digits_of_uint k
  | Decimal.D5 k => 53%N :: digits_of_uint k
  | Decimal.D6 k => 54%N :: digits_of_uint k
  | Decimal.D7 k => 55%N :: digits_of_uint k
  | Decimal.D8 k => 56%N :: digits_of_uint k
  | Decimal.D9 k => 57%N :: digits_of_uint k
  end.

(** The mathematical value of a digit string, and the decimal digits of a
    natural number (["0"] for zero, no leading zero otherwise). *)
Definition decimal_value (s : jsstring) : N := N.of_uint (uint_of_digits s).
Definition decimal (n : N) : jsstring := digits_of_uint (N.to_uint n).

(** The double nearest to the natural number [v], ties to even: below
    [2^53] every natural number is a double; above, the value is rounded to
    53 significant bits, and past the largest double it is [Infinity]. *)
Definition round_to_double (v : N) : number :=
  (if v <? 2 ^ 53 then Finite v
   else
     let e := N.log2 v - 52 in
     let q := N.shiftr v e in
     let r := v mod 2 ^ e in
     let half := 2 ^ (e - 1) in
     let q' := if (half <? r) || ((r =? half) && N.odd q) then q + 1 else q in
     let m := q' * 2 ^ e in
     if 2 ^ 1024 <=? m then Infinity else Finite m)%N.

(** [Number(s)] on a non-empty string of decimal digits: the double nearest
    to its value. On any other string the model answers [NaN]; the annotator
    only passes non-empty digit strings, the pattern sees to it. *)
Definition Number (s : jsstring) : number :=
  if forallb is_digit s && truthy s then round_to_double (decimal_value s)
  else NaN.

(** [Number(undefined)] is [NaN]. *)
Definition Number_opt (v : option jsstring) : number :=
  match v with
  | Some s => Number s
  | None => NaN
  end.

(** [x + 1] on numbers. *)
Definition add1 (x : number) : number :=
  match x with
  | Finite m => round_to_double (m + 1)
  | Infinity => Infinity
  | NaN => NaN
  end.

(** *** Number::toString, radix 10: the shortest decimal that rounds back
    to the double, zero-padded up to 21 digits and in exponent notation
    beyond. *)

(** The reals that round to the double [m] of [2^53] or more, scaled by
    four: from [lo] to [hi], the ends included when the significand is
    even. The double below a power of two is half as far as the one
    above. *)
Definition rounding_interval4 (m : N) : N * N * bool :=
  (let e := N.log2 m - 52 in
   let M := N.shiftr m e in
   let lo := if M =? 2 ^ 52 then 4 * m - 2 ^ e else 4 * m - 2 ^ (e + 1) in
   (lo, 4 * m + 2 ^ (e + 1), N.even M))%N.

Definition in_interval4 (i : N * N * bool) (v : N) : bool :=
  (let '(lo, hi, incl) := i in
   if incl then (lo <=? 4 * v) && (4 * v <=? hi)
   else (lo <? 4 * v) && (4 * v <? hi))%N.

(** The candidates with [k] significant digits nearest to [m], which has
    [nd] digits: the multiples of [10^(nd-k)] around [m]; of those that round
    to [m], the closer one, the one with the even digit string on a tie. *)
Definition candidate (m : N) (nd k : nat) : option N :=
  (let pow := 10 ^ N.of_nat (nd - k) in
   let s := m / pow in
   let a := s * pow in
   let b := (s + 1) * pow in
   let i := rounding_interval4 m in
   match in_interval4 i a, in_interval4 i b with
   | true, true =>
       if m - a <? b - m then Some a
       else if b - m <? m - a then Some b
       else if N.even s then Some a else Some b
   | true, false => Some a
   | false, true => Some b
   | false, false => None
   end)%N.

Fixpoint shortest_from (m : N) (nd : nat) (ks : list nat) : N :=
  match ks with
  | [] => m
  | k :: ks' =>
      match candidate m nd k with
      | Some v => v
      | None => shortest_from m nd ks'
      end
  end.

(** The number whose digits Number::toString prints for the double [m]:
    [m] itself below [2^53], where all natural numbers are doubles. *)
Definition shortest (m : N) : N :=
  if (m <? 2 ^ 53)%N then m
  else let nd := length (decimal m) in shortest_from m nd (seq 1 nd).

Fixpoint strip_zeros (rev_digits : jsstring) : jsstring :=
  match rev_digits with
  | c :: r => if (c =? 48)%N then strip_zeros r else rev_digits
  | [] => []
  end.

Definition exponential (v : jsstring) : jsstring :=
  let digits := reverse (strip_zeros (reverse v)) in
  let exponent := decimal (N.of_nat (length v - 1)) in
  match digits with
  | [] => []
  | [d] => d :: lit "e+" ++ exponent
  | d :: ds => d :: lit "." ++ ds ++ lit "e+" ++ exponent
  end.

Definition ToString (x : number) : jsstring :=
  match x with
  | Finite m =>
      let v := shortest m in
      if (v <? 10 ^ 21)%N then decimal v else exponential (decimal v)
  | Infinity => lit "Infinity"
  | NaN => lit "NaN"
  end.

End Num.

(** ** Regular expressions: the fragment the annotator's pattern uses *)

Module Regex.

Inductive regex :=
| Chr (c : N)                 (* a literal code unit *)
| Class (p : N -> bool)       (* a character class *)
| Seq (r1 r2 : regex)         (* r1 r2 *)
| Plus (r : regex)            (* r+ *)
| Opt (r : regex)             (* r? *)
| Group (r : regex).          (* ( r ), capturing *)

(** The strings a pattern matches, whole. *)
Inductive matches : regex -> jsstring -> Prop :=
| m_chr c : matches (Chr c) [c]
| m_class (p : N -> bool) c : p c = true -> matches (Class p) [c]
| m_seq r1 r2 s1 s2 : matches r1 s1 -> matches r2 s2 -> matches (Seq r1 r2) (s1 ++ s2)
| m_plus_one r s : matches r s -> matches (Plus r) s
| m_plus_more r s1 s2 : matches r s1 -> matches (Plus r) s2 -> matches (Plus r) (s1 ++ s2)
| m_opt_none r : matches (Opt r) []
| m_opt_some r s : matches r s -> matches (Opt r) s
| m_group r s : matches r s -> matches (Group r) s.

Definition LBRACKET : N := 91%N.
Definition RBRACKET : N := 93%N.
Definition HYPHEN : N := 45%N.

Definition digits_re : regex := Plus (Class Num.is_digit).

(** The capturing group [([0-9]+(?:-[0-9]+)?)]. *)
Definition label_re : regex :=
  Group (Seq digits_re (Opt (Seq (Chr HYPHEN) digits_re))).

(** [/\[([0-9]+(?:-[0-9]+)?)\]/g] *)
Definition referencePattern : regex :=
  Seq (Chr LBRACKET) (Seq label_re (Chr RBRACKET)).

(** The longest prefix of digits, and what follows it. *)
Fixpoint span_digits (s : jsstring) : jsstring * jsstring :=
  match s with
  | c :: r =>
      if Num.is_digit c
      then let '(d, rest) := span_digits r in (c :: d, rest)
      else ([], s)
  | [] => ([], [])
  end.

(** A match of [referencePattern] at the head of [s]: the text of its
    capturing group. The quantifiers are greedy; giving back digits never
    helps, as a digit is neither a hyphen nor a closing bracket. *)
Definition match_here (s : jsstring) : option jsstring :=
  match s with
  | c :: s1 =>
      if (c =? LBRACKET)%N then
        let '(d1, r1) := span_digits s1 in
        if truthy d1 then
          match r1 with
          | c2 :: r2 =>
              if (c2 =? RBRACKET)%N then Some d1
              else if (c2 =? HYPHEN)%N then
                let '(d2, r3) := span_digits r2 in
                if truthy d2 then
                  match r3 with
                  | c3 :: _ =>
                      if (c3 =? RBRACKET)%N then Some (d1 ++ HYPHEN :: d2)
                      else None
                  | [] => None
                  end
                else None
              else None
          | [] => None
          end
        else None
      else None
  | [] => None
  end.

(** The leftmost match in [s]: its offset and its capturing group. *)
Fixpoint search (s : jsstring) : option (nat * jsstring) :=
  match match_here s with
  | Some l => Some (0, l)
  | None =>
      match s with
      | [] => None
      | _ :: s' =>
          match search s' with
          | Some (k, l) => Some (S k, l)
          | None => None
          end
      end
  end.

(** The result of [exec]: [index], the whole match and the first group. *)
Record RegExpExecArray := {
  index : nat;
  group0 : jsstring;
  group1 : jsstring
}.

(** [referencePattern.exec(text)] for the global pattern whose [lastIndex]
    is [lastIndex]: the match, if any, and the new [lastIndex] (the end of
    the match, or 0 when there is none). *)
Definition exec (text : jsstring) (lastIndex : nat) : option RegExpExecArray * nat :=
  if length text <? lastIndex then (None, 0)
  else
    match search (drop lastIndex text) with
    | Some (k, l) =>
        let m := LBRACKET :: l ++ [RBRACKET] in
        (Some {| index := lastIndex + k; group0 := m; group1 := l |},
         lastIndex + k + length m)
    | None => (None, 0)
    end.

End Regex.

(** ** The reading tab: [HomeTab] *)

Module HomeTab.
Import Num Regex.

(** *** The annotator's output *)

(** The two elements [renderContentWithReferences] emits. The children of
    an anchor are the three text pieces of [[{label}]]. *)
Inductive ReactNode :=
| span (key : jsstring) (children : jsstring)
| a (key id href className : jsstring) (children : list jsstring).

Definition textContent (n : ReactNode) : jsstring :=
  match n with
  | span _ c => c
  | a _ _ _ _ cs => concat cs
  end.

Definition textContents (ns : list ReactNode) : jsstring :=
  concat (map textContent ns).

(** The two objects behind [refOccurrencesRef] and [firstRefOccurrenceRef],
    which live as long as the component. A property key is the string of
    the number. *)
Record RefStore := {
  refOccurrences : gmap (list N) number;
  firstRefOccurrence : gmap (list N) (list N)
}.

Definition empty_refs : RefStore :=
  {| refOccurrences := ∅; firstRefOccurrence := ∅ |}.

(** [s.includes(c)] and [s.split(c)] for a separator of one code unit. *)
Definition includes (c : N) (s : jsstring) : bool := existsb (N.eqb c) s.

Fixpoint split (sep : N) (s : jsstring) : list jsstring :=
  match s with
  | [] => [[]]
  | c :: r =>
      if (c =? sep)%N then [] :: split sep r
      else
        match split sep r with
        | p :: ps => (c :: p) :: ps
        | [] => [[c]]
        end
  end.

Definition anchorClassName : jsstring :=
  lit "text-blue-600 dark:text-blue-400 hover:underline".

Definition nat_string (n : nat) : jsstring := decimal (N.of_nat n).

(** [label.includes("-") ? Number(label.split("-")[0]) : Number(label)] *)
Definition anchorTarget_of (label : jsstring) : number :=
  if includes HYPHEN label
  then Number_opt (head (split HYPHEN label))
  else Number label.

(** One run of the body of the [while] loop for the match [m]. *)
Definition annotate_match (text : jsstring) (m : RegExpExecArray)
    (lastIndex partIndex : nat) (refs : RefStore) (nodes : list ReactNode)
  : nat * RefStore * list ReactNode :=
  let '(nodes, partIndex) :=
    if lastIndex <? index m
    then (nodes ++ [span (lit "text-" ++ nat_string partIndex)
                         (slice text lastIndex (index m))],
          S partIndex)
    else (nodes, partIndex) in
  let label := group1 m in
  let anchorTarget := anchorTarget_of label in
  let key := ToString anchorTarget in
  let occurrenceCount := default (Finite 0) (refOccurrences refs !! key) in
  let occurrences := <[key := add1 occurrenceCount]> (refOccurrences refs) in
  let uniqueId :=
    lit "ref-link-" ++ ToString anchorTarget ++ lit "-" ++ ToString occurrenceCount in
  let first :=
    match firstRefOccurrence refs !! key with
    | Some id => if truthy id then firstRefOccurrence refs
                 else <[key := uniqueId]> (firstRefOccurrence refs)
    | None => <[key := uniqueId]> (firstRefOccurrence refs)
    end in
  let nodes :=
    nodes ++ [a (lit "ref-" ++ nat_string partIndex) uniqueId
                (lit "#reference-" ++ ToString anchorTarget) anchorClassName
                [[LBRACKET]; label; [RBRACKET]]] in
  (S partIndex,
   {| refOccurrences := occurrences; firstRefOccurrence := first |},
   nodes).

(** The [while ((match = referencePattern.exec(text)) !== null)] loop and
    the code after it. [reLastIndex] is [referencePattern.lastIndex],
    [lastIndex] the local variable. [None] when the fuel runs out. *)
Fixpoint annotate_loop (fuel : nat) (text : jsstring)
    (reLastIndex lastIndex partIndex : nat) (refs : RefStore)
    (nodes : list ReactNode) : option (list ReactNode * RefStore) :=
  match fuel with
  | O => None
  | S fuel' =>
      match exec text reLastIndex with
      | (Some m, reLastIndex') =>
          let '(partIndex', refs', nodes') :=
            annotate_match text m lastIndex partIndex refs nodes in
          annotate_loop fuel' text reLastIndex' reLastIndex' partIndex' refs' nodes'
      | (None, _) =>
          if lastIndex <? length text
          then Some (nodes ++ [span (lit "text-" ++ nat_string partIndex)
                                    (drop lastIndex text)], refs)
          else Some (nodes, refs)
      end
  end.

(** [renderContentWithReferences(text)], run on the store [refs]: the nodes
    it returns and the store it leaves. Every turn of the loop consumes a
    match of three code units at least, so the length of the text bounds
    the number of turns. *)
Definition renderContentWithReferences (text : jsstring) (refs : RefStore)
  : option (list ReactNode * RefStore) :=
  annotate_loop (S (length text)) text 0 0 0 refs [].

(** *** The quote-share state and the selection handler *)

Definition MIN_QUOTE_LENGTH : nat := 16.
Definition MAX_QUOTE_LENGTH : nat := 280.

(** Coordinates are JavaScript numbers; they are idealised as rationals,
    without the rounding of doubles.  The properties of the quote, of its
    warning and of the menu do not depend on their values. *)
Record Position := { top : Q; left : Q }.

(** The four pieces of component state of the quote menu. *)
Record QuoteState := {
  showQuoteMenu : bool;
  quoteText : jsstring;
  quoteWarning : option jsstring;
  quoteMenuPosition : option Position
}.

Definition setShowQuoteMenu (v : bool) (st : QuoteState) : QuoteState :=
  {| showQuoteMenu := v; quoteText := quoteText st;
     quoteWarning := quoteWarning st; quoteMenuPosition := quoteMenuPosition st |}.
Definition setQuoteText (v : jsstring) (st : QuoteState) : QuoteState :=
  {| showQuoteMenu := showQuoteMenu st; quoteText := v;
     quoteWarning := quoteWarning st; quoteMenuPosition := quoteMenuPosition st |}.
Definition setQuoteWarning (v : option jsstring) (st : QuoteState) : QuoteState :=
  {| showQuoteMenu := showQuoteMenu st; quoteText := quoteText st;
     quoteWarning := v; quoteMenuPosition := quoteMenuPosition st |}.
Definition setQuoteMenuPosition (v : option Position) (st : QuoteState) : QuoteState :=
  {| showQuoteMenu := showQuoteMenu st; quoteText := quoteText st;
     quoteWarning := quoteWarning st; quoteMenuPosition := v |}.

(** What the handlers read of the document. *)
Definition Element := nat.

Inductive Node :=
| TextNode (parentElement : option Element)
| ElementNode (e : option Element).

Record DOMRect := {
  rect_top : Q; rect_left : Q; rect_width : Q; rect_height : Q
}.

Record Range := {
  commonAncestorContainer : Node;
  getBoundingClientRect : DOMRect;
  getClientRects : list DOMRect
}.

Record Selection := {
  isCollapsed : bool;
  selection_toString : jsstring;
  getRangeAt0 : Range
}.

Record Window := {
  getSelection : option Selection;
  scrollY : Q;
  scrollX : Q;
  documentElement_scrollTop : Q;
  documentElement_scrollLeft : Q
}.

(** [a || b] on numbers: zero is falsy. *)
Definition number_or (x y : Q) : Q := if Qeq_bool x 0 then y else x.
Definition Math_max (x y : Q) : Q := if Qle_bool x y then y else x.

Definition truncation_warning : jsstring :=
  lit "Quote truncated to " ++ nat_string MAX_QUOTE_LENGTH ++ lit " characters.".
Definition minimum_warning : jsstring :=
  lit "Try selecting a little more text for better context.".

(** The element that contains the selection: the parent of a text node,
    the node itself otherwise; it may be null. *)
Definition containerNode_of (range : Range) : option Element :=
  match commonAncestorContainer range with
  | TextNode parent => parent
  | ElementNode e => e
  end.

(** [contentRef.current && containerNode &&
     !contentRef.current.contains(containerNode)], where [contentRef] is
    [contentRef.current], an element given by its [contains], or null. *)
Definition outside_content (contentRef : option (Element -> bool))
    (containerNode : option Element) : bool :=
  match contentRef, containerNode with
  | Some contains, Some node => negb (contains node)
  | _, _ => false
  end.

(** [handleSelection]. *)
Definition handleSelection (w : Window) (contentRef : option (Element -> bool))
    (st : QuoteState) : QuoteState :=
  match getSelection w with
  | None => st
  | Some selection =>
      if isCollapsed selection then st
      else
        let text := normalize_ws (selection_toString selection) in
        if negb (truthy text) then st
        else
          let range := getRangeAt0 selection in
          let containerNode := containerNode_of range in
          if outside_content contentRef containerNode then st
          else
            let '(normalized, warning) :=
              if MAX_QUOTE_LENGTH <? length text
              then (slice text 0 MAX_QUOTE_LENGTH, Some truncation_warning)
              else if length text <? MIN_QUOTE_LENGTH
              then (text, Some minimum_warning)
              else (text, None) in
            let st := setQuoteWarning warning st in
            let st := setQuoteText normalized st in
            let baseRect := getBoundingClientRect range in
            let rect :=
              if Qeq_bool (rect_width baseRect) 0 && Qeq_bool (rect_height baseRect) 0
              then match getClientRects range with
                   | r :: _ => r
                   | [] => baseRect
                   end
              else baseRect in
            let scrollY := number_or (scrollY w) (documentElement_scrollTop w) in
            let scrollX := number_or (scrollX w) (documentElement_scrollLeft w) in
            let top := Math_max (scrollY + 12)%Q (rect_top rect + scrollY - 16)%Q in
            let left := (rect_left rect + rect_width rect / 2 + scrollX)%Q in
            let st := setQuoteMenuPosition (Some {| top := top; left := left |}) st in
            setShowQuoteMenu true st
  end.

(** *** Sharing a quote *)

(** The effects of the handlers outside the component state. *)
Inductive event :=
| OpenUrl (url : jsstring)
| RemoveAllRanges
| ConsoleError.

(** [resetQuoteSelection]; the window exists in the browser, where the
    handlers run. *)
Definition resetQuoteSelection (w : Window) (st : QuoteState)
  : QuoteState * list event :=
  let st := setShowQuoteMenu false st in
  let st := setQuoteText [] st in
  let st := setQuoteWarning None st in
  let st := setQuoteMenuPosition None st in
  (st, match getSelection w with
       | Some _ => [RemoveAllRanges]
       | None => []
       end).

(** The host's [actions] of [useMiniApp]: [openUrl] may be missing, and a
    call of it completes or fails. *)
Record Actions := {
  openUrl : option (jsstring -> completion unit)
}.

Definition unsupported_warning : jsstring :=
  lit "Opening links is not supported in this client.".
Definition failure_warning : jsstring :=
  lit "Something went wrong opening Farcaster. Please try again.".

Definition QUOTE_MARK : N := 34%N.
Definition EM_DASH : N := 8212%N.

Section QuoteShare.

(** The constants of [~/lib/constants] and [~/lib/bitcoinPaper]. *)
Variable APP_URL : jsstring.
Variable paper_author paper_title : jsstring.

(** The body of the [try] block up to the call of [openUrl]: the compose
    URL. [encodeURIComponent] throws on an unpaired surrogate. *)
Definition composeUrl (quoteText : jsstring) : completion jsstring :=
  match ES.encodeURIComponent quoteText with
  | Throw e => Throw e
  | Normal encoded =>
      let shareUrl := APP_URL ++ lit "/share/quote?text=" ++ encoded in
      let castText :=
        QUOTE_MARK :: quoteText ++ QUOTE_MARK :: lit " " ++ EM_DASH :: lit " "
          ++ paper_author ++ lit ", " ++ paper_title in
      let composeUrl :=
        {| ES.url_base := lit "https://farcaster.xyz/~/compose"; ES.url_params := [] |} in
      let composeUrl := ES.searchParams_set (lit "text") castText composeUrl in
      let composeUrl := ES.searchParams_append (lit "embeds[]") shareUrl composeUrl in
      Normal (ES.URL_toString composeUrl)
  end.

(** [handleQuoteShare]: the state it leaves and the effects, in order. *)
Definition handleQuoteShare (actions : option Actions) (w : Window)
    (st : QuoteState) : QuoteState * list event :=
  if negb (truthy (quoteText st)) then (st, [])
  else
    match actions ≫= openUrl with
    | None => (setQuoteWarning (Some unsupported_warning) st, [])
    | Some open =>
        match composeUrl (quoteText st) with
        | Throw _ => (setQuoteWarning (Some failure_warning) st, [ConsoleError])
        | Normal url =>
            match open url with
            | Normal _ =>
                let '(st', evs) := resetQuoteSelection w st in
                (st', OpenUrl url :: evs)
            | Throw _ =>
                (setQuoteWarning (Some failure_warning) st, [OpenUrl url; ConsoleError])
            end
        end
    end.

End QuoteShare.

(** *** The font-size preference *)

Inductive FontSize := small | medium | large.

Definition FontSize_string (f : FontSize) : jsstring :=
  match f with
  | small => lit "small"
  | medium => lit "medium"
  | large => lit "large"
  end.

(** The browser's local storage. *)
Abbreviation Storage := (gmap (list N) (list N)).

Section Preferences.

(** [SpacingSettings] of the theme panel and the JSON functions on it. *)
Variable SpacingSettings : Type.
Variable JSON_parse : jsstring -> completion SpacingSettings.
Variable JSON_stringify : SpacingSettings -> jsstring.

(** The state [fontSize] holds a string at run time: its type
    ["small" | "medium" | "large"] is erased. *)
Record Preferences := {
  fontSize : jsstring;
  spacing : SpacingSettings
}.

Definition initial_preferences (default_spacing : SpacingSettings) : Preferences :=
  {| fontSize := FontSize_string medium; spacing := default_spacing |}.

(** The effect that loads the preferences when the component mounts. *)
Definition loadPreferences (localStorage : Storage) (p : Preferences)
  : completion Preferences :=
  let savedSize := localStorage !! lit "fontSize" in
  let savedSpacing := localStorage !! lit "spacingSettings" in
  let p :=
    match savedSize with
    | Some size => if truthy size then {| fontSize := size; spacing := spacing p |} else p
    | None => p
    end in
  match savedSpacing with
  | Some json =>
      if truthy json then
        match JSON_parse json with
        | Normal sp => Normal {| fontSize := fontSize p; spacing := sp |}
        | Throw e => Throw e
        end
      else Normal p
  | None => Normal p
  end.

Definition handleFontSizeChange (size : FontSize) (localStorage : Storage)
    (p : Preferences) : Preferences * Storage :=
  ({| fontSize := FontSize_string size; spacing := spacing p |},
   <[lit "fontSize" := FontSize_string size]> localStorage).

Definition handleSpacingChange (newSpacing : SpacingSettings)
    (localStorage : Storage) (p : Preferences) : Preferences * Storage :=
  ({| fontSize := fontSize p; spacing := newSpacing |},
   <[lit "spacingSettings" := JSON_stringify newSpacing]> localStorage).

(** The keys of [fontSizeClasses] and [headingClasses]. *)
Definition valid_font_size (s : jsstring) : Prop :=
  s = lit "small" \/ s = lit "medium" \/ s = lit "large".

End Preferences.

Arguments fontSize {SpacingSettings} _.
Arguments spacing {SpacingSettings} _.
Arguments initial_preferences {SpacingSettings} _.
Arguments loadPreferences {SpacingSettings} _ _ _.
Arguments handleFontSizeChange {SpacingSettings} _ _ _.
Arguments handleSpacingChange {SpacingSettings} _ _ _ _.

(** A series of font-size changes from the theme panel. *)
Fixpoint font_size_changes {SpacingSettings : Type} (sizes : list FontSize)
    (localStorage : Storage) (p : Preferences SpacingSettings)
  : Preferences SpacingSettings * Storage :=
  match sizes with
  | [] => (p, localStorage)
  | size :: rest =>
      let '(p', localStorage') := handleFontSizeChange size localStorage p in
      font_size_changes rest localStorage' p'
  end.

(** *** The quote menu *)

(** The [disabled] attribute of the share button:
    [!quoteText || quoteText.length < MIN_QUOTE_LENGTH]. *)
Definition shareDisabled (st : QuoteState) : bool :=
  negb (truthy (quoteText st)) || (length (quoteText st) <? MIN_QUOTE_LENGTH).

(** The menu is rendered when [showQuoteMenu && quoteMenuPosition]. *)
Definition menuRendered (st : QuoteState) : bool :=
  showQuoteMenu st && bool_decide (is_Some (quoteMenuPosition st)).

(** [scheduleSelectionCheck], when its timer fires: the selection is
    looked at again and [handleSelection] runs unless there is none, it is
    collapsed or its text trims to nothing. *)
Definition scheduleSelectionCheck (w : Window) (contentRef : option (Element -> bool))
    (st : QuoteState) : QuoteState :=
  match getSelection w with
  | None => st
  | Some selection =>
      if isCollapsed selection || negb (truthy (trim (selection_toString selection)))
      then st
      else handleSelection w contentRef st
  end.

(** [handleDocumentClick]: [target] is [event.target], a node or null;
    [menuEl] is the element marked [data-quote-menu], given by its
    [contains], or null. *)
Definition handleDocumentClick (w : Window) (target : option Element)
    (menuEl : option (Element -> bool)) (st : QuoteState)
  : QuoteState * list event :=
  if negb (showQuoteMenu st) then (st, [])
  else
    match target with
    | None => (st, [])
    | Some target =>
        match menuEl with
        | Some contains =>
            if contains target then (st, []) else resetQuoteSelection w st
        | None => resetQuoteSelection w st
        end
    end.

(** [handleSelectionClear], on [selectionchange]. *)
Definition handleSelectionClear (w : Window) (st : QuoteState)
  : QuoteState * list event :=
  match getSelection w with
  | None => resetQuoteSelection w st
  | Some selection =>
      if isCollapsed selection || negb (truthy (trim (selection_toString selection)))
      then resetQuoteSelection w st
      else (st, [])
  end.

(** *** The text of a reference with its links: [renderReferenceText] *)

(** [s.startsWith(sep)], the test behind [StringIndexOf]. *)
Fixpoint starts_with (sep s : jsstring) : bool :=
  match sep, s with
  | [], _ => true
  | _ :: _, [] => false
  | x :: sep', c :: s' => (x =? c)%N && starts_with sep' s'
  end.

(** [s.split(sep)] for a non-empty separator string: the pieces between the
    occurrences of [sep], found from left to right without overlap. [cur]
    holds the current piece, reversed; [skip] counts the code units of the
    occurrence just found that are still to step over. *)
Fixpoint split_go (sep : jsstring) (skip : nat) (cur : jsstring) (s : jsstring)
  : list jsstring :=
  match s with
  | [] => [reverse cur]
  | c :: r =>
      match skip with
      | S k => split_go sep k cur r
      | O =>
          if starts_with sep s
          then reverse cur :: split_go sep (length sep - 1) [] r
          else split_go sep 0 (c :: cur) r
      end
  end.

(** [s.split(sep)] for a string separator: with the empty separator the
    code units of [s], each a string. *)
Definition split_string (sep s : jsstring) : list jsstring :=
  match sep with
  | [] => map (fun c => [c]) s
  | _ :: _ => split_go sep 0 [] s
  end.

(** A link of a reference and a reference of [~/lib/bitcoinPaper]. *)
Record Link := { link_text : jsstring; link_url : jsstring }.

Record Reference := {
  ref_id : number;
  ref_text : jsstring;
  ref_links : option (list Link)
}.

(** A fragment is a string or an anchor that opens in a new tab
    ([target="_blank"], [rel="noopener noreferrer"], the link class). *)
Inductive Fragment :=
| Text (s : jsstring)
| LinkAnchor (key href children : jsstring).

(** What [renderReferenceText] returns: the text itself or an array. *)
Inductive Rendered :=
| Plain (s : jsstring)
| Fragments (fs : list Fragment).

(** [parts.forEach((part, partIndex) => ...)]: the non-empty parts, with an
    anchor of the link after every part but the last. *)
Fixpoint emit_parts (key : jsstring) (link : Link) (parts : list jsstring)
    (partIndex : nat) : list Fragment :=
  match parts with
  | [] => []
  | part :: rest =>
      (if truthy part then [Text part] else [])
      ++ match rest with
         | [] => []
         | _ :: _ =>
             [LinkAnchor (key ++ lit "-" ++ nat_string partIndex)
                         (link_url link) (link_text link)]
         end
      ++ emit_parts key link rest (S partIndex)
  end.

(** [fragments.forEach((fragment, fragmentIndex) => ...)] for one link:
    the next fragments, and whether the link matched. *)
Fixpoint link_fragments (id : number) (link : Link) (linkIndex : nat)
    (fragments : list Fragment) (fragmentIndex : nat) : list Fragment * bool :=
  match fragments with
  | [] => ([], false)
  | fragment :: rest =>
      let '(next, matched) := link_fragments id link linkIndex rest (S fragmentIndex) in
      match fragment with
      | LinkAnchor _ _ _ => (fragment :: next, matched)
      | Text s =>
          let parts := split_string (link_text link) s in
          if length parts =? 1 then (fragment :: next, matched)
          else
            (emit_parts (lit "ref-" ++ ToString id ++ lit "-" ++ nat_string linkIndex
                           ++ lit "-" ++ nat_string fragmentIndex)
                        link parts 0 ++ next,
             true)
      end
  end.

(** [ref.links.forEach((link, linkIndex) => ...)]: the fragments and the
    links that matched nowhere, in order. *)
Fixpoint apply_links (id : number) (links : list Link) (linkIndex : nat)
    (fragments : list Fragment) (unmatched : list Link)
  : list Fragment * list Link :=
  match links with
  | [] => (fragments, unmatched)
  | link :: rest =>
      let '(next, matched) := link_fragments id link linkIndex fragments 0 in
      apply_links id rest (S linkIndex) next
                  (if matched then unmatched else unmatched ++ [link])
  end.

(** [unmatched.forEach((link, idx) => ...)]: the trailing anchors, with
    ["; "] between two of them. *)
Fixpoint trailing_links (id : number) (unmatched : list Link) (idx : nat)
  : list Fragment :=
  match unmatched with
  | [] => []
  | link :: rest =>
      LinkAnchor (lit "ref-" ++ ToString id ++ lit "-unmatched-" ++ nat_string idx)
                 (link_url link) (link_text link)
      :: match rest with
         | [] => []
         | _ :: _ => [Text (lit "; ")]
         end
      ++ trailing_links id rest (S idx)
  end.

Definition renderReferenceText (ref : Reference) : Rendered :=
  match ref_links ref with
  | None | Some [] => Plain (ref_text ref)
  | Some links =>
      let '(fragments, unmatched) :=
        apply_links (ref_id ref) links 0 [Text (ref_text ref)] [] in
      match unmatched with
      | [] => Fragments fragments
      | _ :: _ =>
          Fragments (fragments ++ [Text (lit " (")]
                       ++ trailing_links (ref_id ref) unmatched 0 ++ [Text (lit ")")])
      end
  end.

End HomeTab.

(** * The theme panel

    [src/components/ui/ThemeSettings.tsx]: the theme, the font family and
    the reading mode are React state, mirrored on the root element of the
    document and in the local storage. *)

Module ThemeSettings.

(** [document.documentElement]: its [data-theme] attribute and its class
    list, a set of tokens. *)
Record Root := {
  data_theme : option jsstring;
  classList : gset (list N)
}.

Definition setAttribute_data_theme (v : jsstring) (r : Root) : Root :=
  {| data_theme := Some v; classList := classList r |}.

Definition classList_add (t : jsstring) (r : Root) : Root :=
  {| data_theme := data_theme r; classList := classList r ∪ {[ t ]} |}.

Definition classList_remove (t : jsstring) (r : Root) : Root :=
  {| data_theme := data_theme r; classList := classList r ∖ {[ t ]} |}.

(** [a === b] on strings. *)
Definition strict_eq (a b : jsstring) : bool := bool_decide (a = b).

(** [saved || d], where [saved] is the result of [getItem]. *)
Definition or_else (saved : option jsstring) (d : jsstring) : jsstring :=
  match saved with
  | Some s => if truthy s then s else d
  | None => d
  end.

(** The states hold strings at run time: the types ["light" | "dark"],
    ["sans" | "serif"] and ["scroll" | "page"] are erased. *)
Record State := {
  isOpen : bool;
  showAdvanced : bool;
  theme : jsstring;
  fontFamily : jsstring;
  readingMode : jsstring;
  mounted : bool
}.

Definition initial_state : State :=
  {| isOpen := false; showAdvanced := false; theme := lit "light";
     fontFamily := lit "sans"; readingMode := lit "scroll"; mounted := false |}.

Definition setTheme (t : jsstring) (st : State) : State :=
  {| isOpen := isOpen st; showAdvanced := showAdvanced st; theme := t;
     fontFamily := fontFamily st; readingMode := readingMode st; mounted := mounted st |}.

Definition setFontFamily (f : jsstring) (st : State) : State :=
  {| isOpen := isOpen st; showAdvanced := showAdvanced st; theme := theme st;
     fontFamily := f; readingMode := readingMode st; mounted := mounted st |}.

Definition setReadingMode (m : jsstring) (st : State) : State :=
  {| isOpen := isOpen st; showAdvanced := showAdvanced st; theme := theme st;
     fontFamily := fontFamily st; readingMode := m; mounted := mounted st |}.

Definition setMounted (b : bool) (st : State) : State :=
  {| isOpen := isOpen st; showAdvanced := showAdvanced st; theme := theme st;
     fontFamily := fontFamily st; readingMode := readingMode st; mounted := b |}.

Definition setIsOpen (b : bool) (st : State) : State :=
  {| isOpen := b; showAdvanced := showAdvanced st; theme := theme st;
     fontFamily := fontFamily st; readingMode := readingMode st; mounted := mounted st |}.

Definition setShowAdvanced (b : bool) (st : State) : State :=
  {| isOpen := isOpen st; showAdvanced := b; theme := theme st;
     fontFamily := fontFamily st; readingMode := readingMode st; mounted := mounted st |}.

Definition applyTheme (newTheme : jsstring) (r : Root) : Root :=
  let r := setAttribute_data_theme newTheme r in
  if strict_eq newTheme (lit "dark")
  then classList_add (lit "dark") r
  else classList_remove (lit "dark") r.

Definition applyFont (newFont : jsstring) (r : Root) : Root :=
  if strict_eq newFont (lit "serif")
  then classList_remove (lit "font-sans") (classList_add (lit "font-serif") r)
  else classList_remove (lit "font-serif") (classList_add (lit "font-sans") r).

Definition applyReadingMode (newMode : jsstring) (r : Root) : Root :=
  if strict_eq newMode (lit "page")
  then classList_remove (lit "reading-scroll") (classList_add (lit "reading-page") r)
  else classList_remove (lit "reading-page") (classList_add (lit "reading-scroll") r).

(** The component state with what it mirrors. *)
Record World := {
  state : State;
  root : Root;
  localStorage : HomeTab.Storage
}.

(** The effect that loads the preferences when the component mounts;
    [prefersDark] is the result of the media query. *)
Definition mountEffect (prefersDark : bool) (w : World) : World :=
  let savedTheme := localStorage w !! lit "theme" in
  let savedFont := localStorage w !! lit "fontFamily" in
  let savedMode := localStorage w !! lit "readingMode" in
  let initialTheme := or_else savedTheme (if prefersDark then lit "dark" else lit "light") in
  let initialFont := or_else savedFont (lit "sans") in
  let initialMode := or_else savedMode (lit "scroll") in
  {| state := setReadingMode initialMode
                (setFontFamily initialFont (setTheme initialTheme (setMounted true (state w))));
     root := applyReadingMode initialMode (applyFont initialFont (applyTheme initialTheme (root w)));
     localStorage := localStorage w |}.

Definition toggleTheme (w : World) : World :=
  let newTheme := if strict_eq (theme (state w)) (lit "light") then lit "dark" else lit "light" in
  {| state := setTheme newTheme (state w);
     root := applyTheme newTheme (root w);
     localStorage := <[lit "theme" := newTheme]> (localStorage w) |}.

Definition toggleFont (w : World) : World :=
  let newFont := if strict_eq (fontFamily (state w)) (lit "sans") then lit "serif" else lit "sans" in
  {| state := setFontFamily newFont (state w);
     root := applyFont newFont (root w);
     localStorage := <[lit "fontFamily" := newFont]> (localStorage w) |}.

Definition toggleReadingMode (w : World) : World :=
  let newMode := if strict_eq (readingMode (state w)) (lit "scroll") then lit "page" else lit "scroll" in
  {| state := setReadingMode newMode (state w);
     root := applyReadingMode newMode (root w);
     localStorage := <[lit "readingMode" := newMode]> (localStorage w) |}.

(** The two pairs of buttons of the panel. *)
Inductive Theme := light | dark.
Inductive FontFamily := sans | serif.

Definition Theme_string (t : Theme) : jsstring :=
  match t with light => lit "light" | dark => lit "dark" end.

Definition FontFamily_string (f : FontFamily) : jsstring :=
  match f with sans => lit "sans" | serif => lit "serif" end.

(** [onClick] of a theme button. *)
Definition clickTheme (t : Theme) (w : World) : World :=
  {| state := setTheme (Theme_string t) (state w);
     root := applyTheme (Theme_string t) (root w);
     localStorage := <[lit "theme" := Theme_string t]> (localStorage w) |}.

(** [onClick] of a font button. *)
Definition clickFont (f : FontFamily) (w : World) : World :=
  {| state := setFontFamily (FontFamily_string f) (state w);
     root := applyFont (FontFamily_string f) (root w);
     localStorage := <[lit "fontFamily" := FontFamily_string f]> (localStorage w) |}.

(** What happens to the mounted panel. *)
Inductive action :=
| ToggleTheme
| ToggleFont
| ToggleReadingMode
| ClickTheme (t : Theme)
| ClickFont (f : FontFamily)
| SetIsOpen (b : bool)
| ToggleAdvanced.

Definition step (w : World) (a : action) : World :=
  match a with
  | ToggleTheme => toggleTheme w
  | ToggleFont => toggleFont w
  | ToggleReadingMode => toggleReadingMode w
  | ClickTheme t => clickTheme t w
  | ClickFont f => clickFont f w
  | SetIsOpen b =>
      {| state := setIsOpen b (state w); root := root w; localStorage := localStorage w |}
  | ToggleAdvanced =>
      {| state := setShowAdvanced (negb (showAdvanced (state w))) (state w);
         root := root w; localStorage := localStorage w |}
  end.

Definition run (actions : list action) (w : World) : World := foldl step w actions.

End ThemeSettings.

(** * The app shell

    The values of [useMiniApp] that the shells read, and what they do
    outside their state. *)

Module MiniApp.

Record Hook := {
  isSDKLoaded : bool;
  added : bool;
  (** whether [actions.addMiniApp] is defined *)
  has_addMiniApp : bool
}.

(** The result of [actions.addMiniApp()]: a value that may be missing,
    with notification details or without. *)
Record AddResult := { notificationDetails : bool }.

Inductive event :=
| AddMiniApp
| ConsoleLog
| ConsoleError.

(** [!localStorage.getItem(key)]. *)
Definition not_stored (localStorage : HomeTab.Storage) (key : jsstring) : bool :=
  match localStorage !! key with
  | Some v => negb (truthy v)
  | None => true
  end.

(** [result?.notificationDetails]. *)
Definition has_details (result : option AddResult) : bool :=
  match result with
  | Some r => notificationDetails r
  | None => false
  end.

End MiniApp.

(** ** [src/components/App.tsx]: the mini app is added without a prompt *)

Module App.
Import MiniApp.

(** The storage, the calls of [addMiniApp] that have not settled, and the
    effects so far, the latest first. *)
Record World := {
  localStorage : HomeTab.Storage;
  pending : nat;
  log : list event
}.

(** [attemptAddMiniApp] up to its [await]: whether it calls
    [actions.addMiniApp]. *)
Definition attemptAddMiniApp (h : Hook) (w : World) : World :=
  if isSDKLoaded h && negb (added h) && has_addMiniApp h then
    if not_stored (localStorage w) (lit "hasAttemptedAddMiniApp") then
      {| localStorage := localStorage w; pending := S (pending w);
         log := AddMiniApp :: log w |}
    else w
  else w.

(** [attemptAddMiniApp] from its [await] on, when the call has settled. *)
Definition attemptAddMiniApp_resume (result : completion (option AddResult)) (w : World)
  : World :=
  match result with
  | Normal r =>
      {| localStorage := <[lit "hasAttemptedAddMiniApp" := lit "true"]> (localStorage w);
         pending := pred (pending w);
         log := if has_details r then ConsoleLog :: log w else log w |}
  | Throw _ =>
      {| localStorage := <[lit "hasAttemptedAddMiniApp" := lit "true"]> (localStorage w);
         pending := pred (pending w);
         log := ConsoleError :: log w |}
  end.

(** The effect runs when the hook's values change; a pending call settles
    at some later time. *)
Inductive action :=
| Effect (h : Hook)
| Settle (result : completion (option AddResult)).

Definition step (w : World) (a : action) : World :=
  match a with
  | Effect h => attemptAddMiniApp h w
  | Settle result =>
      match pending w with
      | 0 => w
      | S _ => attemptAddMiniApp_resume result w
      end
  end.

Definition run (actions : list action) (w : World) : World := foldl step w actions.

End App.

(** ** The shell of [unnamed/part_001]: the user is prompted *)

Module AppWithPrompt.
Import MiniApp.

Record State := {
  showAddPrompt : bool;
  isAddingMiniApp : bool
}.

Record World := {
  state : State;
  localStorage : HomeTab.Storage;
  pending : nat;
  log : list event
}.

Definition initial (localStorage : HomeTab.Storage) : World :=
  {| state := {| showAddPrompt := false; isAddingMiniApp := false |};
     localStorage := localStorage; pending := 0; log := [] |}.

Definition setShowAddPrompt (b : bool) (w : World) : World :=
  {| state := {| showAddPrompt := b; isAddingMiniApp := isAddingMiniApp (state w) |};
     localStorage := localStorage w; pending := pending w; log := log w |}.

Definition setIsAddingMiniApp (b : bool) (w : World) : World :=
  {| state := {| showAddPrompt := showAddPrompt (state w); isAddingMiniApp := b |};
     localStorage := localStorage w; pending := pending w; log := log w |}.

Definition setItem (key value : jsstring) (w : World) : World :=
  {| state := state w; localStorage := <[key := value]> (localStorage w);
     pending := pending w; log := log w |}.

Definition emit (e : event) (w : World) : World :=
  {| state := state w; localStorage := localStorage w;
     pending := pending w; log := e :: log w |}.

(** The effect that shows the prompt. *)
Definition promptEffect (h : Hook) (w : World) : World :=
  if isSDKLoaded h && negb (added h) then
    if not_stored (localStorage w) (lit "hasSeenAddPrompt")
    then setShowAddPrompt true w
    else w
  else w.

(** [handleAddMiniApp] up to its [await]. *)
Definition handleAddMiniApp (h : Hook) (w : World) : World :=
  if negb (isSDKLoaded h) || negb (has_addMiniApp h) then w
  else
    let w := setIsAddingMiniApp true w in
    {| state := state w; localStorage := localStorage w;
       pending := S (pending w); log := AddMiniApp :: log w |}.

(** [handleAddMiniApp] from its [await] on: the [try] block goes on or the
    [catch] block runs, then the [finally] block. *)
Definition handleAddMiniApp_resume (result : completion (option AddResult)) (w : World)
  : World :=
  let w := {| state := state w; localStorage := localStorage w;
              pending := pred (pending w); log := log w |} in
  let w :=
    match result with
    | Normal r =>
        let w := if has_details r then emit ConsoleLog w else w in
        let w := setShowAddPrompt false w in
        setItem (lit "hasSeenAddPrompt") (lit "true") w
    | Throw _ => emit ConsoleError w
    end in
  setIsAddingMiniApp false w.

Definition handleDismissPrompt (w : World) : World :=
  setItem (lit "hasSeenAddPrompt") (lit "true") (setShowAddPrompt false w).

(** What happens to the shell.  The buttons exist while the prompt is
    rendered, and the add button takes no click while it is disabled. *)
Inductive action :=
| Effect (h : Hook)
| ClickAdd (h : Hook)
| ClickDismiss
| Settle (result : completion (option AddResult)).

Definition step (w : World) (a : action) : World :=
  match a with
  | Effect h => promptEffect h w
  | ClickAdd h =>
      if isSDKLoaded h && showAddPrompt (state w) && negb (isAddingMiniApp (state w))
      then handleAddMiniApp h w
      else w
  | ClickDismiss =>
      if showAddPrompt (state w) then handleDismissPrompt w else w
  | Settle result =>
      match pending w with
      | 0 => w
      | S _ => handleAddMiniApp_resume result w
      end
  end.

Definition run (actions : list action) (w : World) : World := foldl step w actions.

End AppWithPrompt.

(** * The vocabulary of the properties *)

Import Num Regex HomeTab.

(** The last step of the three sanitizers: at most [n] code units are
    kept. *)
Definition truncate (n : nat) (s : jsstring) : jsstring :=
  if n <? length s then take n s else s.

(** What [sanitizeQuote] normalizes: the decoded value, or the raw value
    when decoding fails. *)
Definition decoded_or_raw (v : jsstring) : jsstring :=
  match ES.decodeURIComponent v with
  | Normal d => d
  | Throw _ => v
  end.

(** The selections [handleSelection] goes through with: there is one, it is
    not collapsed, its normalized text is not empty and it does not lie
    outside the content element. *)
Definition captured (w : Window) (contentRef : option (Element -> bool))
    (selection : Selection) : Prop :=
  getSelection w = Some selection
  /\ isCollapsed selection = false
  /\ normalize_ws (selection_toString selection) <> []
  /\ outside_content contentRef (containerNode_of (getRangeAt0 selection)) = false.

Ltac quote_fields :=
  cbn [showQuoteMenu quoteText quoteWarning quoteMenuPosition
       setShowQuoteMenu setQuoteText setQuoteWarning setQuoteMenuPosition
       fst snd].

Definition sample_rect : DOMRect :=
  {| rect_top := 100; rect_left := 40; rect_width := 120; rect_height := 18 |}.

Definition sample_selection (s : jsstring) : Selection :=
  {| isCollapsed := false;
     selection_toString := s;
     getRangeAt0 := {| commonAncestorContainer := TextNode (Some 7);
                       getBoundingClientRect := sample_rect;
                       getClientRects := [sample_rect] |} |}.

Definition sample_window (s : jsstring) : Window :=
  {| getSelection := Some (sample_selection s);
     scrollY := 0; scrollX := 0;
     documentElement_scrollTop := 300; documentElement_scrollLeft := 0 |}.

Definition initial_quote_state : QuoteState :=
  {| showQuoteMenu := false; quoteText := [];
     quoteWarning := None; quoteMenuPosition := None |}.

(** A selection of thirteen code units once normalized. *)
Definition sample_text : jsstring :=
  lit "  proof  of" ++ 10%N :: lit "   work ".

Definition content_element : option (Element -> bool) :=
  Some (fun e => Nat.eqb e 7).

(** The three pieces of quote state other than the warning. *)
Definition same_quote (st st' : QuoteState) : Prop :=
  quoteText st' = quoteText st
  /\ showQuoteMenu st' = showQuoteMenu st
  /\ quoteMenuPosition st' = quoteMenuPosition st.

(** A host whose [openUrl] fails on every URL. *)
Definition failing_host : option Actions :=
  Some {| openUrl := Some (fun _ => Throw HostError) |}.

Definition sample_quote_state : QuoteState :=
  {| showQuoteMenu := true;
     quoteText := lit "proof of work and a chain of blocks";
     quoteWarning := None;
     quoteMenuPosition := Some {| top := 312; left := 100 |} |}.

(** The key [fontSize] of the storage is absent, empty or one of the three
    sizes: what the component itself leaves there. *)
Definition stored_size_ok (localStorage : Storage) : Prop :=
  forall v, localStorage !! lit "fontSize" = Some v -> v = [] \/ valid_font_size v.

(** A non-empty string of decimal digits. *)
Definition digits1 (d : jsstring) : Prop :=
  d <> [] /\ Forall (fun c => is_digit c = true) d.

(** The text of the capturing group: [n] or [m-k]. *)
Inductive is_label : jsstring -> Prop :=
| label_single d : digits1 d -> is_label d
| label_range d1 d2 : digits1 d1 -> digits1 d2 -> is_label (d1 ++ HYPHEN :: d2).

(** The citation marker of a label: the label in square brackets. *)
Definition marker (label : jsstring) : jsstring := LBRACKET :: label ++ [RBRACKET].

Definition stops (rest : jsstring) : Prop :=
  match rest with
  | c :: _ => is_digit c = false
  | [] => True
  end.

Definition href_of (label : jsstring) : jsstring :=
  lit "#reference-" ++ ToString (anchorTarget_of label).

(** The anchor emitted for a label, whatever its key and id. *)
Definition anchor_for (label : jsstring) (n : ReactNode) : Prop :=
  exists key id,
    n = a key id (href_of label) anchorClassName [[LBRACKET]; label; [RBRACKET]].

(** The last turn: no match is left and the rest of the text becomes a
    span, unless it is empty. *)
Definition tail_nodes (text : jsstring) (lastIndex partIndex : nat) : list ReactNode :=
  if lastIndex <? length text
  then [span (lit "text-" ++ nat_string partIndex) (drop lastIndex text)]
  else [].

(** The text contains a substring that the reference pattern matches. *)
Definition contains_reference (text : jsstring) : Prop :=
  exists pre m post, text = pre ++ m ++ post /\ matches referencePattern m.

(** A node without its element id. *)
Definition erase_id (n : ReactNode) : ReactNode :=
  match n with
  | span key children => span key children
  | a key _ href className children => a key [] href className children
  end.

(** White space runs and words: a text is an optional run of white space,
    then words separated by non-empty runs, then an optional run. *)
Definition blank (s : jsstring) : Prop := Forall (fun c => is_space c = true) s.

Definition word (s : jsstring) : Prop :=
  s <> [] /\ Forall (fun c => is_space c = false) s.

Fixpoint spaced (w : jsstring) (rest : list (jsstring * jsstring)) : jsstring :=
  match rest with
  | [] => w
  | (gap, w') :: r => w ++ gap ++ spaced w' r
  end.

Fixpoint join_words (w : jsstring) (ws : list jsstring) : jsstring :=
  match ws with
  | [] => w
  | w' :: r => w ++ SPACE :: join_words w' r
  end.

Definition gap_word (gw : jsstring * jsstring) : Prop :=
  blank gw.1 /\ gw.1 <> [] /\ word gw.2.

(** A text in which white space is tidy: every white-space code unit is a
    space (U+0020), none begins the text and no two are adjacent.
    [after_space] tells that the text follows a space or starts the
    string. *)
Fixpoint tidy (after_space : bool) (s : jsstring) : bool :=
  match s with
  | [] => true
  | c :: r =>
      if is_space c then (c =? SPACE)%N && negb after_space && tidy true r
      else tidy false r
  end.

(** The text has no unpaired surrogate: every lead surrogate is followed by
    a trail surrogate and every trail surrogate follows a lead one. *)
Fixpoint well_paired (s : jsstring) : bool :=
  match s with
  | [] => true
  | c :: r =>
      if ES.is_lead_surrogate c then
        match r with
        | c2 :: r2 => ES.is_trail_surrogate c2 && well_paired r2
        | [] => false
        end
      else negb (ES.is_trail_surrogate c) && well_paired r
  end.


(** The selection [handleSelection] does not go through with. *)
Definition not_captured (w : Window) (contentRef : option (Element -> bool)) : Prop :=
  match getSelection w with
  | None => True
  | Some selection =>
      isCollapsed selection = true
      \/ blank (selection_toString selection)
      \/ outside_content contentRef (containerNode_of (getRangeAt0 selection)) = true
  end.




(** A host whose [openUrl] completes on every URL. *)
Definition working_host : option Actions :=
  Some {| openUrl := Some (fun _ => Normal tt) |}.

(** 279 letters, then a character outside the basic plane (a surrogate
    pair), then a letter: 282 code units, the pair at offsets 279 and 280. *)
Definition astral_at_limit : jsstring :=
  replicate 279 97%N ++ [55357%N; 56832%N; 98%N].

(** The parts of one turn of the annotator's loop, for a label. *)
Definition ref_key (label : jsstring) : jsstring := ToString (anchorTarget_of label).

Definition occurrence (label : jsstring) (refs : RefStore) : number :=
  default (Finite 0) (refOccurrences refs !! ref_key label).

Definition uniqueId_of (label : jsstring) (refs : RefStore) : jsstring :=
  lit "ref-link-" ++ ref_key label ++ lit "-" ++ ToString (occurrence label refs).

Definition next_refs (label : jsstring) (refs : RefStore) : RefStore :=
  {| refOccurrences :=
       <[ref_key label := add1 (occurrence label refs)]> (refOccurrences refs);
     firstRefOccurrence :=
       match firstRefOccurrence refs !! ref_key label with
       | Some id => if truthy id then firstRefOccurrence refs
                    else <[ref_key label := uniqueId_of label refs]> (firstRefOccurrence refs)
       | None => <[ref_key label := uniqueId_of label refs]> (firstRefOccurrence refs)
       end |}.

Definition gap_nodes (text : jsstring) (lastIndex partIndex k : nat) : list ReactNode :=
  if lastIndex <? lastIndex + k
  then [span (lit "text-" ++ nat_string partIndex) (slice text lastIndex (lastIndex + k))]
  else [].

Definition anchor_node (label : jsstring) (partIndex : nat) (refs : RefStore) : ReactNode :=
  a (lit "ref-" ++ nat_string partIndex) (uniqueId_of label refs) (href_of label)
    anchorClassName [[LBRACKET]; label; [RBRACKET]].

(** The React key of a node. *)
Definition node_key (n : ReactNode) : jsstring :=
  match n with
  | span key _ => key
  | a key _ _ _ _ => key
  end.

(** The text [piece] occurs in [text]. *)
Definition occurs_in (piece text : jsstring) : Prop :=
  exists pre post, text = pre ++ piece ++ post.

(** A node the annotator may emit for [text]: a span that holds a
    non-empty piece of the text without any marker, or the anchor of a
    marker of the text. *)
Definition node_of_text (text : jsstring) (n : ReactNode) : Prop :=
  match n with
  | span _ children =>
      children <> [] /\ occurs_in children text /\ ~ contains_reference children
  | a _ _ href className children =>
      exists label,
        is_label label
        /\ children = [[LBRACKET]; label; [RBRACKET]]
        /\ href = href_of label
        /\ className = anchorClassName
        /\ occurs_in (marker label) text
  end.

(** The key of the node at position [i]: [text-i] for a span, [ref-i] for
    an anchor. *)
Definition positional_key (i : nat) (n : ReactNode) : Prop :=
  match n with
  | span key _ => key = lit "text-" ++ nat_string i
  | a key _ _ _ _ => key = lit "ref-" ++ nat_string i
  end.

(** The text a fragment displays, and that of a rendered reference. *)
Definition fragment_text (f : Fragment) : jsstring :=
  match f with
  | Text s => s
  | LinkAnchor _ _ children => children
  end.

Definition fragments_text (fs : list Fragment) : jsstring :=
  concat (map fragment_text fs).

Definition rendered_fragments (r : Rendered) : list Fragment :=
  match r with
  | Plain s => [Text s]
  | Fragments fs => fs
  end.

(** [parts.join(sep)] *)
Definition join (sep : jsstring) (parts : list jsstring) : jsstring :=
  match parts with
  | [] => []
  | p :: rest => p ++ concat (map (app sep) rest)
  end.

(** What follows the text of a reference for the links that matched
    nowhere: nothing when there is none, else their texts in parentheses,
    separated by semicolons. *)
Definition unmatched_suffix (unmatched : list Link) : jsstring :=
  match unmatched with
  | [] => []
  | _ :: _ => lit " (" ++ join (lit "; ") (map link_text unmatched) ++ lit ")"
  end.

(** The anchor of a link, whatever its key. *)
Definition anchor_of (link : Link) (f : Fragment) : Prop :=
  exists key, f = LinkAnchor key (link_url link) (link_text link).

(** The links of a reference, none when the field is missing. *)
Definition links_of (ref : Reference) : list Link := default [] (ref_links ref).

Definition sample_reference : Reference :=
  {| ref_id := Finite 1;
     ref_text := lit "W. Dai, b-money, 1998.";
     ref_links := Some [{| link_text := lit "b-money"; link_url := lit "http://www.weidai.com/bmoney.txt" |};
                        {| link_text := lit "archive"; link_url := lit "https://archive.example/bmoney" |}] |}.

(** A fragment that is a string or the anchor of one of the links [L]. *)
Definition from_links (L : list Link) (f : Fragment) : Prop :=
  match f with
  | Text _ => True
  | LinkAnchor _ href children =>
      exists link, link ∈ L /\ href = link_url link /\ children = link_text link
  end.

(** The root element shows the settings of the panel: the attribute holds
    the theme, and of each pair of classes the one of the setting is
    there. *)
Definition reflects_theme (st : ThemeSettings.State) (r : ThemeSettings.Root) : Prop :=
  ThemeSettings.data_theme r = Some (ThemeSettings.theme st)
  /\ (lit "dark" ∈ ThemeSettings.classList r <-> ThemeSettings.theme st = lit "dark").

Definition reflects_font (st : ThemeSettings.State) (r : ThemeSettings.Root) : Prop :=
  (lit "font-serif" ∈ ThemeSettings.classList r <-> ThemeSettings.fontFamily st = lit "serif")
  /\ (lit "font-sans" ∈ ThemeSettings.classList r <-> ThemeSettings.fontFamily st <> lit "serif").

Definition reflects_mode (st : ThemeSettings.State) (r : ThemeSettings.Root) : Prop :=
  (lit "reading-page" ∈ ThemeSettings.classList r <-> ThemeSettings.readingMode st = lit "page")
  /\ (lit "reading-scroll" ∈ ThemeSettings.classList r
      <-> ThemeSettings.readingMode st <> lit "page").

Definition reflects (w : ThemeSettings.World) : Prop :=
  reflects_theme (ThemeSettings.state w) (ThemeSettings.root w)
  /\ reflects_font (ThemeSettings.state w) (ThemeSettings.root w)
  /\ reflects_mode (ThemeSettings.state w) (ThemeSettings.root w).

(** The classes that the panel adds and removes. *)
Definition panel_classes : list jsstring :=
  [lit "dark"; lit "font-serif"; lit "font-sans"; lit "reading-page"; lit "reading-scroll"].

(** The classes outside the panel's are the same in both roots. *)
Definition same_other_classes (r r' : ThemeSettings.Root) : Prop :=
  forall c, c ∉ panel_classes ->
            (c ∈ ThemeSettings.classList r' <-> c ∈ ThemeSettings.classList r).

(** The actions that choose a theme. *)
Definition sets_theme (a : ThemeSettings.action) : bool :=
  match a with
  | ThemeSettings.ToggleTheme | ThemeSettings.ClickTheme _ => true
  | _ => false
  end.

(** The page is loaded again: the state is the initial one, the root
    element is the one of the page, the storage is what was left. *)
Definition reload (prefersDark : bool) (r : ThemeSettings.Root) (w : ThemeSettings.World)
  : ThemeSettings.World :=
  ThemeSettings.mountEffect prefersDark
    {| ThemeSettings.state := ThemeSettings.initial_state;
       ThemeSettings.root := r;
       ThemeSettings.localStorage := ThemeSettings.localStorage w |}.

(** The state agrees with what a mount would read from the storage. *)
Definition stored_settings (prefersDark : bool) (w : ThemeSettings.World) : Prop :=
  let ls := ThemeSettings.localStorage w in
  let st := ThemeSettings.state w in
  ThemeSettings.theme st
  = ThemeSettings.or_else (ls !! lit "theme") (if prefersDark then lit "dark" else lit "light")
  /\ ThemeSettings.fontFamily st = ThemeSettings.or_else (ls !! lit "fontFamily") (lit "sans")
  /\ ThemeSettings.readingMode st = ThemeSettings.or_else (ls !! lit "readingMode") (lit "scroll").

(** The theme is in the storage. *)
Definition theme_stored (w : ThemeSettings.World) : Prop :=
  ThemeSettings.localStorage w !! lit "theme" = Some (ThemeSettings.theme (ThemeSettings.state w))
  /\ truthy (ThemeSettings.theme (ThemeSettings.state w)) = true.

(** The number of calls of [addMiniApp] in a log. *)
Definition is_call (e : MiniApp.event) : bool :=
  match e with MiniApp.AddMiniApp => true | _ => false end.

Definition calls (log : list MiniApp.event) : nat :=
  length (List.filter is_call log).

(** A world of the shell in which the effect has just called
    [addMiniApp]. *)
Definition calling_world : App.World :=
  App.step {| App.localStorage := ∅; App.pending := 0; App.log := [] |}
    (App.Effect {| MiniApp.isSDKLoaded := true; MiniApp.added := false;
                   MiniApp.has_addMiniApp := true |}).

(** What the quote menu reacts to.  [MouseUp] is the check that [mouseup]
    and [touchend] schedule, [MouseDown] a [mousedown] or [touchstart],
    [ShareClick] a click on the share button whose [openUrl] call settles
    at once; [OpenUrlSettled] is the rest of [handleQuoteShare] after its
    [await] when the call settles later, other events having happened in
    between. *)
Inductive menu_event :=
| MouseUp (w : Window) (contentRef : option (Element -> bool))
| MouseDown (w : Window) (target : option Element) (menuEl : option (Element -> bool))
| SelectionChange (w : Window)
| ShareClick (actions : option Actions) (w : Window)
| OpenUrlSettled (result : completion unit) (w : Window).

Definition menu_step (APP_URL author title : jsstring) (st : QuoteState)
    (e : menu_event) : QuoteState :=
  match e with
  | MouseUp w contentRef => scheduleSelectionCheck w contentRef st
  | MouseDown w target menuEl => fst (handleDocumentClick w target menuEl st)
  | SelectionChange w => fst (handleSelectionClear w st)
  | ShareClick actions w => fst (handleQuoteShare APP_URL author title actions w st)
  | OpenUrlSettled (Normal _) w => fst (resetQuoteSelection w st)
  | OpenUrlSettled (Throw _) _ => setQuoteWarning (Some failure_warning) st
  end.

(** The menu is open on a quote, or closed without one. *)
Definition menu_consistent (st : QuoteState) : Prop :=
  if showQuoteMenu st
  then 1 <= length (quoteText st) <= 280 /\ is_Some (quoteMenuPosition st)
  else quoteText st = [] /\ quoteMenuPosition st = None.

(** A world of the theme panel before it mounts, on an empty storage. *)
Definition fresh_panel : ThemeSettings.World :=
  {| ThemeSettings.state := ThemeSettings.initial_state;
     ThemeSettings.root := {| ThemeSettings.data_theme := None;
                              ThemeSettings.classList := ∅ |};
     ThemeSettings.localStorage := ∅ |}.

(** A hook that reports a loaded SDK and a mini app not yet added. *)
Definition loaded_hook : MiniApp.Hook :=
  {| MiniApp.isSDKLoaded := true; MiniApp.added := false; MiniApp.has_addMiniApp := true |}.

(** A change of a reading preference from the theme panel. *)
Inductive preference_change (SpacingSettings : Type) :=
| SizeChange (size : FontSize)
| SpacingChange (newSpacing : SpacingSettings).

Arguments SizeChange {SpacingSettings} _.
Arguments SpacingChange {SpacingSettings} _.

Definition change_preference {SpacingSettings : Type}
    (JSON_stringify : SpacingSettings -> jsstring)
    (x : Preferences SpacingSettings * Storage)
    (c : preference_change SpacingSettings) : Preferences SpacingSettings * Storage :=
  match c with
  | SizeChange size => handleFontSizeChange size (snd x) (fst x)
  | SpacingChange newSpacing => handleSpacingChange JSON_stringify newSpacing (snd x) (fst x)
  end.

(** [HomeTab] renders the theme panel twice, in the toolbar and in the
    footer controls: each panel has its own state, and they share the root
    element and the storage.  What a panel does is given with the state
    that this panel has at that time. *)
Inductive page_event :=
| PanelMounts
| PanelActs (st : ThemeSettings.State) (action : ThemeSettings.action).

Definition page_step (prefersDark : bool)
    (x : ThemeSettings.Root * Storage) (e : page_event) : ThemeSettings.Root * Storage :=
  let w :=
    match e with
    | PanelMounts =>
        ThemeSettings.mountEffect prefersDark
          {| ThemeSettings.state := ThemeSettings.initial_state;
             ThemeSettings.root := fst x; ThemeSettings.localStorage := snd x |}
    | PanelActs st action =>
        ThemeSettings.step
          {| ThemeSettings.state := st;
             ThemeSettings.root := fst x; ThemeSettings.localStorage := snd x |} action
    end in
  (ThemeSettings.root w, ThemeSettings.localStorage w).

(** The settings that a mount reads from the storage. *)
Definition stored_state (prefersDark : bool) (localStorage : Storage) : ThemeSettings.State :=
  ThemeSettings.state
    (ThemeSettings.mountEffect prefersDark
       {| ThemeSettings.state := ThemeSettings.initial_state;
          ThemeSettings.root := {| ThemeSettings.data_theme := None;
                                   ThemeSettings.classList := ∅ |};
          ThemeSettings.localStorage := localStorage |}).

(** The root element shows the settings that the storage holds. *)
Definition shows_stored (prefersDark : bool) (x : ThemeSettings.Root * Storage) : Prop :=
  reflects {| ThemeSettings.state := stored_state prefersDark (snd x);
              ThemeSettings.root := fst x;
              ThemeSettings.localStorage := snd x |}.

(** The text [s] holds the word [w] and then the words of [rest], each
    after a non-empty gap of white space, between the white space [lead]
    and [trail]. *)
Definition words_in (s lead w : jsstring) (rest : list (jsstring * jsstring))
    (trail : jsstring) : Prop :=
  s = lead ++ spaced w rest ++ trail
  /\ blank lead /\ word w /\ Forall gap_word rest /\ blank trail.

(** A selected text that is cut in the middle of a gap: 279 letters, a
    space and more. *)
Definition text_cut_at_space : jsstring :=
  replicate 279 97%N ++ lit " b and more".


(** The [id] of the first anchor among [nodes] that links to [href]. *)
Fixpoint first_anchor (href : jsstring) (nodes : list ReactNode) : option jsstring :=
  match nodes with
  | [] => None
  | span _ _ :: rest => first_anchor href rest
  | a _ id h _ _ :: rest =>
      if bool_decide (h = href) then Some id else first_anchor href rest
  end.

(** The first occurrence that the store holds for the reference [key]; an
    empty id counts as none, as it does for the annotator. *)
Definition first_of (refs : RefStore) (key : jsstring) : option jsstring :=
  match firstRefOccurrence refs !! key with
  | Some id => if truthy id then Some id else None
  | None => None
  end.

(** [s.split(t)] has not exactly one part: a non-empty [t] occurs in [s];
    the empty [t] splits every string but those of one code unit. *)
Definition splits (t s : jsstring) : Prop :=
  match t with
  | [] => length s <> 1
  | _ :: _ => occurs_in t s
  end.

(** The text [t] splits one of the strings among the fragments. *)
Definition found_in (t : jsstring) (fs : list Fragment) : Prop :=
  exists s, Text s ∈ fs /\ splits t s.

(** The fragments once the first [i] links of the reference were applied. *)
Definition fragments_after (ref : Reference) (i : nat) : list Fragment :=
  (apply_links (ref_id ref) (take i (links_of ref)) 0 [Text (ref_text ref)] []).1.

(** The links whose mark is [false]. *)
Fixpoint unmarked (links : list Link) (marks : list bool) : list Link :=
  match links, marks with
  | link :: ls, m :: ms => if m then unmarked ls ms else link :: unmarked ls ms
  | _, _ => []
  end.

(** Whether each link matched, in the order of the passes. *)
Fixpoint link_marks (id : number) (links : list Link) (linkIndex : nat)
    (fragments : list Fragment) : list bool :=
  match links with
  | [] => []
  | link :: rest =>
      (link_fragments id link linkIndex fragments 0).2
      :: link_marks id rest (S linkIndex) (link_fragments id link linkIndex fragments 0).1
  end.

(** * Properties *)

(** ** Runs of the built-in functions and of the handlers *)

Example decodeURIComponent_utf8 :
  ES.decodeURIComponent (lit "a%20b%E2%82%ACc") = Normal (lit "a b" ++ 8364%N :: lit "c").
Proof. reflexivity. Qed.

Example decodeURIComponent_astral :
  ES.decodeURIComponent (lit "%F0%9F%98%80") = Normal [55357%N; 56832%N].
Proof. reflexivity. Qed.

Example decodeURIComponent_truncated_escape :
  ES.decodeURIComponent (lit "%E0%A4%A") = Throw URIError
  /\ ES.decodeURIComponent (lit "100%") = Throw URIError
  /\ ES.decodeURIComponent (lit "%C0%80") = Throw URIError.
Proof. repeat split. Qed.

Example encodeURIComponent_marks :
  ES.encodeURIComponent (lit "a b&c/d~(e)" ++ [233%N])
  = Normal (lit "a%20b%26c%2Fd~(e)%C3%A9")
  /\ ES.encodeURIComponent [55357%N] = Throw URIError.
Proof. split; reflexivity. Qed.

Example sanitizeQuote_falls_back_to_raw :
  QuoteSharePage.sanitizeQuote (Single (lit "%E0%A4%A   x ")) = Normal (lit "%E0%A4%A x").
Proof. reflexivity. Qed.

Example sanitizeQuote_first_of_array :
  QuoteSharePage.sanitizeQuote (Multi [lit "two%0A%20words"; lit "ignored"])
  = Normal (lit "two words").
Proof. reflexivity. Qed.

Example sanitizeQuote_empty_array :
  QuoteSharePage.sanitizeQuote (Multi []) = Normal (lit "undefined").
Proof. reflexivity. Qed.

Example Number_strings :
  map (fun s => ToString (Number (lit s)))
      ["12"; "007"; "9007199254740993"; "1152921504606846976";
       "1000000000000000000000"; "123456789012345678901234567890"]%string
  = map lit ["12"; "7"; "9007199254740992"; "1152921504606847000";
             "1e+21"; "1.2345678901234568e+29"]%string.
Proof. vm_compute. reflexivity. Qed.

Example composeUrl_sample :
  composeUrl (lit "https://app.example") (lit "Satoshi Nakamoto") (lit "Bitcoin")
             (lit "proof-of-work & a chain")
  = Normal (lit "https://farcaster.xyz/~/compose?text=%22proof-of-work+%26+a+chain%22+%E2%80%94+Satoshi+Nakamoto%2C+Bitcoin&embeds%5B%5D=https%3A%2F%2Fapp.example%2Fshare%2Fquote%3Ftext%3Dproof-of-work%2520%2526%2520a%2520chain").
Proof. vm_compute. reflexivity. Qed.

Example render_paragraph :
  fst <$> renderContentWithReferences (lit "as in [1], see [2-4] and [1[2]]") empty_refs
  = Some [span (lit "text-0") (lit "as in ");
          a (lit "ref-1") (lit "ref-link-1-0") (lit "#reference-1") anchorClassName
            [[LBRACKET]; lit "1"; [RBRACKET]];
          span (lit "text-2") (lit ", see ");
          a (lit "ref-3") (lit "ref-link-2-0") (lit "#reference-2") anchorClassName
            [[LBRACKET]; lit "2-4"; [RBRACKET]];
          span (lit "text-4") (lit " and [1");
          a (lit "ref-5") (lit "ref-link-2-1") (lit "#reference-2") anchorClassName
            [[LBRACKET]; lit "2"; [RBRACKET]];
          span (lit "text-6") (lit "]")].
Proof. vm_compute. reflexivity. Qed.

Example handleSelection_sample :
  handleSelection (sample_window sample_text) content_element initial_quote_state
  = {| showQuoteMenu := true;
       quoteText := lit "proof of work";
       quoteWarning := Some minimum_warning;
       quoteMenuPosition := Some {| top := 384; left := 200 # 2 |} |}.
Proof. reflexivity. Qed.

(** ** White space *)

Lemma replace_runs_spaces (s : jsstring) :
  Forall (fun c => is_space c = true) s -> replace_runs true s = [].
Proof.
  induction 1 as [|c r Hc _ IH]; simpl; [reflexivity|].
  rewrite Hc. exact IH.
Qed.

Lemma normalize_ws_spaces (s : jsstring) :
  Forall (fun c => is_space c = true) s -> normalize_ws s = [].
Proof.
  intros H. unfold normalize_ws, replace_ws.
  destruct H as [|c r Hc Hr]; [reflexivity|].
  simpl. rewrite Hc, (replace_runs_spaces r Hr). reflexivity.
Qed.

Lemma slice_from_start (s : jsstring) (n : nat) : slice s 0 n = take n s.
Proof. unfold slice. rewrite Nat.sub_0_r. reflexivity. Qed.

(** *** What normalization does *)

Lemma replace_runs_blank (b : bool) (g s : jsstring) :
  blank g -> g <> [] ->
  replace_runs b (g ++ s) = (if b then [] else [SPACE]) ++ replace_runs true s.
Proof.
  intros Hg. revert b. induction Hg as [|c r Hc Hr IH]; intros b Hne; [contradiction|].
  cbn [app replace_runs]. rewrite Hc.
  destruct r as [|c' r'].
  - destruct b; reflexivity.
  - rewrite (IH true) by discriminate. destruct b; reflexivity.
Qed.

Lemma replace_runs_word (b : bool) (w s : jsstring) :
  word w -> replace_runs b (w ++ s) = w ++ replace_runs false s.
Proof.
  intros [Hne Hw]. revert b. induction Hw as [|c r Hc Hr IH]; intros b; [contradiction|].
  cbn [app replace_runs]. rewrite Hc. f_equal.
  destruct r as [|c' r']; [reflexivity|]. apply IH. discriminate.
Qed.

Lemma replace_runs_tail (trail : jsstring) :
  blank trail ->
  replace_runs false trail = match trail with [] => [] | _ => [SPACE] end.
Proof.
  intros Ht. destruct trail as [|c r]; [reflexivity|].
  rewrite <- (app_nil_r (c :: r)), replace_runs_blank by (assumption || discriminate).
  reflexivity.
Qed.

Lemma replace_runs_spaced (b : bool) (w : jsstring) (rest : list (jsstring * jsstring))
    (trail : jsstring) :
  word w -> Forall gap_word rest -> blank trail ->
  replace_runs b (spaced w rest ++ trail)
  = join_words w (map snd rest) ++ match trail with [] => [] | _ => [SPACE] end.
Proof.
  intros Hw Hrest Ht. revert b w Hw.
  induction Hrest as [|[g w'] r (Hg & Hgne & Hw') _ IH]; intros b w Hw;
    cbn [spaced map join_words snd].
  - rewrite replace_runs_word by exact Hw. rewrite replace_runs_tail by exact Ht.
    reflexivity.
  - cbn [fst snd] in *. rewrite <- !app_assoc.
    rewrite replace_runs_word by exact Hw.
    rewrite replace_runs_blank by assumption. cbn [app].
    rewrite IH by exact Hw'. reflexivity.
Qed.

Lemma trimStart_blank (g s : jsstring) : blank g -> trimStart (g ++ s) = trimStart s.
Proof.
  induction 1 as [|c r Hc _ IH]; [reflexivity|].
  cbn [app trimStart]. rewrite Hc. exact IH.
Qed.

Lemma trimStart_word (c : N) (s : jsstring) :
  is_space c = false -> trimStart (c :: s) = c :: s.
Proof. intros Hc. cbn [trimStart]. rewrite Hc. reflexivity. Qed.

Lemma join_words_ends (w : jsstring) (ws : list jsstring) :
  word w -> Forall word ws ->
  (exists c r, join_words w ws = c :: r /\ is_space c = false)
  /\ (exists r c, join_words w ws = r ++ [c] /\ is_space c = false).
Proof.
  intros Hw Hws. revert w Hw. induction Hws as [|w' r Hw' _ IH]; intros w Hw.
  - destruct Hw as [Hne Hall]. cbn [join_words]. split.
    + destruct w as [|c r]; [contradiction|].
      exists c, r. split; [reflexivity|]. exact (Forall_inv Hall).
    + destruct (exists_last Hne) as (r & c & ->).
      exists r, c. split; [reflexivity|].
      apply Forall_app in Hall as [_ Hc]. exact (Forall_inv Hc).
  - cbn [join_words]. destruct (IH w' Hw') as [_ (r' & c & Hlast & Hc)]. split.
    + destruct Hw as [Hne Hall]. destruct w as [|c0 r0]; [contradiction|].
      exists c0, (r0 ++ SPACE :: join_words w' r). split; [reflexivity|].
      exact (Forall_inv Hall).
    + exists (w ++ SPACE :: r'), c. rewrite Hlast, <- app_assoc.
      split; [reflexivity | exact Hc].
Qed.

(** Normalization keeps the words of a text, in order, with one space
    between two of them and none before or after. *)
Lemma normalize_ws_words (lead w : jsstring) (rest : list (jsstring * jsstring))
    (trail : jsstring) :
  blank lead -> word w -> Forall gap_word rest -> blank trail ->
  normalize_ws (lead ++ spaced w rest ++ trail) = join_words w (map snd rest).
Proof.
  intros Hlead Hw Hrest Ht. unfold normalize_ws, replace_ws.
  assert (Hws : Forall word (map snd rest)).
  { apply Forall_fmap. eapply Forall_impl; [exact Hrest|].
    intros [g w'] (_ & _ & H). exact H. }
  destruct (join_words_ends w (map snd rest) Hw Hws)
    as [(c & r & Hfirst & Hc) (r' & c' & Hlast & Hc')].
  set (sp := match trail with [] => [] | _ => [SPACE] end).
  assert (Hsp : blank sp) by (subst sp; destruct trail; repeat constructor).
  assert (Hrep : replace_runs false (lead ++ spaced w rest ++ trail)
                 = match lead with [] => [] | _ => [SPACE] end
                   ++ join_words w (map snd rest) ++ sp).
  { destruct lead as [|c0 r0].
    - cbn [app]. apply replace_runs_spaced; assumption.
    - rewrite replace_runs_blank by (assumption || discriminate).
      rewrite replace_runs_spaced by assumption. reflexivity. }
  rewrite Hrep. unfold trim.
  rewrite trimStart_blank by (destruct lead; repeat constructor).
  rewrite Hfirst at 1. cbn [app]. rewrite trimStart_word by exact Hc.
  change (c :: r ++ sp) with ((c :: r) ++ sp). rewrite <- Hfirst.
  unfold trimEnd. rewrite reverse_app.
  rewrite trimStart_blank
    by (unfold blank; rewrite Forall_reverse; exact Hsp).
  rewrite Hlast, reverse_app. cbn [reverse rev_append app].
  rewrite trimStart_word by exact Hc'.
  change (c' :: reverse r') with (reverse [c'] ++ reverse r').
  rewrite <- reverse_app, reverse_involutive. reflexivity.
Qed.


(** ** The quote sanitizers *)

Lemma truncate_length (n : nat) (s : jsstring) : length (truncate n s) <= n.
Proof.
  unfold truncate. destruct (n <? length s) eqn:E.
  - rewrite length_take. lia.
  - apply Nat.ltb_ge in E. exact E.
Qed.

Lemma truthy_false (s : jsstring) : truthy s = false <-> s = [].
Proof. destruct s; simpl; split; congruence. Qed.

Lemma truncate_nil (n : nat) : truncate n [] = [].
Proof. unfold truncate. destruct (n <? length []); [apply take_nil | reflexivity]. Qed.

(** The branch of [sanitizeQuote] after decoding. *)
Lemma sanitize_tail (d : jsstring) :
  (if negb (truthy (normalize_ws d)) then Normal []
   else Normal (if 280 <? length (normalize_ws d)
                then slice (normalize_ws d) 0 280
                else normalize_ws d))
  = Normal (truncate 280 (normalize_ws d)).
Proof.
  destruct (truthy (normalize_ws d)) eqn:E; simpl.
  - rewrite slice_from_start. reflexivity.
  - apply truthy_false in E. rewrite E, truncate_nil. reflexivity.
Qed.

Lemma route_sanitizeQuote_eq (v : jsstring) :
  OpengraphQuoteRoute.sanitizeQuote (Some v)
  = Normal (truncate 280 (normalize_ws (decoded_or_raw v))).
Proof.
  unfold OpengraphQuoteRoute.sanitizeQuote, OpengraphQuoteRoute.MAX_QUOTE_LENGTH.
  destruct v as [|c r].
  - reflexivity.
  - cbn [truthy negb]. apply sanitize_tail.
Qed.

Lemma page_sanitizeQuote_eq (raw : query_param) (v : jsstring) :
  QuoteSharePage.value_of raw = Some v ->
  QuoteSharePage.sanitizeQuote raw
  = Normal (truncate 280 (normalize_ws (decoded_or_raw v))).
Proof.
  intros Hv. unfold QuoteSharePage.sanitizeQuote, QuoteSharePage.MAX_QUOTE_LENGTH.
  rewrite Hv. cbn [ES.ToString_opt].
  destruct (QuoteSharePage.falsy raw) eqn:Hf.
  - destruct raw as [|s|l]; simpl in *; try discriminate.
    injection Hv as ->. apply negb_true_iff, truthy_false in Hf. subst v.
    reflexivity.
  - unfold decoded_or_raw.
    destruct (ES.decodeURIComponent v); apply sanitize_tail.
Qed.

(** C8. The page's [sanitizeQuote] on a single string and the image route's
    [sanitizeQuote] on the same string return the same result. *)
Theorem sanitizeQuote_page_route_agree (s : jsstring) :
  QuoteSharePage.sanitizeQuote (Single s) = OpengraphQuoteRoute.sanitizeQuote (Some s).
Proof.
  rewrite route_sanitizeQuote_eq.
  apply page_sanitizeQuote_eq. reflexivity.
Qed.


(** ** The selection handler *)

Lemma warning_literal :
  truncation_warning = lit "Quote truncated to 280 characters.".
Proof. reflexivity. Qed.

(** A selection that is not captured leaves the state as it is. *)
Lemma handleSelection_ignored w contentRef st :
  (forall selection, ~ captured w contentRef selection) ->
  handleSelection w contentRef st = st.
Proof.
  intros Hno. unfold handleSelection.
  destruct (getSelection w) as [sel|] eqn:Hsel; [|reflexivity].
  destruct (isCollapsed sel) eqn:Hc; [reflexivity|].
  destruct (truthy (normalize_ws (selection_toString sel))) eqn:Ht; [|reflexivity].
  cbn [negb].
  destruct (outside_content contentRef _) eqn:Ho; [reflexivity|].
  exfalso. apply (Hno sel). repeat split; try assumption.
  intros E. rewrite E in Ht. discriminate.
Qed.

(** Every text is blank or made of words and gaps. *)
Lemma words_of_text (s : jsstring) :
  blank s
  \/ exists lead w rest trail,
       s = lead ++ spaced w rest ++ trail
       /\ blank lead /\ word w /\ Forall gap_word rest /\ blank trail.
Proof.
  induction s as [|c r IH]; [left; constructor|].
  destruct (is_space c) eqn:Hc.
  - destruct IH as [Hb | (lead & w & rest & trail & -> & Hl & Hw & Hr & Ht)].
    + left. constructor; assumption.
    + right. exists (c :: lead), w, rest, trail.
      split; [reflexivity|]. split; [constructor; assumption|]. auto.
  - right. destruct IH as [Hb | (lead & w & rest & trail & -> & Hl & Hw & Hr & Ht)].
    + exists [], [c], [], r. split; [reflexivity|].
      split; [constructor|]. split; [split; [discriminate | repeat constructor; exact Hc]|].
      split; [constructor | exact Hb].
    + destruct lead as [|c0 lead0].
      * exists [], (c :: w), rest, trail. cbn [app].
        split; [destruct rest as [|[g w'] rest']; reflexivity|].
        split; [constructor|].
        split; [destruct Hw as [_ Hw]; split; [discriminate | constructor; assumption]|].
        auto.
      * exists [], [c], ((c0 :: lead0, w) :: rest), trail. cbn [app spaced].
        split; [rewrite <- !app_assoc; reflexivity|].
        split; [constructor|].
        split; [split; [discriminate | repeat constructor; exact Hc]|].
        split; [|exact Ht]. constructor; [|exact Hr].
        split; [exact Hl|]. split; [discriminate | exact Hw].
Qed.

Lemma words_of_nonblank (s : jsstring) :
  normalize_ws s <> [] -> exists lead w rest trail, words_in s lead w rest trail.
Proof.
  intros Hne. destruct (words_of_text s) as [Hb | (lead & w & rest & trail & H)].
  - contradiction Hne. apply normalize_ws_spaces, Hb.
  - exists lead, w, rest, trail. exact H.
Qed.

(** C1. For a captured selection: the selected text is made of words
    between white space, and [text], these words joined by single spaces, is
    what the handler works on, which is the selected text with every run of
    white space replaced by one space and then trimmed.  The menu shows; a
    [text] of more than 280 code units is cut to its first 280 and the
    truncation warning is set; a [text] of fewer than 16 is kept with the
    minimum-length warning; any other [text] is kept with no warning. *)
Theorem handleSelection_quote_bounds
    (w : Window) (contentRef : option (Element -> bool)) (st : QuoteState)
    (selection : Selection) :
  captured w contentRef selection ->
  (exists lead w0 rest trail,
      words_in (selection_toString selection) lead w0 rest trail)
  /\ forall lead w0 rest trail,
       words_in (selection_toString selection) lead w0 rest trail ->
       let text := join_words w0 (map snd rest) in
       let st' := handleSelection w contentRef st in
       showQuoteMenu st' = true
       /\ (280 < length text ->
           quoteText st' = take 280 text /\ length (quoteText st') = 280
           /\ quoteWarning st' = Some (lit "Quote truncated to 280 characters."))
       /\ (length text < 16 ->
           quoteText st' = text
           /\ quoteWarning st'
              = Some (lit "Try selecting a little more text for better context."))
       /\ (16 <= length text <= 280 ->
           quoteText st' = text /\ quoteWarning st' = None).
Proof.
  intros (Hsel & Hc & Hne & Hin). split; [apply words_of_nonblank, Hne|].
  intros lead w0 rest trail (Hs & Hl & Hw & Hr & Ht) text st'. subst st'.
  assert (Htext : normalize_ws (selection_toString selection) = text)
    by (rewrite Hs; apply normalize_ws_words; assumption).
  unfold handleSelection. rewrite Hsel, Hc, Htext.
  rewrite Htext in Hne.
  destruct (truthy text) eqn:Htr; [|apply truthy_false in Htr; contradiction].
  cbn [negb]. rewrite Hin.
  unfold MAX_QUOTE_LENGTH, MIN_QUOTE_LENGTH. rewrite slice_from_start.
  destruct (280 <? length text) eqn:Hmax;
    [apply Nat.ltb_lt in Hmax | apply Nat.ltb_ge in Hmax].
  - quote_fields. split; [reflexivity|].
    split; [|split; intros; lia].
    intros _. split; [reflexivity|]. split; [|reflexivity].
    rewrite length_take. lia.
  - destruct (length text <? 16) eqn:Hmin;
      [apply Nat.ltb_lt in Hmin | apply Nat.ltb_ge in Hmin]; quote_fields.
    + split; [reflexivity|]. split; [intros; lia|].
      split; [intros _; split; reflexivity | intros; lia].
    + split; [reflexivity|]. split; [intros; lia|].
      split; [intros; lia | intros _; split; reflexivity].
Qed.

Lemma handleSelection_quote_bounds_witness :
  quoteText (handleSelection (sample_window sample_text) content_element
               initial_quote_state)
  = lit "proof of work"
  /\ quoteWarning (handleSelection (sample_window sample_text) content_element
                     initial_quote_state)
     = Some (lit "Try selecting a little more text for better context.").
Proof.
  assert (Hcap : captured (sample_window sample_text) content_element
                   (sample_selection sample_text)).
  { split; [reflexivity|]. split; [reflexivity|].
    split; [vm_compute; discriminate | reflexivity]. }
  destruct (handleSelection_quote_bounds _ _ initial_quote_state _ Hcap) as [_ Hwords].
  assert (Hin : words_in (selection_toString (sample_selection sample_text))
                  (lit "  ") (lit "proof")
                  [(lit "  ", lit "of"); (10%N :: lit "   ", lit "work")] (lit " ")).
  { split; [reflexivity|]. split; [repeat constructor|].
    split; [split; [discriminate | repeat constructor]|].
    split; [|repeat constructor].
    repeat constructor; discriminate. }
  destruct (Hwords _ _ _ _ Hin) as (_ & _ & Hshort & _).
  apply Hshort. vm_compute. lia.
Defined.

(** ** Sharing a quote *)

Lemma setQuoteWarning_same_quote v st : same_quote st (setQuoteWarning v st).
Proof. repeat split. Qed.

(** C7. With a quote to share: when the host has no [openUrl], the
    unsupported-client warning is set, the quote state is as before and
    nothing is opened; when building the URL or [openUrl] throws, the failure
    warning is set, the quote state is as before and [openUrl] has been
    called once at most; the quote selection is reset exactly when [openUrl]
    has completed normally, after its single call. *)
Theorem handleQuoteShare_failure_paths
    (APP_URL author title : jsstring) (actions : option Actions) (w : Window)
    (st : QuoteState) :
  quoteText st <> [] ->
  let st' := fst (handleQuoteShare APP_URL author title actions w st) in
  let evs := snd (handleQuoteShare APP_URL author title actions w st) in
  (actions ≫= openUrl = None ->
     quoteWarning st' = Some (lit "Opening links is not supported in this client.")
     /\ same_quote st st' /\ evs = [])
  /\ (forall open e, actions ≫= openUrl = Some open ->
        composeUrl APP_URL author title (quoteText st) = Throw e ->
        quoteWarning st'
        = Some (lit "Something went wrong opening Farcaster. Please try again.")
        /\ same_quote st st' /\ evs = [ConsoleError])
  /\ (forall open url e, actions ≫= openUrl = Some open ->
        composeUrl APP_URL author title (quoteText st) = Normal url ->
        open url = Throw e ->
        quoteWarning st'
        = Some (lit "Something went wrong opening Farcaster. Please try again.")
        /\ same_quote st st' /\ evs = [OpenUrl url; ConsoleError])
  /\ (forall open url u, actions ≫= openUrl = Some open ->
        composeUrl APP_URL author title (quoteText st) = Normal url ->
        open url = Normal u ->
        st' = fst (resetQuoteSelection w st)
        /\ evs = OpenUrl url :: snd (resetQuoteSelection w st))
  /\ (~ same_quote st st' \/ In RemoveAllRanges evs ->
      exists open url u,
        actions ≫= openUrl = Some open
        /\ composeUrl APP_URL author title (quoteText st) = Normal url
        /\ open url = Normal u
        /\ evs = OpenUrl url :: snd (resetQuoteSelection w st)).
Proof.
  intros Hq st' evs. subst st' evs. unfold handleQuoteShare.
  destruct (truthy (quoteText st)) eqn:Ht; [|apply truthy_false in Ht; contradiction].
  cbn [negb].
  destruct (actions ≫= openUrl) as [open|] eqn:Hopen;
    [destruct (composeUrl APP_URL author title (quoteText st)) as [url|e] eqn:Hurl;
     [destruct (open url) as [u|e] eqn:Hcall;
      [destruct (resetQuoteSelection w st) as [st1 evs1] eqn:Hreset|]|]|];
    cbn [fst snd];
    refine (conj _ (conj _ (conj _ (conj _ _))));
    try (intros; simplify_eq; congruence);
    try (intros; simplify_eq; split; [reflexivity|]; split;
         [apply setQuoteWarning_same_quote | reflexivity]).
  - intros; simplify_eq. split; reflexivity.
  - intros _. exists open, url, u. repeat split; assumption.
  - intros [Hn | Hin]; [destruct Hn; apply setQuoteWarning_same_quote|].
    simpl in Hin. intuition discriminate.
  - intros [Hn | Hin]; [destruct Hn; apply setQuoteWarning_same_quote|].
    simpl in Hin. intuition discriminate.
  - intros [Hn | Hin]; [destruct Hn; apply setQuoteWarning_same_quote|].
    destruct Hin.
Qed.

Lemma handleQuoteShare_failure_paths_witness :
  quoteWarning
    (fst (handleQuoteShare (lit "https://app.example") (lit "Satoshi Nakamoto")
            (lit "Bitcoin") None (sample_window []) sample_quote_state))
  = Some (lit "Opening links is not supported in this client.")
  /\ fst (handleQuoteShare (lit "https://app.example") (lit "Satoshi Nakamoto")
            (lit "Bitcoin") failing_host (sample_window []) sample_quote_state)
     = setQuoteWarning
         (Some (lit "Something went wrong opening Farcaster. Please try again."))
         sample_quote_state.
Proof.
  assert (Hq : quoteText sample_quote_state <> []) by (vm_compute; discriminate).
  split.
  - pose proof (handleQuoteShare_failure_paths (lit "https://app.example")
                  (lit "Satoshi Nakamoto") (lit "Bitcoin") None (sample_window [])
                  sample_quote_state Hq) as (Hmissing & _).
    apply Hmissing. reflexivity.
  - reflexivity.
Defined.

(** ** The font-size preference *)

Lemma FontSize_string_valid (f : FontSize) : valid_font_size (FontSize_string f).
Proof. destruct f; unfold valid_font_size; simpl; auto. Qed.

Lemma handleFontSizeChange_valid {S : Type} size localStorage (p : Preferences S) :
  valid_font_size (fontSize (fst (handleFontSizeChange size localStorage p)))
  /\ stored_size_ok (snd (handleFontSizeChange size localStorage p)).
Proof.
  split; [apply FontSize_string_valid|].
  intros v. cbn [handleFontSizeChange snd]. rewrite lookup_insert_eq.
  intros [= <-]. right. apply FontSize_string_valid.
Qed.

Lemma font_size_changes_valid {S : Type} sizes :
  forall localStorage (p : Preferences S),
    valid_font_size (fontSize p) -> stored_size_ok localStorage ->
    valid_font_size (fontSize (fst (font_size_changes sizes localStorage p)))
    /\ stored_size_ok (snd (font_size_changes sizes localStorage p)).
Proof.
  induction sizes as [|size rest IH]; intros localStorage p Hp Hs.
  - split; assumption.
  - cbn [font_size_changes].
    destruct (handleFontSizeChange_valid size localStorage p) as [Hp' Hs'].
    destruct (handleFontSizeChange size localStorage p) as [p' ls'].
    apply IH; assumption.
Qed.

(** C10, as the code has it. When the key [fontSize] of the local storage
    is absent, empty or holds one of the three sizes, the state [fontSize] is
    one of the three sizes after the preferences are loaded and after every
    later [handleFontSizeChange], and the key stays so. *)
Theorem fontSize_valid_for_valid_storage
    {S : Type} (JSON_parse : jsstring -> completion S) (default_spacing : S)
    (localStorage : Storage) (p : Preferences S) (sizes : list FontSize) :
  stored_size_ok localStorage ->
  loadPreferences JSON_parse localStorage (initial_preferences default_spacing)
  = Normal p ->
  valid_font_size (fontSize p)
  /\ valid_font_size (fontSize (fst (font_size_changes sizes localStorage p)))
  /\ stored_size_ok (snd (font_size_changes sizes localStorage p)).
Proof.
  intros Hs Hload.
  assert (Hp : valid_font_size (fontSize p)).
  { unfold loadPreferences in Hload.
    set (p1 := match localStorage !! lit "fontSize" with
               | Some size => if truthy size then _ else _
               | None => _
               end) in Hload.
    assert (Hp1 : valid_font_size (fontSize p1)).
    { subst p1. destruct (localStorage !! lit "fontSize") as [v|] eqn:Hv.
      - destruct (Hs v Hv) as [-> | Hvalid]; [right; left; reflexivity|].
        destruct (truthy v); [exact Hvalid | right; left; reflexivity].
      - right; left; reflexivity. }
    destruct (localStorage !! lit "spacingSettings") as [json|].
    - destruct (truthy json).
      + destruct (JSON_parse json); [|discriminate].
        injection Hload as <-. exact Hp1.
      + injection Hload as <-. exact Hp1.
    - injection Hload as <-. exact Hp1. }
  split; [exact Hp|]. apply font_size_changes_valid; assumption.
Qed.

Lemma fontSize_valid_for_valid_storage_witness :
  valid_font_size
    (fontSize (fst (font_size_changes [small; large]
                      {[ lit "fontSize" := lit "large" ]}
                      {| fontSize := lit "large"; spacing := tt |}))).
Proof.
  assert (Hs : stored_size_ok {[ lit "fontSize" := lit "large" ]}).
  { intros v. rewrite lookup_singleton_eq. intros [= <-].
    right. right. right. reflexivity. }
  apply (fontSize_valid_for_valid_storage (fun _ => Normal tt) tt
           {[ lit "fontSize" := lit "large" ]}
           {| fontSize := lit "large"; spacing := tt |} [small; large] Hs).
  reflexivity.
Defined.

(** C10 as stated fails: a stored string that is none of the three sizes
    becomes the state [fontSize]. *)
Lemma fontSize_foreign_value_adopted :
  exists p,
    loadPreferences (fun _ => Normal tt) {[ lit "fontSize" := lit "huge" ]}
                    (initial_preferences tt) = Normal p
    /\ fontSize p = lit "huge"
    /\ ~ valid_font_size (fontSize p).
Proof.
  eexists. split; [reflexivity|]. split; [reflexivity|].
  unfold valid_font_size. cbn [fontSize].
  intros [H | [H | H]]; vm_compute in H; discriminate H.
Qed.

(** ** The reference pattern *)

Lemma digits1_matches (d : jsstring) : digits1 d -> matches digits_re d.
Proof.
  intros [Hne Hd]. unfold digits_re.
  induction Hd as [|c r Hc Hr IH]; [contradiction|].
  destruct r as [|c' r'].
  - apply m_plus_one, m_class, Hc.
  - change (c :: c' :: r') with ([c] ++ c' :: r').
    apply m_plus_more; [apply m_class, Hc | apply IH; discriminate].
Qed.

Lemma matches_digits1 (d : jsstring) : matches digits_re d -> digits1 d.
Proof.
  unfold digits_re. intros H.
  remember (Plus (Class is_digit)) as r eqn:Hr.
  induction H; try discriminate Hr; injection Hr as ->.
  - inversion H; subst. split; [discriminate | repeat constructor; assumption].
  - inversion H; subst. destruct (IHmatches2 eq_refl) as [_ Hd].
    split; [discriminate | constructor; assumption].
Qed.

Lemma matches_label (l : jsstring) : matches label_re l <-> is_label l.
Proof.
  unfold label_re. split.
  - intros H. inversion H as [| | | | | | |r s Hs]; subst.
    inversion Hs as [| |r1 r2 s1 s2 H1 H2| | | | |]; subst.
    apply matches_digits1 in H1.
    inversion H2 as [| | | | |r|r s Ho|]; subst.
    + rewrite app_nil_r. apply label_single, H1.
    + inversion Ho as [| |r1 r2 s3 s4 H3 H4| | | | |]; subst.
      inversion H3; subst. apply matches_digits1 in H4.
      apply label_range; assumption.
  - intros [d Hd | d1 d2 H1 H2]; apply m_group.
    + rewrite <- (app_nil_r d). apply m_seq; [apply digits1_matches, Hd | apply m_opt_none].
    + apply m_seq; [apply digits1_matches, H1|].
      apply m_opt_some. change (HYPHEN :: d2) with ([HYPHEN] ++ d2).
      apply m_seq; [apply m_chr | apply digits1_matches, H2].
Qed.

(** The strings the pattern matches are the markers of the labels. *)
Lemma matches_referencePattern (m : jsstring) :
  matches referencePattern m <-> exists l, is_label l /\ m = marker l.
Proof.
  unfold referencePattern, marker. split.
  - intros H. inversion H as [| |r1 r2 s1 s2 H1 H2| | | | |]; subst.
    inversion H1; subst.
    inversion H2 as [| |r1 r2 s3 s4 H3 H4| | | | |]; subst.
    inversion H4; subst. exists s3. split; [apply matches_label, H3 | reflexivity].
  - intros (l & Hl & ->). change (LBRACKET :: l ++ [RBRACKET]) with ([LBRACKET] ++ l ++ [RBRACKET]).
    apply m_seq; [apply m_chr|]. apply m_seq; [apply matches_label, Hl | apply m_chr].
Qed.

(** A code unit of a label is a digit or a hyphen, so it is no bracket. *)
Lemma digits1_no (c : N) (d : jsstring) :
  is_digit c = false -> digits1 d -> Forall (fun x => x <> c) d.
Proof.
  intros Hc [_ Hd]. eapply Forall_impl; [exact Hd|].
  intros x Hx ->. congruence.
Qed.

Lemma is_label_no_bracket (l : jsstring) :
  is_label l -> Forall (fun x => x <> LBRACKET) l.
Proof.
  intros [d Hd | d1 d2 H1 H2].
  - apply (digits1_no LBRACKET); [reflexivity | exact Hd].
  - apply Forall_app. split; [apply (digits1_no LBRACKET); [reflexivity | exact H1]|].
    constructor; [discriminate|]. apply (digits1_no LBRACKET); [reflexivity | exact H2].
Qed.

Lemma marker_length (l : jsstring) : length (marker l) = length l + 2.
Proof. unfold marker. cbn [length]. rewrite length_app. simpl. lia. Qed.

(** *** The matcher against the pattern *)

Lemma span_digits_spec (s : jsstring) :
  s = (span_digits s).1 ++ (span_digits s).2
  /\ Forall (fun c => is_digit c = true) (span_digits s).1
  /\ stops (span_digits s).2.
Proof.
  induction s as [|c r IH]; cbn [span_digits].
  - repeat split. constructor.
  - destruct (is_digit c) eqn:Hc.
    + destruct (span_digits r) as [d rest]. cbn [fst snd app] in *.
      destruct IH as (Hr & Hd & Hs).
      split; [congruence|]. split; [constructor|]; assumption.
    + cbn [fst snd app stops]. repeat split; [constructor | exact Hc].
Qed.

Lemma span_digits_app (d rest : jsstring) :
  Forall (fun c => is_digit c = true) d -> stops rest ->
  span_digits (d ++ rest) = (d, rest).
Proof.
  intros Hd Hs. induction Hd as [|c r Hc _ IH]; cbn [app span_digits].
  - destruct rest as [|c r]; [reflexivity|]. cbn [span_digits stops] in *.
    rewrite Hs. reflexivity.
  - rewrite Hc, IH. reflexivity.
Qed.

Lemma marker_app (l rest : jsstring) :
  marker l ++ rest = LBRACKET :: l ++ RBRACKET :: rest.
Proof. unfold marker. simpl. rewrite <- app_assoc. reflexivity. Qed.

Lemma match_here_complete (l rest : jsstring) :
  is_label l -> match_here (marker l ++ rest) = Some l.
Proof.
  intros Hl. rewrite marker_app. unfold match_here.
  change (LBRACKET =? LBRACKET)%N with true. cbv iota.
  destruct Hl as [d [Hne Hd] | d1 d2 [Hne1 Hd1] [Hne2 Hd2]].
  - rewrite (span_digits_app d (RBRACKET :: rest) Hd eq_refl).
    destruct d; [contradiction|]. reflexivity.
  - rewrite <- app_assoc. cbn [app].
    rewrite (span_digits_app d1 (HYPHEN :: d2 ++ RBRACKET :: rest) Hd1 eq_refl).
    destruct d1 as [|c1 r1]; [contradiction|]. cbn [truthy].
    change (HYPHEN =? RBRACKET)%N with false.
    change (HYPHEN =? HYPHEN)%N with true. cbv iota.
    rewrite (span_digits_app d2 (RBRACKET :: rest) Hd2 eq_refl).
    destruct d2; [contradiction|]. reflexivity.
Qed.

Lemma truthy_true (s : jsstring) : truthy s = true <-> s <> [].
Proof. destruct s; simpl; split; congruence. Qed.

Lemma match_here_sound (s l : jsstring) :
  match_here s = Some l -> is_label l /\ exists rest, s = marker l ++ rest.
Proof.
  unfold match_here. destruct s as [|c s1]; [discriminate|].
  destruct (c =? LBRACKET)%N eqn:Hc; [|discriminate].
  apply N.eqb_eq in Hc. subst c.
  destruct (span_digits_spec s1) as (Hs1 & Hd1 & _).
  destruct (span_digits s1) as [d1 r1]. cbn [fst snd] in *.
  destruct (truthy d1) eqn:Ht1; [|discriminate]. apply truthy_true in Ht1.
  destruct r1 as [|c2 r2]; [discriminate|].
  destruct (c2 =? RBRACKET)%N eqn:Hc2.
  - intros [= <-]. apply N.eqb_eq in Hc2. subst c2.
    split; [apply label_single; split; assumption|].
    exists r2. rewrite marker_app, Hs1. reflexivity.
  - destruct (c2 =? HYPHEN)%N eqn:Hc3; [|discriminate].
    apply N.eqb_eq in Hc3. subst c2.
    destruct (span_digits_spec r2) as (Hs2 & Hd2 & _).
    destruct (span_digits r2) as [d2 r3]. cbn [fst snd] in *.
    destruct (truthy d2) eqn:Ht2; [|discriminate]. apply truthy_true in Ht2.
    destruct r3 as [|c3 r4]; [discriminate|].
    destruct (c3 =? RBRACKET)%N eqn:Hc4; [|discriminate].
    apply N.eqb_eq in Hc4. subst c3. intros [= <-].
    split; [apply label_range; split; assumption|].
    exists r4. rewrite marker_app, Hs1, Hs2, <- app_assoc. reflexivity.
Qed.

Lemma search_eq (s : jsstring) :
  search s =
  match match_here s with
  | Some l => Some (0, l)
  | None =>
      match s with
      | [] => None
      | _ :: s' =>
          match search s' with
          | Some (k, l) => Some (S k, l)
          | None => None
          end
      end
  end.
Proof. destruct s; reflexivity. Qed.

(** [search] finds a match, and no match starts before it. *)
Lemma search_sound (s : jsstring) :
  forall k l, search s = Some (k, l) ->
    match_here (drop k s) = Some l
    /\ forall j, j < k -> match_here (drop j s) = None.
Proof.
  induction s as [|c r IH]; intros k l; rewrite search_eq.
  - simpl. discriminate.
  - destruct (match_here (c :: r)) as [l0|] eqn:Hm.
    + intros [= <- <-]. split; [exact Hm | intros j Hj; lia].
    + destruct (search r) as [[k' l']|] eqn:Hs; [|discriminate].
      intros [= <- <-]. destruct (IH k' l' eq_refl) as [Hk Hbefore].
      split; [exact Hk|]. intros [|j] Hj; [exact Hm | apply Hbefore; lia].
Qed.

(** [search] finds the leftmost match: a match at offset [p] makes it
    answer an offset of [p] at most. *)
Lemma search_complete (s : jsstring) :
  forall p l, match_here (drop p s) = Some l ->
    exists k l', search s = Some (k, l') /\ k <= p.
Proof.
  induction s as [|c r IH]; intros p l Hp; rewrite search_eq.
  - rewrite drop_nil in Hp. discriminate Hp.
  - destruct (match_here (c :: r)) as [l0|] eqn:Hm.
    + exists 0, l0. split; [reflexivity | lia].
    + destruct p as [|p']; [rewrite drop_0 in Hp; congruence|].
      rewrite skipn_cons in Hp.
      destruct (IH p' l Hp) as (k & l' & -> & Hk).
      exists (S k), l'. split; [reflexivity | lia].
Qed.

(** *** The loop of the annotator *)

Lemma anchor_textContent label n : anchor_for label n -> textContent n = marker label.
Proof.
  intros (key & id & ->). unfold marker. cbn [textContent concat app].
  reflexivity.
Qed.

Lemma textContents_app ns1 ns2 :
  textContents (ns1 ++ ns2) = textContents ns1 ++ textContents ns2.
Proof. unfold textContents. rewrite map_app, concat_app. reflexivity. Qed.

Lemma textContents_cons n ns : textContents (n :: ns) = textContent n ++ textContents ns.
Proof. reflexivity. Qed.

Lemma exec_some text li k l :
  li <= length text -> search (drop li text) = Some (k, l) ->
  exec text li
  = (Some {| index := li + k; group0 := marker l; group1 := l |},
     li + k + length (marker l)).
Proof.
  intros Hli Hs. unfold exec.
  destruct (length text <? li) eqn:E; [apply Nat.ltb_lt in E; lia|].
  rewrite Hs. reflexivity.
Qed.

Lemma exec_none text li :
  search (drop li text) = None -> fst (exec text li) = None.
Proof.
  intros Hs. unfold exec.
  destruct (length text <? li); [reflexivity|]. rewrite Hs. reflexivity.
Qed.

(** One turn of the loop on a match at offset [k] past [lastIndex]: the
    text in between becomes a span, the match an anchor, and the loop goes on
    behind the match. *)
Lemma loop_step fuel text li pi refs nodes k l :
  li <= length text -> search (drop li text) = Some (k, l) ->
  exists pi' refs' gap n,
    annotate_loop (S fuel) text li li pi refs nodes
    = annotate_loop fuel text (li + k + length (marker l))
                    (li + k + length (marker l)) pi' refs' (nodes ++ gap ++ [n])
    /\ textContents gap = take k (drop li text)
    /\ anchor_for l n.
Proof.
  intros Hli Hs. cbn [annotate_loop]. rewrite (exec_some text li k l Hli Hs).
  unfold annotate_match. cbn [index group1].
  destruct (li <? li + k) eqn:E.
  - eexists _, _, [span _ _], _. rewrite <- app_assoc.
    split; [reflexivity|]. split; [|eexists _, _; reflexivity].
    unfold textContents, slice. simpl. rewrite app_nil_r. f_equal. lia.
  - eexists _, _, [], _. split; [reflexivity|]. split; [|eexists _, _; reflexivity].
    apply Nat.ltb_ge in E. replace k with 0 by lia. reflexivity.
Qed.

Lemma loop_stop fuel text li pi refs nodes :
  search (drop li text) = None ->
  annotate_loop (S fuel) text li li pi refs nodes
  = Some (nodes ++ tail_nodes text li pi, refs).
Proof.
  intros Hs. cbn [annotate_loop]. pose proof (exec_none text li Hs) as He.
  destruct (exec text li) as [[m|] re]; [discriminate He|].
  unfold tail_nodes. destruct (li <? length text); [reflexivity|].
  rewrite app_nil_r. reflexivity.
Qed.

Lemma tail_nodes_text text li pi :
  textContents (tail_nodes text li pi) = drop li text.
Proof.
  unfold tail_nodes. destruct (li <? length text) eqn:E.
  - unfold textContents. simpl. apply app_nil_r.
  - apply Nat.ltb_ge in E. rewrite drop_ge by exact E. reflexivity.
Qed.

(** What a match found by [search] tells about the text behind
    [lastIndex]. *)
Lemma search_match text li k l :
  search (drop li text) = Some (k, l) ->
  is_label l
  /\ exists rest, drop (li + k) text = marker l ++ rest
                  /\ drop (li + k + length (marker l)) text = rest
                  /\ li + k + length (marker l) <= length text.
Proof.
  intros Hs. destruct (search_sound _ _ _ Hs) as [Hm _].
  destruct (match_here_sound _ _ Hm) as [Hl [rest Hrest]].
  rewrite drop_drop in Hrest. split; [exact Hl|]. exists rest.
  split; [exact Hrest|].
  assert (Hlen : length (drop (li + k) text) = length (marker l) + length rest)
    by (rewrite Hrest, length_app; reflexivity).
  rewrite length_drop in Hlen.
  split; [|pose proof (marker_length l); lia].
  rewrite <- drop_drop, Hrest. apply drop_app_length.
Qed.

(** The loop ends before the fuel does, and the text of the nodes it adds
    is the text from [lastIndex] on. *)
Lemma loop_total fuel :
  forall text li pi refs nodes,
    li <= length text -> length text - li < fuel ->
    exists out refs',
      annotate_loop fuel text li li pi refs nodes = Some (nodes ++ out, refs')
      /\ textContents out = drop li text.
Proof.
  induction fuel as [|fuel IH]; intros text li pi refs nodes Hli Hfuel; [lia|].
  destruct (search (drop li text)) as [[k l]|] eqn:Hs.
  - destruct (loop_step fuel text li pi refs nodes k l Hli Hs)
      as (pi' & refs' & gap & n & Hstep & Hgap & Hn).
    destruct (search_match text li k l Hs) as (Hl & rest & Hat & Hrest & Hle).
    pose proof (marker_length l) as Hml.
    destruct (IH text (li + k + length (marker l)) pi' refs' (nodes ++ gap ++ [n]))
      as (out & refs'' & Hloop & Hout); [exact Hle | lia |].
    exists (gap ++ n :: out), refs''. rewrite Hstep, Hloop.
    split; [f_equal; f_equal; rewrite <- !app_assoc; reflexivity|].
    rewrite textContents_app, textContents_cons, Hgap, Hout,
      (anchor_textContent l n Hn), Hrest, <- Hat, <- drop_drop.
    apply take_drop.
  - exists (tail_nodes text li pi), refs.
    split; [apply loop_stop, Hs | apply tail_nodes_text].
Qed.

(** A match that starts before an opening bracket ends before it: the
    code units of a marker after its first are no opening brackets. *)
Lemma match_ends_before_bracket (s : jsstring) (k p : nat) (l rest : jsstring) :
  is_label l -> drop k s = marker l ++ rest ->
  s !! p = Some LBRACKET -> k < p ->
  k + length (marker l) <= p.
Proof.
  intros Hl Hk Hp Hlt.
  destruct (decide (k + length (marker l) <= p)) as [|Hn]; [assumption|exfalso].
  assert (Hj : (marker l ++ rest) !! (p - k) = Some LBRACKET).
  { rewrite <- Hk, lookup_drop. replace (k + (p - k)) with p by lia. exact Hp. }
  rewrite lookup_app_l in Hj by lia.
  unfold marker in Hj. destruct (p - k) as [|j] eqn:Ej; [lia|].
  cbn [lookup list_lookup] in Hj.
  assert (Hall : Forall (fun x => x <> LBRACKET) (l ++ [RBRACKET])).
  { apply Forall_app. split; [apply is_label_no_bracket, Hl|].
    constructor; [discriminate | constructor]. }
  rewrite Forall_lookup in Hall. exact (Hall j _ Hj eq_refl).
Qed.

(** An occurrence of a marker at offset [length pre]: the loop, started at
    or before it, emits the text up to the occurrence, then the anchor of the
    marker, then the text behind it. *)
Lemma loop_occurrence fuel :
  forall text pre l post li pi refs nodes,
    text = pre ++ marker l ++ post -> is_label l ->
    li <= length pre -> length text - li < fuel ->
    exists before n after refs',
      annotate_loop fuel text li li pi refs nodes
      = Some (nodes ++ before ++ n :: after, refs')
      /\ textContents before = take (length pre - li) (drop li text)
      /\ anchor_for l n
      /\ textContents after = post.
Proof.
  induction fuel as [|fuel IH];
    intros text pre l post li pi refs nodes Htext Hl Hli Hfuel; [lia|].
  assert (Hlen : length text = length pre + length (marker l) + length post)
    by (rewrite Htext, !length_app; lia).
  assert (Hocc : drop (length pre) text = marker l ++ post)
    by (rewrite Htext; apply drop_app_length).
  assert (Hhere : match_here (drop (length pre - li) (drop li text)) = Some l).
  { rewrite drop_drop. replace (li + (length pre - li)) with (length pre) by lia.
    rewrite Hocc. apply match_here_complete, Hl. }
  destruct (search_complete _ _ _ Hhere) as (k & l' & Hs & Hk).
  destruct (loop_step fuel text li pi refs nodes k l' ltac:(lia) Hs)
    as (pi' & refs' & gap & n' & Hstep & Hgap & Hn').
  destruct (search_match text li k l' Hs) as (Hl' & rest & Hat & Hrest & Hle).
  pose proof (marker_length l') as Hml'.
  destruct (decide (k = length pre - li)) as [Ek | Ek].
  - (* the match found is the occurrence *)
    replace (li + k) with (length pre) in * by lia.
    assert (l' = l) as ->.
    { pose proof (match_here_complete l' rest Hl') as H1.
      rewrite <- Hat, Hocc, (match_here_complete l post Hl) in H1. congruence. }
    assert (rest = post) as ->
      by (rewrite Hocc in Hat; apply app_inv_head in Hat; congruence).
    destruct (loop_total fuel text (length pre + length (marker l)) pi' refs'
                (nodes ++ gap ++ [n'])) as (out & refs'' & Hloop & Hout);
      [lia | lia |].
    exists gap, n', out, refs''. rewrite Hstep, Hloop.
    split; [f_equal; f_equal; rewrite <- !app_assoc; reflexivity|].
    split; [rewrite Hgap, Ek; reflexivity|].
    split; [exact Hn' | rewrite Hout; exact Hrest].
  - (* the match found lies before the occurrence *)
    assert (Hend : li + k + length (marker l') <= length pre).
    { apply (match_ends_before_bracket text (li + k) (length pre) l' rest Hl' Hat);
        [|lia].
      rewrite Htext. apply list_lookup_middle. reflexivity. }
    destruct (IH text pre l post (li + k + length (marker l')) pi' refs'
                (nodes ++ gap ++ [n']) Htext Hl Hend ltac:(lia))
      as (before & n & after & refs'' & Hloop & Hbefore & Hn & Hafter).
    exists (gap ++ n' :: before), n, after, refs''. rewrite Hstep, Hloop.
    split; [f_equal; f_equal; rewrite <- !app_assoc; reflexivity|].
    split; [|split; assumption].
    rewrite textContents_app, textContents_cons, Hgap, Hbefore,
      (anchor_textContent l' n' Hn').
    replace (length pre - li)
      with (k + (length (marker l') + (length pre - (li + k + length (marker l')))))
      by lia.
    rewrite <- !take_take_drop, !drop_drop, Hat, take_app_length.
    reflexivity.
Qed.

(** ** Numbers of labels *)

Lemma digits_no_hyphen (d : jsstring) :
  Forall (fun c => is_digit c = true) d -> includes HYPHEN d = false.
Proof.
  unfold includes. induction 1 as [|c r Hc _ IH]; [reflexivity|].
  cbn [existsb]. rewrite IH, orb_false_r.
  apply N.eqb_neq. intros <-. discriminate Hc.
Qed.

Lemma split_head_digits (d rest : jsstring) :
  Forall (fun c => is_digit c = true) d ->
  head (split HYPHEN (d ++ HYPHEN :: rest)) = Some d.
Proof.
  induction 1 as [|c r Hc _ IH]; cbn [app split].
  - change (HYPHEN =? HYPHEN)%N with true. reflexivity.
  - destruct (c =? HYPHEN)%N eqn:E;
      [apply N.eqb_eq in E; subst c; discriminate Hc|].
    destruct (split HYPHEN (r ++ HYPHEN :: rest)) as [|p ps]; [discriminate IH|].
    injection IH as ->. reflexivity.
Qed.

(** The anchor of [n] targets the number of [n]; that of [m-k], the
    number of [m]. *)
Lemma anchorTarget_single (d : jsstring) : digits1 d -> anchorTarget_of d = Number d.
Proof.
  intros [_ Hd]. unfold anchorTarget_of. rewrite (digits_no_hyphen d Hd). reflexivity.
Qed.

Lemma anchorTarget_range (d1 d2 : jsstring) :
  digits1 d1 -> anchorTarget_of (d1 ++ HYPHEN :: d2) = Number d1.
Proof.
  intros [_ Hd]. unfold anchorTarget_of, includes.
  rewrite existsb_app. cbn [existsb]. change (HYPHEN =? HYPHEN)%N with true.
  rewrite orb_true_r. cbn [orb]. rewrite (split_head_digits d1 d2 Hd). reflexivity.
Qed.

Lemma digits_of_uint_digits (d : Decimal.uint) :
  forallb is_digit (digits_of_uint d) = true.
Proof. induction d; cbn [digits_of_uint forallb]; try rewrite IHd; reflexivity. Qed.

Lemma uint_of_digits_of_uint (d : Decimal.uint) : uint_of_digits (digits_of_uint d) = d.
Proof. induction d; cbn [digits_of_uint uint_of_digits]; try rewrite IHd; reflexivity. Qed.

Lemma decimal_not_empty (v : N) : decimal v <> [].
Proof.
  unfold decimal. intros H.
  assert (Hnil : N.to_uint v = Decimal.Nil)
    by (destruct (N.to_uint v); try discriminate H; reflexivity).
  pose proof (DecimalN.Unsigned.to_of (N.to_uint v)) as Hto.
  rewrite DecimalN.Unsigned.of_to, Hnil in Hto.
  exact (DecimalFacts.unorm_nonnil Decimal.Nil (eq_sym Hto)).
Qed.

Lemma decimal_value_decimal (v : N) : decimal_value (decimal v) = v.
Proof.
  unfold decimal_value, decimal. rewrite uint_of_digits_of_uint.
  apply DecimalN.Unsigned.of_to.
Qed.

Lemma decimal_digits1 (v : N) : digits1 (decimal v).
Proof.
  split; [apply decimal_not_empty|].
  apply Forall_forall. intros c Hc.
  pose proof (digits_of_uint_digits (N.to_uint v)) as H.
  rewrite forallb_forall in H. apply H, list_elem_of_In, Hc.
Qed.

(** Below [2^53] the number of a decimal numeral prints as the numeral. *)
Lemma ToString_Number_decimal (v : N) :
  (v < 2 ^ 53)%N -> ToString (Number (decimal v)) = decimal v.
Proof.
  intros Hv. unfold Number.
  rewrite (digits_of_uint_digits (N.to_uint v) : forallb is_digit (decimal v) = true).
  destruct (truthy (decimal v)) eqn:Ht;
    [|apply truthy_false in Ht; destruct (decimal_not_empty v Ht)].
  cbn [andb]. rewrite decimal_value_decimal.
  unfold round_to_double. apply N.ltb_lt in Hv. rewrite Hv.
  unfold ToString, shortest. rewrite Hv.
  apply N.ltb_lt in Hv.
  assert (H21 : (v <? 10 ^ 21)%N = true).
  { apply N.ltb_lt. eapply N.lt_trans; [exact Hv|]. reflexivity. }
  rewrite H21. reflexivity.
Qed.

(** ** The annotator *)

(** The fuel that [renderContentWithReferences] gives its loop is enough. *)
Lemma render_returns (text : jsstring) (refs : RefStore) :
  exists nodes refs',
    renderContentWithReferences text refs = Some (nodes, refs')
    /\ textContents nodes = drop 0 text.
Proof.
  unfold renderContentWithReferences.
  destruct (loop_total (S (length text)) text 0 0 refs []) as (out & refs' & H & Hout);
    [lia | lia |].
  exists out, refs'. split; [exact H | exact Hout].
Qed.

(** C6. [renderContentWithReferences] returns, and the displayed texts of
    its nodes, spans and anchors alike, concatenate to the input text. *)
Theorem annotation_preserves_text (text : jsstring) (refs : RefStore) :
  exists nodes refs',
    renderContentWithReferences text refs = Some (nodes, refs')
    /\ textContents nodes = text.
Proof.
  destruct (render_returns text refs) as (nodes & refs' & H & Hout).
  exists nodes, refs'. split; [exact H | exact Hout].
Qed.

Lemma search_none_no_reference (text : jsstring) :
  search text = None <-> ~ contains_reference text.
Proof.
  split.
  - intros Hs (pre & m & post & -> & Hm).
    apply matches_referencePattern in Hm as (l & Hl & ->).
    destruct (search_complete (pre ++ marker l ++ post) (length pre) l)
      as (k & l' & Hk & _); [|congruence].
    rewrite drop_app_length. apply match_here_complete, Hl.
  - intros Hno. destruct (search text) as [[k l]|] eqn:Hs; [|reflexivity].
    exfalso. apply Hno.
    destruct (search_sound _ _ _ Hs) as [Hm _].
    destruct (match_here_sound _ _ Hm) as [Hl [rest Hrest]].
    exists (take k text), (marker l), rest.
    split; [rewrite <- Hrest; symmetry; apply take_drop|].
    apply matches_referencePattern. exists l. split; [exact Hl | reflexivity].
Qed.

(** C5. On a text with no substring that the reference pattern matches,
    [renderContentWithReferences] returns the text as it is: one span that
    holds the whole text (no node at all for the empty text), no anchor, and
    the stores untouched. *)
Theorem no_reference_returns_text (text : jsstring) (refs : RefStore) :
  ~ contains_reference text ->
  renderContentWithReferences text refs
  = Some (match text with
          | [] => []
          | _ => [span (lit "text-0") text]
          end, refs).
Proof.
  intros Hno. apply search_none_no_reference in Hno.
  unfold renderContentWithReferences.
  rewrite (loop_stop (length text) text 0 0 refs []) by exact Hno.
  unfold tail_nodes. destruct text; reflexivity.
Qed.

Lemma no_reference_returns_text_witness :
  renderContentWithReferences (lit "see [a], [] and [1-]") empty_refs
  = Some ([span (lit "text-0") (lit "see [a], [] and [1-]")], empty_refs).
Proof.
  apply (no_reference_returns_text (lit "see [a], [] and [1-]") empty_refs).
  apply search_none_no_reference. vm_compute. reflexivity.
Defined.

(** *** The anchor of an occurrence *)

Lemma render_occurrence (pre l post : jsstring) (refs : RefStore) :
  is_label l ->
  exists before key id after refs',
    renderContentWithReferences (pre ++ marker l ++ post) refs
    = Some (before
              ++ a key id (href_of l) anchorClassName [[LBRACKET]; l; [RBRACKET]]
              :: after, refs')
    /\ textContents before = pre
    /\ textContents after = post.
Proof.
  intros Hl. unfold renderContentWithReferences.
  destruct (loop_occurrence (S (length (pre ++ marker l ++ post)))
              (pre ++ marker l ++ post) pre l post 0 0 refs [] eq_refl Hl)
    as (before & n & after & refs' & H & Hbefore & (key & id & ->) & Hafter);
    [lia | lia |].
  exists before, key, id, after, refs'.
  split; [exact H|]. split; [|exact Hafter].
  rewrite Hbefore, Nat.sub_0_r, drop_0. apply take_app_length.
Qed.

(** C2, as the code has it. Every occurrence of a marker [[n]], [n] a
    non-empty string of digits, in any text, is rendered as one anchor that
    displays [[n]], between nodes that display the text before and the text
    after the occurrence. Its href is [#reference-] followed by the string of
    the number of [n]; when [n] is the decimal numeral of a number below
    [2^53], without leading zeros, that is [#reference-n]. *)
Theorem reference_marker_anchor (pre n post : jsstring) (refs : RefStore) :
  digits1 n ->
  exists before key id href after refs',
    renderContentWithReferences (pre ++ marker n ++ post) refs
    = Some (before ++ a key id href anchorClassName [[LBRACKET]; n; [RBRACKET]]
              :: after, refs')
    /\ textContents before = pre
    /\ textContents after = post
    /\ href = lit "#reference-" ++ ToString (Number n)
    /\ (forall v, (v < 2 ^ 53)%N -> n = decimal v -> href = lit "#reference-" ++ n).
Proof.
  intros Hn.
  destruct (render_occurrence pre n post refs (label_single n Hn))
    as (before & key & id & after & refs' & H & Hb & Ha).
  exists before, key, id, (href_of n), after, refs'.
  split; [exact H|]. split; [exact Hb|]. split; [exact Ha|].
  unfold href_of. rewrite (anchorTarget_single n Hn).
  split; [reflexivity|].
  intros v Hv ->. rewrite (ToString_Number_decimal v Hv). reflexivity.
Qed.

Lemma reference_marker_anchor_witness :
  exists before key id after refs',
    renderContentWithReferences (lit "as in [12], where") empty_refs
    = Some (before ++ a key id (lit "#reference-12") anchorClassName
                        [[LBRACKET]; lit "12"; [RBRACKET]] :: after, refs')
    /\ textContents before = lit "as in "
    /\ textContents after = lit ", where".
Proof.
  assert (Hn : digits1 (lit "12"))
    by (split; [discriminate | repeat constructor]).
  destruct (reference_marker_anchor (lit "as in ") (lit "12") (lit ", where")
              empty_refs Hn)
    as (before & key & id & href & after & refs' & H & Hb & Ha & _ & Hcanon).
  rewrite (Hcanon 12%N eq_refl eq_refl) in H.
  exists before, key, id, after, refs'. repeat split; assumption.
Defined.

(** C2 as stated fails on a marker with leading zeros, and on a marker
    whose number is no double: [[007]] displays [[007]] and links to
    [#reference-7], and [[9007199254740993]] links to
    [#reference-9007199254740992]. *)
Lemma reference_href_is_of_the_number :
  fst <$> renderContentWithReferences (lit "[007]") empty_refs
  = Some [a (lit "ref-0") (lit "ref-link-7-0") (lit "#reference-7") anchorClassName
            [[LBRACKET]; lit "007"; [RBRACKET]]]
  /\ lit "#reference-7" <> lit "#reference-007"
  /\ fst <$> renderContentWithReferences (lit "[9007199254740993]") empty_refs
     = Some [a (lit "ref-0") (lit "ref-link-9007199254740992-0")
               (lit "#reference-9007199254740992") anchorClassName
               [[LBRACKET]; lit "9007199254740993"; [RBRACKET]]]
  /\ lit "#reference-9007199254740992" <> lit "#reference-9007199254740993".
Proof.
  split; [vm_compute; reflexivity|]. split; [discriminate|].
  split; [vm_compute; reflexivity | discriminate].
Qed.

(** C9, as the code has it. Every occurrence of a range marker [[m-k]], [m]
    and [k] non-empty strings of digits, in any text, is rendered as one
    anchor that displays the whole marker, between nodes that display the
    text before and the text after the occurrence. Its href is [#reference-]
    followed by the string of the number of [m]; when [m] is the decimal
    numeral of a number below [2^53], without leading zeros, that is
    [#reference-m]. *)
Theorem range_marker_anchor (pre m k post : jsstring) (refs : RefStore) :
  digits1 m -> digits1 k ->
  exists before key id href after refs',
    renderContentWithReferences (pre ++ marker (m ++ HYPHEN :: k) ++ post) refs
    = Some (before ++ a key id href anchorClassName
                        [[LBRACKET]; m ++ HYPHEN :: k; [RBRACKET]]
              :: after, refs')
    /\ textContents before = pre
    /\ textContents after = post
    /\ href = lit "#reference-" ++ ToString (Number m)
    /\ (forall v, (v < 2 ^ 53)%N -> m = decimal v -> href = lit "#reference-" ++ m).
Proof.
  intros Hm Hk.
  destruct (render_occurrence pre (m ++ HYPHEN :: k) post refs (label_range m k Hm Hk))
    as (before & key & id & after & refs' & H & Hb & Ha).
  exists before, key, id, (href_of (m ++ HYPHEN :: k)), after, refs'.
  split; [exact H|]. split; [exact Hb|]. split; [exact Ha|].
  unfold href_of. rewrite (anchorTarget_range m k Hm).
  split; [reflexivity|].
  intros v Hv ->. rewrite (ToString_Number_decimal v Hv). reflexivity.
Qed.

Lemma range_marker_anchor_witness :
  exists before key id after refs',
    renderContentWithReferences (lit "see [2-5].") empty_refs
    = Some (before ++ a key id (lit "#reference-2") anchorClassName
                        [[LBRACKET]; lit "2-5"; [RBRACKET]] :: after, refs')
    /\ textContents before = lit "see "
    /\ textContents after = lit ".".
Proof.
  assert (Hm : digits1 (lit "2")) by (split; [discriminate | repeat constructor]).
  assert (Hk : digits1 (lit "5")) by (split; [discriminate | repeat constructor]).
  destruct (range_marker_anchor (lit "see ") (lit "2") (lit "5") (lit ".")
              empty_refs Hm Hk)
    as (before & key & id & href & after & refs' & H & Hb & Ha & _ & Hcanon).
  rewrite (Hcanon 2%N eq_refl eq_refl) in H.
  exists before, key, id, after, refs'. repeat split; assumption.
Defined.

(** C9 as stated fails on a range whose first number has leading zeros or
    is no double: [[01-3]] links to [#reference-1], and
    [[18014398509481985-6]] links to [#reference-18014398509481984]. *)
Lemma range_href_is_of_the_number :
  fst <$> renderContentWithReferences (lit "[01-3]") empty_refs
  = Some [a (lit "ref-0") (lit "ref-link-1-0") (lit "#reference-1") anchorClassName
            [[LBRACKET]; lit "01-3"; [RBRACKET]]]
  /\ lit "#reference-1" <> lit "#reference-01"
  /\ fst <$> renderContentWithReferences (lit "[18014398509481985-6]") empty_refs
     = Some [a (lit "ref-0") (lit "ref-link-18014398509481984-0")
               (lit "#reference-18014398509481984") anchorClassName
               [[LBRACKET]; lit "18014398509481985-6"; [RBRACKET]]]
  /\ lit "#reference-18014398509481984" <> lit "#reference-18014398509481985".
Proof.
  split; [vm_compute; reflexivity|]. split; [discriminate|].
  split; [vm_compute; reflexivity | discriminate].
Qed.

(** *** What the output owes to the stores *)

Lemma annotate_match_erase text m li pi refs1 refs2 nodes1 nodes2 :
  map erase_id nodes1 = map erase_id nodes2 ->
  (annotate_match text m li pi refs1 nodes1).1.1
  = (annotate_match text m li pi refs2 nodes2).1.1
  /\ map erase_id (annotate_match text m li pi refs1 nodes1).2
     = map erase_id (annotate_match text m li pi refs2 nodes2).2.
Proof.
  intros Hn. unfold annotate_match.
  destruct (li <? index m); cbn [fst snd]; (split; [reflexivity|]);
    rewrite !map_app, Hn; reflexivity.
Qed.

Lemma loop_erase fuel :
  forall text re li pi refs1 refs2 nodes1 nodes2,
    map erase_id nodes1 = map erase_id nodes2 ->
    (map erase_id ∘ fst) <$> annotate_loop fuel text re li pi refs1 nodes1
    = (map erase_id ∘ fst) <$> annotate_loop fuel text re li pi refs2 nodes2.
Proof.
  induction fuel as [|fuel IH]; intros text re li pi refs1 refs2 nodes1 nodes2 Hn;
    [reflexivity|].
  cbn [annotate_loop]. destruct (exec text re) as [[m|] re'].
  - destruct (annotate_match_erase text m li pi refs1 refs2 nodes1 nodes2 Hn)
      as [Hpi Hnodes].
    destruct (annotate_match text m li pi refs1 nodes1) as [[pi1 refs1'] nodes1'].
    destruct (annotate_match text m li pi refs2 nodes2) as [[pi2 refs2'] nodes2'].
    cbn [fst snd] in Hpi, Hnodes. subst pi2. apply IH, Hnodes.
  - destruct (li <? length text); cbn; rewrite ?map_app, Hn; reflexivity.
Qed.

(** C3, as the code has it. On any two stores of reference occurrences,
    [renderContentWithReferences] returns on the same text the same sequence
    of nodes but for the element ids of the anchors: the same spans and
    anchors in the same order, with the same keys, hrefs, class and
    displayed text. *)
Theorem annotation_deterministic_up_to_ids (text : jsstring) (refs1 refs2 : RefStore) :
  exists nodes1 refs1' nodes2 refs2',
    renderContentWithReferences text refs1 = Some (nodes1, refs1')
    /\ renderContentWithReferences text refs2 = Some (nodes2, refs2')
    /\ map erase_id nodes1 = map erase_id nodes2.
Proof.
  destruct (render_returns text refs1) as (nodes1 & refs1' & H1 & _).
  destruct (render_returns text refs2) as (nodes2 & refs2' & H2 & _).
  exists nodes1, refs1', nodes2, refs2'. split; [exact H1|]. split; [exact H2|].
  pose proof (loop_erase (S (length text)) text 0 0 0 refs1 refs2 [] [] eq_refl) as H.
  unfold renderContentWithReferences in H1, H2. rewrite H1, H2 in H.
  cbn in H. congruence.
Qed.

(** C3 as stated fails: the store of occurrences outlives a call, so a
    second call on the same text numbers its anchor ids from where the first
    call stopped. *)
Lemma anchor_ids_depend_on_earlier_calls :
  fst <$> renderContentWithReferences (lit "[1]") empty_refs
  = Some [a (lit "ref-0") (lit "ref-link-1-0") (lit "#reference-1") anchorClassName
            [[LBRACKET]; lit "1"; [RBRACKET]]]
  /\ fst <$> (renderContentWithReferences (lit "[1]") empty_refs
              ≫= fun r => renderContentWithReferences (lit "[1]") r.2)
     = Some [a (lit "ref-0") (lit "ref-link-1-1") (lit "#reference-1") anchorClassName
               [[LBRACKET]; lit "1"; [RBRACKET]]]
  /\ fst <$> renderContentWithReferences (lit "[1]") empty_refs
     <> fst <$> (renderContentWithReferences (lit "[1]") empty_refs
                 ≫= fun r => renderContentWithReferences (lit "[1]") r.2).
Proof.
  split; [vm_compute; reflexivity|]. split; [vm_compute; reflexivity|].
  vm_compute. discriminate.
Qed.

(** * Further properties *)

(** ** White-space normalization *)

(** X1. Normalization, the expression [.replace(/\s+/g, " ").trim()] of the
    selection handler and of both sanitizers, keeps the words of a text in
    order, puts one space between two of them and drops the white space
    around them. *)
Theorem normalization_keeps_words (lead w : jsstring)
    (rest : list (jsstring * jsstring)) (trail : jsstring) :
  blank lead -> word w -> Forall gap_word rest -> blank trail ->
  normalize_ws (lead ++ spaced w rest ++ trail) = join_words w (map snd rest).
Proof. apply normalize_ws_words. Qed.

Lemma normalization_keeps_words_witness :
  normalize_ws ([9%N; 32%N] ++ spaced (lit "proof")
                  [([32%N; 10%N], lit "of"); ([160%N], lit "work")] ++ [10%N])
  = lit "proof of work".
Proof.
  apply (normalization_keeps_words [9%N; 32%N] (lit "proof")
           [([32%N; 10%N], lit "of"); ([160%N], lit "work")] [10%N]).
  - repeat constructor.
  - split; [discriminate | repeat constructor].
  - repeat constructor; discriminate.
  - repeat constructor.
Defined.

Lemma join_words_spaced (w : jsstring) (ws : list jsstring) :
  join_words w ws = spaced w (map (fun w' => ([SPACE], w')) ws).
Proof.
  revert w. induction ws as [|w' r IH]; intros w; [reflexivity|].
  cbn [join_words map spaced]. rewrite IH. reflexivity.
Qed.

Lemma normalize_ws_join (w : jsstring) (ws : list jsstring) :
  word w -> Forall word ws -> normalize_ws (join_words w ws) = join_words w ws.
Proof.
  intros Hw Hws. rewrite join_words_spaced.
  pose proof (normalize_ws_words [] w (map (fun w' => ([SPACE], w')) ws) []) as H.
  cbn [app] in H. rewrite app_nil_r in H. rewrite H.
  - rewrite map_map. cbn [snd]. rewrite map_id. apply join_words_spaced.
  - constructor.
  - exact Hw.
  - apply Forall_fmap. eapply Forall_impl; [exact Hws|].
    intros w' Hw'. split; [repeat constructor|]. split; [discriminate | exact Hw'].
  - constructor.
Qed.

Lemma normalize_ws_fixed (s : jsstring) : normalize_ws (normalize_ws s) = normalize_ws s.
Proof.
  destruct (words_of_text s) as [Hb | (lead & w & rest & trail & -> & Hl & Hw & Hr & Ht)].
  - rewrite (normalize_ws_spaces s Hb). reflexivity.
  - rewrite (normalize_ws_words lead w rest trail Hl Hw Hr Ht).
    apply normalize_ws_join; [exact Hw|].
    apply Forall_fmap. eapply Forall_impl; [exact Hr|].
    intros [g w'] (_ & _ & H). exact H.
Qed.

(** ** What the sanitizers return *)

Lemma tidy_replace_runs (b : bool) (s : jsstring) : tidy b (replace_runs b s) = true.
Proof.
  revert b. induction s as [|c r IH]; intros b; [reflexivity|].
  cbn [replace_runs]. destruct (is_space c) eqn:Hc.
  - destruct b; [apply IH|].
    cbn [tidy]. change (is_space SPACE) with true. cbv iota.
    rewrite N.eqb_refl. cbn [andb negb]. apply IH.
  - cbn [tidy]. rewrite Hc. apply IH.
Qed.

Lemma tidy_no_leading_space (s : jsstring) : tidy true s = true -> trimStart s = s.
Proof.
  destruct s as [|c r]; [reflexivity|]. cbn [tidy trimStart].
  destruct (is_space c); [|reflexivity].
  rewrite andb_false_r. discriminate.
Qed.

Lemma tidy_trimStart (s : jsstring) : tidy false s = true -> tidy true (trimStart s) = true.
Proof.
  destruct s as [|c r]; [reflexivity|]. cbn [tidy trimStart].
  destruct (is_space c) eqn:Hc.
  - intros H. apply andb_true_iff in H as [_ H].
    rewrite (tidy_no_leading_space r H). exact H.
  - intros H. cbn [tidy]. rewrite Hc. exact H.
Qed.

Lemma tidy_take (n : nat) (s : jsstring) :
  forall b, tidy b s = true -> tidy b (take n s) = true.
Proof.
  revert n. induction s as [|c r IH]; intros [|n] b H; try reflexivity.
  cbn [take tidy] in *. destruct (is_space c).
  - apply andb_true_iff in H as [H1 H2]. rewrite H1. apply IH, H2.
  - apply IH, H.
Qed.

Lemma trimStart_drop (s : jsstring) : exists k, trimStart s = drop k s.
Proof.
  induction s as [|c r [k IH]]; [exists 0; reflexivity|].
  cbn [trimStart]. destruct (is_space c); [exists (S k); exact IH | exists 0; reflexivity].
Qed.

Lemma trimEnd_take (s : jsstring) : exists n, trimEnd s = take n s.
Proof.
  unfold trimEnd. destruct (trimStart_drop (reverse s)) as [k ->].
  rewrite reverse_drop, reverse_involutive. eexists. reflexivity.
Qed.

Lemma tidy_normalize_ws (s : jsstring) : tidy true (normalize_ws s) = true.
Proof.
  unfold normalize_ws, trim, replace_ws.
  destruct (trimEnd_take (trimStart (replace_runs false s))) as [n ->].
  apply tidy_take, tidy_trimStart, tidy_replace_runs.
Qed.

Lemma tidy_truncate (n : nat) (s : jsstring) :
  tidy true s = true -> tidy true (truncate n s) = true.
Proof.
  intros H. unfold truncate. destruct (n <? length s); [apply tidy_take|]; exact H.
Qed.

(** X3. What [sanitizeQuote] returns, on the page and in the image route,
    is a single line with tidy white space: every white-space code unit of
    it is a space (U+0020), it does not begin with one and no two are
    adjacent. *)
Theorem sanitizeQuote_tidy :
  (forall raw, exists q,
      QuoteSharePage.sanitizeQuote raw = Normal q /\ tidy true q = true)
  /\ (forall value, exists q,
        OpengraphQuoteRoute.sanitizeQuote value = Normal q /\ tidy true q = true).
Proof.
  split.
  - intros raw. destruct (QuoteSharePage.value_of raw) as [v|] eqn:Hv.
    + eexists. split; [apply (page_sanitizeQuote_eq raw v Hv)|].
      apply tidy_truncate, tidy_normalize_ws.
    + destruct raw as [|s|[|s l]]; try discriminate Hv.
      * exists []. split; reflexivity.
      * exists (lit "undefined"). split; vm_compute; reflexivity.
  - intros [v|].
    + eexists. split; [apply route_sanitizeQuote_eq|].
      apply tidy_truncate, tidy_normalize_ws.
    + exists []. split; reflexivity.
Qed.

(** [decodeURIComponent] leaves a string without percent sign as it is. *)
Lemma Decode_no_percent (s : jsstring) :
  Forall (fun c => c <> ES.PERCENT) s -> ES.Decode 0 s = Normal s.
Proof.
  induction 1 as [|c r Hc _ IH]; [reflexivity|].
  cbn [ES.Decode]. destruct (c =? ES.PERCENT)%N eqn:E;
    [apply N.eqb_eq in E; contradiction|].
  rewrite IH. reflexivity.
Qed.

(** X4. A normalized quote of at most 280 code units that holds no percent
    sign passes through [sanitizeQuote] unchanged, on the page and in the
    image route. *)
Theorem sanitizeQuote_fixes_plain_quotes (q : jsstring) :
  normalize_ws q = q -> Forall (fun c => c <> ES.PERCENT) q -> length q <= 280 ->
  QuoteSharePage.sanitizeQuote (Single q) = Normal q
  /\ OpengraphQuoteRoute.sanitizeQuote (Some q) = Normal q.
Proof.
  intros Hn Hp Hlen.
  assert (H : truncate 280 (normalize_ws (decoded_or_raw q)) = q).
  { unfold decoded_or_raw, ES.decodeURIComponent. rewrite (Decode_no_percent q Hp), Hn.
    unfold truncate. destruct (280 <? length q) eqn:E; [|reflexivity].
    apply Nat.ltb_lt in E. lia. }
  split.
  - rewrite (page_sanitizeQuote_eq (Single q) q eq_refl), H. reflexivity.
  - rewrite route_sanitizeQuote_eq, H. reflexivity.
Qed.

Lemma sanitizeQuote_fixes_plain_quotes_witness :
  QuoteSharePage.sanitizeQuote (Single (lit "proof of work"))
  = Normal (lit "proof of work")
  /\ OpengraphQuoteRoute.sanitizeQuote (Some (lit "proof of work"))
     = Normal (lit "proof of work").
Proof.
  apply (sanitizeQuote_fixes_plain_quotes (lit "proof of work")).
  - reflexivity.
  - repeat constructor; discriminate.
  - vm_compute. lia.
Defined.

(** X5. The image always shows a quote: [displayQuote] of the route's [GET]
    is never empty and has at most 280 code units, since an empty sanitized
    quote gives way to the default sentence. *)
Theorem displayQuote_bounds (text : option jsstring) :
  exists q,
    OpengraphQuoteRoute.displayQuote text = Normal q
    /\ 1 <= length q <= 280
    /\ (q = OpengraphQuoteRoute.default_quote
        \/ exists v, text = Some v /\ q = truncate 280 (normalize_ws (decoded_or_raw v))).
Proof.
  unfold OpengraphQuoteRoute.displayQuote.
  destruct text as [v|].
  - rewrite route_sanitizeQuote_eq.
    destruct (truncate 280 (normalize_ws (decoded_or_raw v))) as [|c r] eqn:E.
    + exists OpengraphQuoteRoute.default_quote. split; [reflexivity|].
      split; [split; apply Nat.leb_le; vm_compute; reflexivity | left; reflexivity].
    + exists (c :: r). split; [reflexivity|].
      split; [|right; exists v; split; [reflexivity | symmetry; exact E]].
      pose proof (truncate_length 280 (normalize_ws (decoded_or_raw v))) as Hl.
      rewrite E in Hl. cbn [length] in *. lia.
  - exists OpengraphQuoteRoute.default_quote. split; [reflexivity|].
    split; [split; apply Nat.leb_le; vm_compute; reflexivity | left; reflexivity].
Qed.

(** ** The selection handler and the quote menu *)

Lemma trimStart_nil_blank (s : jsstring) : trimStart s = [] -> blank s.
Proof.
  induction s as [|c r IH]; [constructor|]. cbn [trimStart].
  destruct (is_space c) eqn:Hc; [|discriminate].
  intros H. constructor; [exact Hc | apply IH, H].
Qed.

Lemma trimStart_blank_inv (s : jsstring) : blank (trimStart s) -> blank s.
Proof.
  induction s as [|c r IH]; [constructor|]. cbn [trimStart].
  destruct (is_space c) eqn:Hc; [|tauto].
  intros H. constructor; [exact Hc | apply IH, H].
Qed.

Lemma trim_nil_blank (s : jsstring) : trim s = [] -> blank s.
Proof.
  unfold trim, trimEnd. intros H.
  apply trimStart_blank_inv. unfold blank. rewrite <- Forall_reverse.
  apply trimStart_nil_blank.
  rewrite <- (reverse_involutive (trimStart (reverse (trimStart s)))), H.
  reflexivity.
Qed.

(** A text whose trimmed form is empty normalizes to the empty text, and
    the other way round. *)
Lemma truthy_trim_normalize (s : jsstring) :
  truthy (trim s) = truthy (normalize_ws s).
Proof.
  destruct (truthy (trim s)) eqn:Ht.
  - destruct (words_of_text s) as [Hb | (lead & w & rest & trail & -> & Hl & Hw & Hr & Ht')].
    + exfalso. unfold trim in Ht. rewrite <- (app_nil_r s) in Ht.
      rewrite trimStart_blank in Ht by exact Hb. discriminate Ht.
    + rewrite (normalize_ws_words lead w rest trail Hl Hw Hr Ht').
      destruct Hw as [Hne _]. destruct w; [contradiction|].
      destruct (map snd rest); reflexivity.
  - apply truthy_false, trim_nil_blank in Ht.
    rewrite (normalize_ws_spaces s Ht). reflexivity.
Qed.

(** X6. [handleSelection] leaves the quote state as it is when there is no
    selection, when the selection is collapsed, when its text is white space
    only, or when it lies outside the content element. *)
Theorem handleSelection_ignores (w : Window) (contentRef : option (Element -> bool))
    (st : QuoteState) :
  not_captured w contentRef -> handleSelection w contentRef st = st.
Proof.
  unfold not_captured, handleSelection.
  destruct (getSelection w) as [sel|]; [|reflexivity].
  intros [Hc | [Hb | Ho]].
  - rewrite Hc. reflexivity.
  - rewrite (normalize_ws_spaces _ Hb). destruct (isCollapsed sel); reflexivity.
  - rewrite Ho. destruct (isCollapsed sel); [reflexivity|].
    destruct (negb (truthy _)); reflexivity.
Qed.

Lemma handleSelection_ignores_witness :
  handleSelection (sample_window sample_text) (Some (fun e => Nat.eqb e 8))
                  sample_quote_state
  = sample_quote_state.
Proof.
  apply handleSelection_ignores. right. right. reflexivity.
Defined.

(** The state after a captured selection. *)
Lemma handleSelection_captured w contentRef st selection :
  captured w contentRef selection ->
  exists pos,
    handleSelection w contentRef st
    = {| showQuoteMenu := true;
         quoteText := truncate 280 (normalize_ws (selection_toString selection));
         quoteWarning :=
           if 280 <? length (normalize_ws (selection_toString selection))
           then Some truncation_warning
           else if length (normalize_ws (selection_toString selection)) <? 16
                then Some minimum_warning else None;
         quoteMenuPosition := Some pos |}.
Proof.
  intros (Hsel & Hc & Hne & Hin). unfold handleSelection.
  rewrite Hsel, Hc.
  destruct (truthy (normalize_ws (selection_toString selection))) eqn:Ht;
    [|apply truthy_false in Ht; contradiction].
  cbn [negb]. rewrite Hin.
  unfold MAX_QUOTE_LENGTH, MIN_QUOTE_LENGTH, truncate. rewrite slice_from_start.
  eexists.
  destruct (280 <? length _); [|destruct (length _ <? 16)]; reflexivity.
Qed.

(** *** The stored quote and the sanitizers' normalization *)

Lemma tidy_true_false (s : jsstring) : tidy true s = true -> tidy false s = true.
Proof.
  destruct s as [|c r]; [reflexivity|]. cbn [tidy].
  destruct (is_space c); [|auto]. rewrite andb_false_r. discriminate.
Qed.

Lemma tidy_replace_runs_fixed (s : jsstring) :
  forall b, tidy b s = true -> replace_runs b s = s.
Proof.
  induction s as [|c r IH]; intros b H; [reflexivity|].
  cbn [tidy replace_runs] in *. destruct (is_space c).
  - apply andb_true_iff in H as [H Hr]. apply andb_true_iff in H as [Hc Hb].
    apply N.eqb_eq in Hc. apply negb_true_iff in Hb. subst b c.
    rewrite (IH true Hr). reflexivity.
  - rewrite (IH false H). reflexivity.
Qed.

Lemma trimEnd_snoc (s : jsstring) (c : N) :
  trimEnd (s ++ [c]) = if is_space c then trimEnd s else s ++ [c].
Proof.
  unfold trimEnd. rewrite reverse_app. cbn [reverse app trimStart].
  change (reverse [c]) with [c]. cbn [app trimStart].
  destruct (is_space c); [reflexivity|].
  change (c :: reverse s) with ([c] ++ reverse s).
  rewrite reverse_app, reverse_involutive. reflexivity.
Qed.

(** In a tidy text a space at the end is a single U+0020 after a code unit
    that is not white space. *)
Lemma tidy_snoc_space (s : jsstring) (c : N) :
  forall b, tidy b (s ++ [c]) = true -> is_space c = true ->
    c = SPACE
    /\ ((s = [] /\ b = false) \/ exists r d, s = r ++ [d] /\ is_space d = false).
Proof.
  induction s as [|x r IH]; intros b H Hc.
  - cbn [app tidy] in H. rewrite Hc in H.
    apply andb_true_iff in H as [H _]. apply andb_true_iff in H as [Hx Hb].
    apply N.eqb_eq in Hx. apply negb_true_iff in Hb. auto.
  - cbn [app tidy] in H. destruct (is_space x) eqn:Hx.
    + apply andb_true_iff in H as [_ H].
      destruct (IH true H Hc) as [-> [[_ E] | (r' & d & -> & Hd)]]; [discriminate E|].
      split; [reflexivity|]. right. exists (x :: r'), d. split; [reflexivity | exact Hd].
    + destruct (IH false H Hc) as [-> [[-> _] | (r' & d & -> & Hd)]].
      * split; [reflexivity|]. right. exists [], x. split; [reflexivity | exact Hx].
      * split; [reflexivity|]. right. exists (x :: r'), d. split; [reflexivity | exact Hd].
Qed.

Lemma tidy_trimEnd (s : jsstring) :
  tidy true s = true -> trimEnd s = s \/ s = trimEnd s ++ [SPACE].
Proof.
  intros H. induction s as [|c r _] using rev_ind; [left; reflexivity|].
  rewrite trimEnd_snoc. destruct (is_space c) eqn:Hc; [|left; reflexivity].
  destruct (tidy_snoc_space r c true H Hc) as [-> [[_ E] | (r' & d & -> & Hd)]];
    [discriminate E|].
  right. rewrite trimEnd_snoc, Hd. reflexivity.
Qed.

Lemma tidy_normalize_ws_cases (s : jsstring) :
  tidy true s = true -> normalize_ws s = s \/ s = normalize_ws s ++ [SPACE].
Proof.
  intros H. unfold normalize_ws, replace_ws, trim.
  rewrite (tidy_replace_runs_fixed s false (tidy_true_false s H)).
  rewrite (tidy_no_leading_space s H). apply tidy_trimEnd, H.
Qed.

(** X2. Normalizing twice is normalizing once.  The quote that
    [handleSelection] stores is therefore left as it is by the sanitizers'
    normalization when the normalized selection has at most 280 code units;
    when it has more, the first 280 are stored, and normalizing them again
    returns them or, when the cut fell after a space, returns them without
    that space. *)
Theorem normalize_ws_idempotent :
  (forall s, normalize_ws (normalize_ws s) = normalize_ws s)
  /\ forall (w : Window) (contentRef : option (Element -> bool)) (st : QuoteState)
            (selection : Selection),
       captured w contentRef selection ->
       let text := normalize_ws (selection_toString selection) in
       let q := quoteText (handleSelection w contentRef st) in
       (length text <= 280 -> q = text /\ normalize_ws q = q)
       /\ (280 < length text ->
           q = take 280 text
           /\ (normalize_ws q = q \/ q = normalize_ws q ++ [SPACE])).
Proof.
  split; [apply normalize_ws_fixed|].
  intros w contentRef st selection Hcap text q. subst q.
  destruct (handleSelection_captured w contentRef st selection Hcap) as (pos & ->).
  quote_fields. fold text. unfold truncate. split.
  - intros Hle. apply Nat.ltb_ge in Hle. rewrite Hle.
    split; [reflexivity | apply normalize_ws_fixed].
  - intros Hlt. apply Nat.ltb_lt in Hlt. rewrite Hlt. split; [reflexivity|].
    apply tidy_normalize_ws_cases, tidy_take, tidy_normalize_ws.
Qed.

Lemma normalize_ws_idempotent_witness :
  quoteText (handleSelection (sample_window text_cut_at_space) content_element
               initial_quote_state)
  = replicate 279 97%N ++ [SPACE]
  /\ normalize_ws (replicate 279 97%N ++ [SPACE]) = replicate 279 97%N.
Proof.
  assert (Hcap : captured (sample_window text_cut_at_space) content_element
                   (sample_selection text_cut_at_space)).
  { split; [reflexivity|]. split; [reflexivity|].
    split; [vm_compute; discriminate | reflexivity]. }
  destruct (proj2 normalize_ws_idempotent _ _ initial_quote_state _ Hcap) as [_ Hcut].
  destruct Hcut as [Hq _]; [vm_compute; lia|].
  split; [rewrite Hq|]; vm_compute; reflexivity.
Defined.

(** X7. After a captured selection the quote menu is rendered, the quote
    has between 1 and 280 code units, and the share button is disabled
    exactly when the minimum-length warning is shown. *)
Theorem share_button_follows_warning
    (w : Window) (contentRef : option (Element -> bool)) (st : QuoteState)
    (selection : Selection) :
  captured w contentRef selection ->
  let st' := handleSelection w contentRef st in
  menuRendered st' = true
  /\ 1 <= length (quoteText st') <= 280
  /\ (shareDisabled st' = true <-> quoteWarning st' = Some minimum_warning).
Proof.
  intros Hcap st'. subst st'.
  destruct (handleSelection_captured w contentRef st selection Hcap) as (pos & ->).
  destruct Hcap as (_ & _ & Hne & _).
  set (text := normalize_ws (selection_toString selection)) in *.
  unfold menuRendered, shareDisabled, MIN_QUOTE_LENGTH.
  cbn [showQuoteMenu quoteText quoteWarning quoteMenuPosition].
  split; [reflexivity|].
  pose proof (truncate_length 280 text) as Hle.
  assert (Hpos : 1 <= length text) by (destruct text; [contradiction | cbn; lia]).
  unfold truncate in *.
  destruct (280 <? length text) eqn:Hmax;
    [apply Nat.ltb_lt in Hmax | apply Nat.ltb_ge in Hmax].
  - rewrite length_take. split; [lia|].
    replace (truthy (take 280 text)) with true
      by (destruct text; [cbn in Hmax; lia | reflexivity]).
    replace (280 `min` length text <? 16) with false
      by (symmetry; apply Nat.ltb_ge; lia).
    split; [discriminate|]. intros H. vm_compute in H. discriminate H.
  - split; [lia|].
    replace (truthy text) with true by (destruct text; [contradiction | reflexivity]).
    cbn [negb orb].
    destruct (length text <? 16); split; try reflexivity; discriminate.
Qed.

Lemma share_button_follows_warning_witness :
  shareDisabled (handleSelection (sample_window sample_text) content_element
                   initial_quote_state) = true.
Proof.
  assert (Hcap : captured (sample_window sample_text) content_element
                   (sample_selection sample_text)).
  { split; [reflexivity|]. split; [reflexivity|].
    split; [vm_compute; discriminate | reflexivity]. }
  destruct (share_button_follows_warning _ _ initial_quote_state _ Hcap)
    as (_ & _ & Hiff).
  apply Hiff. reflexivity.
Defined.

(** X9. The check that [mouseup] and [touchend] schedule does what
    [handleSelection] does: its own test of the trimmed selection lets
    through every selection that [handleSelection] captures. *)
Theorem scheduleSelectionCheck_is_handleSelection
    (w : Window) (contentRef : option (Element -> bool)) (st : QuoteState) :
  scheduleSelectionCheck w contentRef st = handleSelection w contentRef st.
Proof.
  unfold scheduleSelectionCheck, handleSelection.
  destruct (getSelection w) as [sel|]; [|reflexivity].
  destruct (isCollapsed sel); [reflexivity|]. cbn [orb].
  rewrite truthy_trim_normalize.
  destruct (truthy (normalize_ws (selection_toString sel))); reflexivity.
Qed.

(** X10. While a captured selection persists, a [selectionchange] event
    leaves the quote menu open: [handleSelectionClear] changes nothing and
    removes no range. *)
Theorem handleSelectionClear_keeps_captured
    (w : Window) (contentRef : option (Element -> bool)) (st : QuoteState)
    (selection : Selection) :
  captured w contentRef selection ->
  handleSelectionClear w (handleSelection w contentRef st)
  = (handleSelection w contentRef st, []).
Proof.
  intros (Hsel & Hc & Hne & _). unfold handleSelectionClear.
  rewrite Hsel, Hc, truthy_trim_normalize. cbn [orb].
  destruct (truthy (normalize_ws (selection_toString selection))) eqn:Ht;
    [reflexivity | apply truthy_false in Ht; contradiction].
Qed.

Lemma handleSelectionClear_keeps_captured_witness :
  handleSelectionClear (sample_window sample_text)
    (handleSelection (sample_window sample_text) content_element initial_quote_state)
  = (handleSelection (sample_window sample_text) content_element initial_quote_state, []).
Proof.
  apply (handleSelectionClear_keeps_captured _ content_element initial_quote_state
           (sample_selection sample_text)).
  split; [reflexivity|]. split; [reflexivity|].
  split; [vm_compute; discriminate | reflexivity].
Defined.

(** ** Percent-encoding and decoding *)














Lemma unreserved_ascii (c : N) :
  ES.uriUnreserved c = true -> (c < 128)%N /\ c <> ES.PERCENT.
Proof.
  intros H. split; [|intros ->; discriminate H].
  destruct (N.lt_ge_cases c 128) as [Hc|Hc]; [exact Hc | exfalso].
  unfold ES.uriUnreserved, ES.is_alnum in H.
  replace (c <=? 57)%N with false in H by (symmetry; apply N.leb_gt; lia).
  replace (c <=? 90)%N with false in H by (symmetry; apply N.leb_gt; lia).
  replace (c <=? 122)%N with false in H by (symmetry; apply N.leb_gt; lia).
  rewrite !andb_false_r in H. cbn [orb] in H.
  apply existsb_exists in H as (x & Hin & Hx). apply N.eqb_eq in Hx. subst x.
  vm_compute in Hin. repeat (destruct Hin as [Hin | Hin]; [lia|]). exact Hin.
Qed.

Lemma ascii_no_surrogate (c : N) :
  (c < 128)%N -> ES.is_lead_surrogate c = false /\ ES.is_trail_surrogate c = false.
Proof.
  intros H. unfold ES.is_lead_surrogate, ES.is_trail_surrogate.
  replace (55296 <=? c)%N with false by (symmetry; apply N.leb_gt; lia).
  replace (56320 <=? c)%N with false by (symmetry; apply N.leb_gt; lia).
  split; reflexivity.
Qed.

(** [encodeURIComponent] returns exactly on the strings without unpaired
    surrogate, and throws a [URIError] on the others. *)
Lemma Encode_well_paired (n : nat) :
  forall s, length s <= n ->
    if well_paired s then exists e, ES.Encode ES.uriUnreserved s = Normal e
    else ES.Encode ES.uriUnreserved s = Throw URIError.
Proof.
  induction n as [|n IH]; intros [|c r] Hlen; cbn [length] in Hlen; try lia;
    try (exists []; reflexivity).
  cbn [well_paired ES.Encode].
  destruct (ES.uriUnreserved c) eqn:Hu.
  - destruct (unreserved_ascii c Hu) as [Hc _].
    destruct (ascii_no_surrogate c Hc) as [-> ->]. cbn [negb andb].
    specialize (IH r ltac:(lia)). destruct (well_paired r).
    + destruct IH as [e ->]. eexists. reflexivity.
    + rewrite IH. reflexivity.
  - destruct (ES.is_lead_surrogate c).
    + destruct r as [|c2 r2]; [reflexivity|].
      destruct (ES.is_trail_surrogate c2); [|reflexivity]. cbn [andb].
      cbn [length] in Hlen. specialize (IH r2 ltac:(lia)). destruct (well_paired r2).
      * destruct IH as [e ->]. eexists. reflexivity.
      * rewrite IH. reflexivity.
    + destruct (ES.is_trail_surrogate c); [reflexivity|]. cbn [negb andb].
      specialize (IH r ltac:(lia)). destruct (well_paired r).
      * destruct IH as [e ->]. eexists. reflexivity.
      * rewrite IH. reflexivity.
Qed.

Lemma encodeURIComponent_well_paired (s : jsstring) :
  well_paired s = true -> exists e, ES.encodeURIComponent s = Normal e.
Proof.
  intros H. pose proof (Encode_well_paired (length s) s (le_n _)) as He.
  rewrite H in He. exact He.
Qed.

Lemma encodeURIComponent_unpaired (s : jsstring) :
  well_paired s = false -> ES.encodeURIComponent s = Throw URIError.
Proof.
  intros H. pose proof (Encode_well_paired (length s) s (le_n _)) as He.
  rewrite H in He. exact He.
Qed.













(** ** Quotes with unpaired surrogates *)

Lemma composeUrl_well_paired APP_URL author title (q : jsstring) :
  if well_paired q then exists url, composeUrl APP_URL author title q = Normal url
  else composeUrl APP_URL author title q = Throw URIError.
Proof.
  unfold composeUrl. destruct (well_paired q) eqn:H.
  - destruct (encodeURIComponent_well_paired q H) as [e ->]. eexists. reflexivity.
  - rewrite (encodeURIComponent_unpaired q H). reflexivity.
Qed.




(** A string that ends in a lead surrogate has an unpaired surrogate. *)
Lemma well_paired_lead_end (n : nat) :
  forall s hi, length s <= n -> ES.is_lead_surrogate hi = true ->
    well_paired (s ++ [hi]) = false.
Proof.
  induction n as [|n IH]; intros [|c r] hi Hlen Hhi; cbn [length] in Hlen; try lia;
    cbn [app well_paired]; try (rewrite Hhi; reflexivity).
  destruct (ES.is_lead_surrogate c).
  - destruct r as [|c2 r2]; cbn [app].
    + unfold ES.is_lead_surrogate, ES.is_trail_surrogate in *.
      apply andb_true_iff in Hhi as [H1 H2]. apply N.leb_le in H1, H2.
      replace (56320 <=? hi)%N with false by (symmetry; apply N.leb_gt; lia).
      reflexivity.
    + cbn [length] in Hlen. rewrite (IH r2 hi ltac:(lia) Hhi). apply andb_false_r.
  - rewrite (IH r hi ltac:(lia) Hhi). apply andb_false_r.
Qed.

Lemma take_splits_pair (text : jsstring) (n : nat) (hi : N) :
  text !! n = Some hi -> ES.is_lead_surrogate hi = true ->
  well_paired (take (S n) text) = false.
Proof.
  intros Hn Hhi. rewrite (take_S_r text n hi Hn).
  apply (well_paired_lead_end (length (take n text))); [lia | exact Hhi].
Qed.

(** X13. Truncation can split a surrogate pair: when the normalized text
    of a captured selection has more than 280 code units and a lead
    surrogate at offset 279, the quote that [handleSelection] stores ends in
    that surrogate, and [handleQuoteShare] then fails on any host that has
    [openUrl], without calling it, with the failure warning. *)
Theorem truncated_pair_cannot_be_shared
    (APP_URL author title : jsstring) (actions : option Actions)
    (open : jsstring -> completion unit)
    (w : Window) (contentRef : option (Element -> bool)) (st : QuoteState)
    (selection : Selection) (hi : N) :
  captured w contentRef selection ->
  280 < length (normalize_ws (selection_toString selection)) ->
  normalize_ws (selection_toString selection) !! 279 = Some hi ->
  ES.is_lead_surrogate hi = true ->
  actions ≫= openUrl = Some open ->
  handleQuoteShare APP_URL author title actions w (handleSelection w contentRef st)
  = (setQuoteWarning (Some failure_warning) (handleSelection w contentRef st),
     [ConsoleError]).
Proof.
  intros Hcap Hlen Hat Hhi Hopen.
  destruct (handleSelection_captured w contentRef st selection Hcap) as (pos & ->).
  unfold handleQuoteShare. cbn [quoteText].
  set (text := normalize_ws (selection_toString selection)) in *.
  assert (Hq : truncate 280 text = take 280 text).
  { unfold truncate. apply Nat.ltb_lt in Hlen. rewrite Hlen. reflexivity. }
  rewrite Hq.
  replace (truthy (take 280 text)) with true
    by (destruct text; [cbn in Hlen; lia | reflexivity]).
  cbn [negb]. rewrite Hopen.
  pose proof (composeUrl_well_paired APP_URL author title (take 280 text)) as Hc.
  rewrite (take_splits_pair text 279 hi Hat Hhi) in Hc. rewrite Hc. reflexivity.
Qed.

Lemma truncated_pair_cannot_be_shared_witness :
  quoteWarning
    (handleQuoteShare (lit "https://app.example") (lit "Satoshi Nakamoto")
       (lit "Bitcoin") working_host (sample_window astral_at_limit)
       (handleSelection (sample_window astral_at_limit) content_element
          initial_quote_state)).1
  = Some failure_warning.
Proof.
  assert (Hcap : captured (sample_window astral_at_limit) content_element
                   (sample_selection astral_at_limit)).
  { split; [reflexivity|]. split; [reflexivity|].
    split; [vm_compute; discriminate | reflexivity]. }
  rewrite (truncated_pair_cannot_be_shared
             (lit "https://app.example") (lit "Satoshi Nakamoto") (lit "Bitcoin")
             working_host (fun _ => Normal tt) (sample_window astral_at_limit)
             content_element initial_quote_state (sample_selection astral_at_limit)
             55357%N Hcap).
  - reflexivity.
  - apply Nat.ltb_lt. vm_compute. reflexivity.
  - vm_compute. reflexivity.
  - reflexivity.
  - reflexivity.
Defined.

Lemma page_sanitizeQuote_returns (raw : query_param) :
  exists q, QuoteSharePage.sanitizeQuote raw = Normal q.
Proof.
  destruct (QuoteSharePage.value_of raw) as [v|] eqn:Hv.
  - eexists. apply (page_sanitizeQuote_eq raw v Hv).
  - destruct raw as [|s|[|s l]]; try discriminate Hv; eexists; reflexivity.
Qed.

(** X14. [generateMetadata] describes the sanitized quote, or the
    application's description when that quote is empty, and points the
    OpenGraph image at the quote route with the described text
    percent-encoded. It throws a [URIError] exactly when the described text
    has an unpaired surrogate. *)
Theorem generateMetadata_describes_quote
    (APP_NAME APP_DESCRIPTION APP_URL : jsstring) (embed : jsstring -> jsstring)
    (text : query_param) :
  exists quote,
    QuoteSharePage.sanitizeQuote text = Normal quote
    /\ let shown := if truthy quote then quote else APP_DESCRIPTION in
       if well_paired shown
       then exists encoded meta,
           ES.encodeURIComponent shown = Normal encoded
           /\ QuoteSharePage.generateMetadata APP_NAME APP_DESCRIPTION APP_URL embed text
              = Normal meta
           /\ QuoteSharePage.description meta = shown
           /\ QuoteSharePage.openGraph_description meta = shown
           /\ QuoteSharePage.openGraph_images meta
              = [APP_URL ++ lit "/api/opengraph-quote?text=" ++ encoded]
       else QuoteSharePage.generateMetadata APP_NAME APP_DESCRIPTION APP_URL embed text
            = Throw URIError.
Proof.
  destruct (page_sanitizeQuote_returns text) as [quote Hq].
  exists quote. split; [exact Hq|]. cbn zeta.
  unfold QuoteSharePage.generateMetadata. rewrite Hq.
  destruct (well_paired (if truthy quote then quote else APP_DESCRIPTION)) eqn:Hw.
  - destruct (encodeURIComponent_well_paired _ Hw) as [e He].
    exists e. eexists. rewrite He. repeat split.
  - rewrite (encodeURIComponent_unpaired _ Hw). reflexivity.
Qed.

(** ** More on the annotator *)

Lemma annotate_match_eq text li k l pi refs nodes :
  annotate_match text {| index := li + k; group0 := marker l; group1 := l |}
                 li pi refs nodes
  = (S (pi + length (gap_nodes text li pi k)), next_refs l refs,
     nodes ++ gap_nodes text li pi k
       ++ [anchor_node l (pi + length (gap_nodes text li pi k)) refs]).
Proof.
  unfold annotate_match, gap_nodes, anchor_node, next_refs, uniqueId_of, occurrence,
    ref_key, href_of.
  cbn [index group1]. destruct (li <? li + k); cbn [length app].
  - rewrite <- app_assoc. cbn [app]. replace (pi + 1) with (S pi) by lia. reflexivity.
  - rewrite Nat.add_0_r. reflexivity.
Qed.

(** The loop establishes [Q] at its end when every turn keeps [P] and the
    last turn turns [P] into [Q]. *)
Lemma loop_invariant (text : jsstring)
    (P : nat -> nat -> RefStore -> list ReactNode -> Prop)
    (Q : list ReactNode -> RefStore -> Prop) :
  (forall li pi refs nodes,
      li <= length text -> search (drop li text) = None -> P li pi refs nodes ->
      Q (nodes ++ tail_nodes text li pi) refs) ->
  (forall li pi refs nodes k l,
      li <= length text -> search (drop li text) = Some (k, l) -> P li pi refs nodes ->
      P (li + k + length (marker l)) (S (pi + length (gap_nodes text li pi k)))
        (next_refs l refs)
        (nodes ++ gap_nodes text li pi k
           ++ [anchor_node l (pi + length (gap_nodes text li pi k)) refs])) ->
  forall fuel li pi refs nodes,
    li <= length text -> length text - li < fuel -> P li pi refs nodes ->
    exists out refs',
      annotate_loop fuel text li li pi refs nodes = Some (out, refs') /\ Q out refs'.
Proof.
  intros Hstop Hstep. induction fuel as [|fuel IH]; intros li pi refs nodes Hli Hfuel HP;
    [lia|].
  destruct (search (drop li text)) as [[k l]|] eqn:Hs.
  - destruct (search_match text li k l Hs) as (_ & rest & _ & _ & Hle).
    pose proof (marker_length l) as Hml.
    cbn [annotate_loop]. rewrite (exec_some text li k l Hli Hs), annotate_match_eq.
    apply IH; [exact Hle | lia | apply Hstep; assumption].
  - rewrite (loop_stop fuel text li pi refs nodes Hs).
    eexists _, _. split; [reflexivity|]. apply Hstop; assumption.
Qed.

Lemma render_invariant (text : jsstring)
    (P : nat -> nat -> RefStore -> list ReactNode -> Prop)
    (Q : list ReactNode -> RefStore -> Prop) (refs : RefStore) :
  (forall li pi refs nodes,
      li <= length text -> search (drop li text) = None -> P li pi refs nodes ->
      Q (nodes ++ tail_nodes text li pi) refs) ->
  (forall li pi refs nodes k l,
      li <= length text -> search (drop li text) = Some (k, l) -> P li pi refs nodes ->
      P (li + k + length (marker l)) (S (pi + length (gap_nodes text li pi k)))
        (next_refs l refs)
        (nodes ++ gap_nodes text li pi k
           ++ [anchor_node l (pi + length (gap_nodes text li pi k)) refs])) ->
  P 0 0 refs [] ->
  exists out refs',
    renderContentWithReferences text refs = Some (out, refs') /\ Q out refs'.
Proof.
  intros Hstop Hstep H0. unfold renderContentWithReferences.
  apply (loop_invariant text P Q Hstop Hstep); [lia | lia | exact H0].
Qed.

(** The text between [lastIndex] and the next match holds no marker. *)
Lemma gap_no_reference (s : jsstring) (k : nat) (l : jsstring) :
  search s = Some (k, l) -> ~ contains_reference (take k s).
Proof.
  intros Hs (pre & m & post & Heq & Hm).
  apply matches_referencePattern in Hm as (l0 & Hl0 & ->).
  destruct (search_sound s k l Hs) as [_ Hbefore].
  assert (Hlen : length pre + length (marker l0) + length post <= k).
  { assert (H : length (take k s) = length (pre ++ marker l0 ++ post)) by (rewrite Heq; reflexivity).
    rewrite !length_app, length_take in H. lia. }
  pose proof (marker_length l0) as Hml.
  specialize (Hbefore (length pre) ltac:(lia)).
  assert (Hdrop : drop (length pre) s = marker l0 ++ post ++ drop k s).
  { rewrite <- (take_drop k s) at 1. rewrite Heq, <- !app_assoc.
    apply drop_app_length. }
  rewrite Hdrop, (match_here_complete l0 _ Hl0) in Hbefore. discriminate.
Qed.

Lemma node_of_text_step text li pi refs k l :
  li <= length text -> search (drop li text) = Some (k, l) ->
  Forall (node_of_text text)
    (gap_nodes text li pi k ++ [anchor_node l (pi + length (gap_nodes text li pi k)) refs]).
Proof.
  intros Hli Hs. destruct (search_match text li k l Hs) as (Hl & rest & Hat & _ & _).
  apply Forall_app. split.
  - unfold gap_nodes. destruct (li <? li + k) eqn:E; [|constructor].
    apply Nat.ltb_lt in E. constructor; [|constructor]. cbn [node_of_text].
    unfold slice. replace (li + k - li) with k by lia.
    split; [|split].
    + intros H. apply (f_equal length) in H. rewrite length_take, length_drop in H.
      cbn in H.
      assert (Hlen : length (drop (li + k) text) = length (marker l ++ rest))
        by (rewrite Hat; reflexivity).
      rewrite length_drop, length_app, marker_length in Hlen. lia.
    + exists (take li text), (drop k (drop li text)).
      rewrite take_drop, take_drop. reflexivity.
    + apply (gap_no_reference _ _ _ Hs).
  - constructor; [|constructor]. cbn [node_of_text anchor_node]. exists l.
    split; [exact Hl|]. do 3 (split; [reflexivity|]).
    exists (take (li + k) text), rest. rewrite <- Hat, take_drop. reflexivity.
Qed.

Lemma node_of_text_tail text li pi :
  search (drop li text) = None -> Forall (node_of_text text) (tail_nodes text li pi).
Proof.
  intros Hs. unfold tail_nodes. destruct (li <? length text) eqn:E; [|constructor].
  apply Nat.ltb_lt in E. constructor; [|constructor]. cbn [node_of_text].
  split; [|split].
  - intros H. apply (f_equal length) in H. rewrite length_drop in H. cbn in H. lia.
  - exists (take li text), []. rewrite app_nil_r, take_drop. reflexivity.
  - apply search_none_no_reference, Hs.
Qed.

Lemma render_nodes_of_text (text : jsstring) (refs : RefStore) :
  exists nodes refs',
    renderContentWithReferences text refs = Some (nodes, refs')
    /\ Forall (node_of_text text) nodes.
Proof.
  apply (render_invariant text
           (fun _ _ _ nodes => Forall (node_of_text text) nodes)
           (fun nodes _ => Forall (node_of_text text) nodes)).
  - intros li pi refs0 nodes _ Hs HP. apply Forall_app. split; [exact HP|].
    apply node_of_text_tail, Hs.
  - intros li pi refs0 nodes k l Hli Hs HP. apply Forall_app. split; [exact HP|].
    apply node_of_text_step; assumption.
  - constructor.
Qed.

(** X15. [renderContentWithReferences] emits an anchor only for a marker of
    the text: every anchor of its output displays [[label]] for a label [n]
    or [m-k] whose marker occurs in the text, links to the reference of that
    label and carries the link class. *)
Theorem anchors_only_for_markers (text : jsstring) (refs : RefStore) :
  exists nodes refs',
    renderContentWithReferences text refs = Some (nodes, refs')
    /\ forall key id href className children,
         a key id href className children ∈ nodes ->
         exists label,
           is_label label
           /\ children = [[LBRACKET]; label; [RBRACKET]]
           /\ href = lit "#reference-" ++ ToString (anchorTarget_of label)
           /\ className = anchorClassName
           /\ occurs_in (marker label) text.
Proof.
  destruct (render_nodes_of_text text refs) as (nodes & refs' & H & Hall).
  exists nodes, refs'. split; [exact H|].
  intros key id href className children Hin.
  rewrite Forall_forall in Hall. exact (Hall _ Hin).
Qed.

(** X16. Every span that [renderContentWithReferences] emits holds a
    non-empty piece of the text in which the reference pattern matches
    nothing: no marker is left inside literal text and no empty span is
    emitted. *)
Theorem spans_hold_plain_text (text : jsstring) (refs : RefStore) :
  exists nodes refs',
    renderContentWithReferences text refs = Some (nodes, refs')
    /\ forall key children,
         span key children ∈ nodes ->
         children <> [] /\ occurs_in children text /\ ~ contains_reference children.
Proof.
  destruct (render_nodes_of_text text refs) as (nodes & refs' & H & Hall).
  exists nodes, refs'. split; [exact H|].
  intros key children Hin.
  rewrite Forall_forall in Hall. exact (Hall _ Hin).
Qed.

Lemma decimal_inj (x y : N) : decimal x = decimal y -> x = y.
Proof.
  intros H. apply (f_equal decimal_value) in H.
  rewrite !decimal_value_decimal in H. exact H.
Qed.

Lemma positional_key_inj (i j : nat) (ni nj : ReactNode) :
  positional_key i ni -> positional_key j nj -> node_key ni = node_key nj -> i = j.
Proof.
  destruct ni, nj; cbn [positional_key node_key]; intros -> -> H.
  - apply app_inv_head, decimal_inj in H. lia.
  - discriminate H.
  - discriminate H.
  - apply app_inv_head, decimal_inj in H. lia.
Qed.

Lemma positional_app (ns more : list ReactNode) :
  (forall i n, ns !! i = Some n -> positional_key i n) ->
  (forall j n, more !! j = Some n -> positional_key (length ns + j) n) ->
  forall i n, (ns ++ more) !! i = Some n -> positional_key i n.
Proof.
  intros H1 H2 i n Hi. apply lookup_app_Some in Hi as [Hi | [Hge Hi]].
  - apply H1, Hi.
  - replace i with (length ns + (i - length ns)) by lia. apply H2, Hi.
Qed.

(** X17. The React keys of the nodes that [renderContentWithReferences]
    returns are [text-i] for a span and [ref-i] for an anchor, [i] being the
    position of the node in the output; no two nodes share a key. *)
Theorem node_keys_positional_and_unique (text : jsstring) (refs : RefStore) :
  exists nodes refs',
    renderContentWithReferences text refs = Some (nodes, refs')
    /\ (forall i n, nodes !! i = Some n -> positional_key i n)
    /\ (forall i j ni nj,
           nodes !! i = Some ni -> nodes !! j = Some nj ->
           node_key ni = node_key nj -> i = j).
Proof.
  destruct (render_invariant text
              (fun _ pi _ nodes =>
                 pi = length nodes /\ forall i n, nodes !! i = Some n -> positional_key i n)
              (fun nodes _ => forall i n, nodes !! i = Some n -> positional_key i n)
              refs)
    as (nodes & refs' & H & Hpos).
  - intros li pi refs0 nodes _ _ [-> HP]. apply positional_app; [exact HP|].
    unfold tail_nodes. destruct (li <? length text); intros [|j] n Hn;
      try discriminate Hn.
    injection Hn as <-. rewrite Nat.add_0_r. reflexivity.
  - intros li pi refs0 nodes k l _ _ [-> HP]. split.
    + rewrite !length_app. cbn [length]. lia.
    + apply positional_app; [exact HP|].
      unfold gap_nodes. destruct (li <? li + k); cbn [length app].
      * intros [|[|j]] n Hn; try discriminate Hn; injection Hn as <-;
          cbn [positional_key anchor_node].
        -- rewrite Nat.add_0_r. reflexivity.
        -- reflexivity.
      * intros [|j] n Hn; try discriminate Hn. injection Hn as <-.
        cbn [positional_key anchor_node]. reflexivity.
  - split; [reflexivity|]. intros i n Hn. discriminate Hn.
  - exists nodes, refs'. split; [exact H|]. split; [exact Hpos|].
    intros i j ni nj Hi Hj. apply positional_key_inj; [apply Hpos, Hi | apply Hpos, Hj].
Qed.

Lemma first_anchor_app (href : jsstring) (l1 l2 : list ReactNode) :
  first_anchor href (l1 ++ l2)
  = match first_anchor href l1 with
    | Some id => Some id
    | None => first_anchor href l2
    end.
Proof.
  induction l1 as [|n r IH]; [reflexivity|].
  destruct n as [key children|key id h cls children]; cbn [app first_anchor];
    [exact IH|]. destruct (bool_decide (h = href)); [reflexivity | exact IH].
Qed.

Lemma first_anchor_gap href text li pi k :
  first_anchor href (gap_nodes text li pi k) = None.
Proof. unfold gap_nodes. destruct (li <? li + k); reflexivity. Qed.

Lemma first_anchor_tail href text li pi :
  first_anchor href (tail_nodes text li pi) = None.
Proof. unfold tail_nodes. destruct (li <? length text); reflexivity. Qed.

Lemma first_anchor_node (key l : jsstring) (pi : nat) (refs : RefStore) :
  first_anchor (lit "#reference-" ++ key) [anchor_node l pi refs]
  = if decide (key = ref_key l) then Some (uniqueId_of l refs) else None.
Proof.
  cbn [first_anchor anchor_node]. unfold href_of. fold (ref_key l).
  destruct (decide (key = ref_key l)) as [->|Hne].
  - rewrite bool_decide_eq_true_2 by reflexivity. reflexivity.
  - rewrite bool_decide_eq_false_2; [reflexivity|].
    intros E. apply app_inv_head in E. congruence.
Qed.

Lemma first_of_next_refs (key l : jsstring) (refs : RefStore) :
  first_of (next_refs l refs) key
  = if decide (key = ref_key l)
    then match first_of refs key with
         | Some id => Some id
         | None => Some (uniqueId_of l refs)
         end
    else first_of refs key.
Proof.
  unfold first_of, next_refs. cbn [firstRefOccurrence].
  destruct (decide (key = ref_key l)) as [->|Hne].
  - destruct (firstRefOccurrence refs !! ref_key l) as [id0|] eqn:E.
    + destruct (truthy id0) eqn:Ht.
      * rewrite E, Ht. reflexivity.
      * rewrite lookup_insert_eq. reflexivity.
    + rewrite lookup_insert_eq. reflexivity.
  - destruct (firstRefOccurrence refs !! ref_key l) as [id0|];
      [destruct (truthy id0)|]; rewrite ?lookup_insert_ne by congruence; reflexivity.
Qed.

(** X18. [renderContentWithReferences] records the targets of the back
    links: for every reference, the first occurrence that the store holds
    after the call is the one it held before or, when it held none, the [id]
    of the first anchor of the output that links to this reference, and none
    when the output has no such anchor.  An id held before the call is kept,
    whether or not an anchor of this output carries it. *)
Theorem backlinks_recorded_and_kept (text : jsstring) (refs : RefStore) :
  exists nodes refs',
    renderContentWithReferences text refs = Some (nodes, refs')
    /\ forall key,
         first_of refs' key
         = match first_of refs key with
           | Some id => Some id
           | None => first_anchor (lit "#reference-" ++ key) nodes
           end.
Proof.
  set (P := fun (nodes : list ReactNode) (refs1 : RefStore) =>
              forall key,
                first_of refs1 key
                = match first_of refs key with
                  | Some id => Some id
                  | None => first_anchor (lit "#reference-" ++ key) nodes
                  end).
  apply (render_invariant text (fun _ _ refs1 nodes => P nodes refs1) P refs).
  - intros li pi refs1 nodes _ _ HP key.
    rewrite first_anchor_app, first_anchor_tail, (HP key).
    destruct (first_of refs key); [reflexivity|].
    destruct (first_anchor _ nodes); reflexivity.
  - intros li pi refs1 nodes k l _ _ HP key.
    rewrite !first_anchor_app, first_anchor_gap, first_anchor_node, first_of_next_refs.
    rewrite (HP key).
    destruct (decide (key = ref_key l)); destruct (first_of refs key);
      try reflexivity; destruct (first_anchor _ nodes); reflexivity.
  - intros key. cbn [first_anchor]. destruct (first_of refs key); reflexivity.
Qed.

(** ** The text of a reference with its links *)

Lemma starts_with_app (sep s : jsstring) :
  starts_with sep s = true -> s = sep ++ drop (length sep) s.
Proof.
  revert s. induction sep as [|x sep' IH]; intros s H; [reflexivity|].
  destruct s as [|c s']; [discriminate H|]. cbn [starts_with] in H.
  apply andb_true_iff in H as [Hx Hs]. apply N.eqb_eq in Hx. subst c.
  cbn [length app skipn]. f_equal. apply IH, Hs.
Qed.

Lemma split_go_skip (sep pre cur rest : jsstring) :
  split_go sep (length pre) cur (pre ++ rest) = split_go sep 0 cur rest.
Proof.
  induction pre as [|c r IH]; [reflexivity|].
  cbn [length app split_go]. exact IH.
Qed.

Lemma join_cons (sep p : jsstring) (parts : list jsstring) :
  parts <> [] -> join sep (p :: parts) = p ++ sep ++ join sep parts.
Proof.
  destruct parts as [|q r]; [contradiction|]. intros _.
  cbn [join map concat]. rewrite <- app_assoc. reflexivity.
Qed.

Lemma split_go_not_nil sep skip cur s : split_go sep skip cur s <> [].
Proof.
  revert skip cur. induction s as [|c r IH]; intros skip cur; cbn [split_go];
    [discriminate|].
  destruct skip; [|apply IH]. destruct (starts_with sep (c :: r)); [discriminate | apply IH].
Qed.

(** Joining what [split] returns with the separator gives the string
    back. *)
Lemma split_go_join (sep : jsstring) (n : nat) :
  sep <> [] ->
  forall s cur, length s <= n -> join sep (split_go sep 0 cur s) = reverse cur ++ s.
Proof.
  intros Hsep. induction n as [|n IH]; intros [|c r] cur Hlen; cbn [length] in Hlen;
    try lia; try (cbn [split_go join concat map]; rewrite !app_nil_r; reflexivity).
  cbn [split_go]. destruct (starts_with sep (c :: r)) eqn:Hs.
  - apply starts_with_app in Hs.
    destruct sep as [|x sep']; [contradiction|].
    cbn [length app skipn] in Hs. injection Hs as <- Hr.
    cbn [length]. replace (S (length sep') - 1) with (length sep') by lia.
    rewrite Hr at 1. rewrite split_go_skip.
    rewrite join_cons by apply split_go_not_nil.
    rewrite IH.
    + cbn [reverse rev_append app]. rewrite Hr at 2. reflexivity.
    + rewrite length_drop. lia.
  - rewrite IH by lia. rewrite reverse_cons, <- app_assoc. reflexivity.
Qed.

Lemma split_string_join (sep s : jsstring) : join sep (split_string sep s) = s.
Proof.
  unfold split_string. destruct sep as [|x sep'].
  - destruct s as [|c r]; [reflexivity|]. cbn [map join]. f_equal.
    induction r as [|c' r' IH]; [reflexivity|]. cbn [map concat app]. f_equal. exact IH.
  - rewrite (split_go_join (x :: sep') (length s)) by (discriminate || lia).
    reflexivity.
Qed.

Lemma fragments_text_app (fs gs : list Fragment) :
  fragments_text (fs ++ gs) = fragments_text fs ++ fragments_text gs.
Proof. unfold fragments_text. rewrite map_app, concat_app. reflexivity. Qed.

Lemma emit_parts_text key link parts :
  forall i, fragments_text (emit_parts key link parts i) = join (link_text link) parts.
Proof.
  induction parts as [|p rest IH]; intros i; [reflexivity|].
  cbn [emit_parts]. rewrite !fragments_text_app, IH.
  assert (Hp : fragments_text (if truthy p then [Text p] else []) = p).
  { destruct p; [reflexivity|]. unfold fragments_text.
    cbn [truthy map concat fragment_text]. apply app_nil_r. }
  rewrite Hp. destruct rest as [|q r]; [cbn; rewrite app_nil_r; reflexivity|].
  rewrite (join_cons _ p (q :: r)) by done.
  unfold fragments_text at 1. cbn [map concat fragment_text]. rewrite app_nil_r.
  reflexivity.
Qed.

Lemma link_fragments_text id link li fragments :
  forall fi, fragments_text (link_fragments id link li fragments fi).1
             = fragments_text fragments.
Proof.
  induction fragments as [|f rest IH]; intros fi; [reflexivity|].
  cbn [link_fragments]. specialize (IH (S fi)).
  destruct (link_fragments id link li rest (S fi)) as [next matched]. cbn [fst] in *.
  destruct f as [s|k h c].
  - destruct (length (split_string (link_text link) s) =? 1); cbn [fst].
    + change (Text s :: next) with ([Text s] ++ next).
      change (Text s :: rest) with ([Text s] ++ rest).
      rewrite !fragments_text_app, IH. reflexivity.
    + change (Text s :: rest) with ([Text s] ++ rest).
      rewrite !fragments_text_app, IH, emit_parts_text, split_string_join.
      unfold fragments_text. cbn. rewrite app_nil_r. reflexivity.
  - cbn [fst]. change (LinkAnchor k h c :: next) with ([LinkAnchor k h c] ++ next).
    change (LinkAnchor k h c :: rest) with ([LinkAnchor k h c] ++ rest).
    rewrite !fragments_text_app, IH. reflexivity.
Qed.

Lemma apply_links_text id links :
  forall li fragments unmatched,
    fragments_text (apply_links id links li fragments unmatched).1
    = fragments_text fragments.
Proof.
  induction links as [|link rest IH]; intros li fragments unmatched; [reflexivity|].
  cbn [apply_links]. pose proof (link_fragments_text id link li fragments 0) as H.
  destruct (link_fragments id link li fragments 0) as [next matched]. cbn [fst] in H.
  rewrite IH. exact H.
Qed.

Lemma apply_links_unmatched id links :
  forall li fragments unmatched,
    exists extra,
      (apply_links id links li fragments unmatched).2 = unmatched ++ extra
      /\ sublist extra links.
Proof.
  induction links as [|link rest IH]; intros li fragments unmatched.
  - exists []. split; [cbn; rewrite app_nil_r; reflexivity | constructor].
  - cbn [apply_links].
    destruct (link_fragments id link li fragments 0) as [next matched].
    destruct matched.
    + destruct (IH (S li) next unmatched) as (extra & -> & Hsub).
      exists extra. split; [reflexivity | apply sublist_cons, Hsub].
    + destruct (IH (S li) next (unmatched ++ [link])) as (extra & -> & Hsub).
      exists (link :: extra). rewrite <- app_assoc.
      split; [reflexivity | apply sublist_skip, Hsub].
Qed.

Lemma trailing_links_text id unmatched :
  forall idx, fragments_text (trailing_links id unmatched idx)
              = join (lit "; ") (map link_text unmatched).
Proof.
  induction unmatched as [|link rest IH]; intros idx; [reflexivity|].
  cbn [trailing_links map].
  change (LinkAnchor ?k ?h ?c :: ?x) with ([LinkAnchor k h c] ++ x).
  rewrite !fragments_text_app, IH.
  destruct rest as [|l2 r2]; [cbn; rewrite !app_nil_r; reflexivity|].
  unfold fragments_text. cbn [map concat fragment_text join app].
  rewrite !app_nil_r. reflexivity.
Qed.

(** *** Which links match *)

Lemma starts_with_prefix (t post : jsstring) : starts_with t (t ++ post) = true.
Proof.
  induction t as [|x t' IH]; [reflexivity|].
  cbn [app starts_with]. rewrite N.eqb_refl. exact IH.
Qed.

Lemma occurs_in_position (t s : jsstring) :
  occurs_in t s <-> exists k, starts_with t (drop k s) = true.
Proof.
  split.
  - intros (pre & post & ->). exists (length pre).
    rewrite drop_app_length. apply starts_with_prefix.
  - intros [k H]. exists (take k s), (drop (length t) (drop k s)).
    rewrite <- (starts_with_app t (drop k s) H), take_drop. reflexivity.
Qed.

Lemma split_go_found (t : jsstring) (s : jsstring) :
  t <> [] ->
  forall k cur, starts_with t (drop k s) = true -> 2 <= length (split_go t 0 cur s).
Proof.
  intros Ht. induction s as [|c r IH]; intros k cur H.
  - rewrite drop_nil in H. destruct t; [contradiction | discriminate H].
  - cbn [split_go]. destruct (starts_with t (c :: r)) eqn:E.
    + pose proof (split_go_not_nil t (length t - 1) [] r) as Hn.
      destruct (split_go t (length t - 1) [] r); [contradiction|]. cbn [length]. lia.
    + destruct k as [|k]; [rewrite drop_0, E in H; discriminate H|].
      apply (IH k). exact H.
Qed.

Lemma split_go_parts (t : jsstring) (s : jsstring) :
  forall cur, length (split_go t 0 cur s) <> 1 ->
              exists k, starts_with t (drop k s) = true.
Proof.
  induction s as [|c r IH]; intros cur H.
  - contradiction H. reflexivity.
  - cbn [split_go] in H. destruct (starts_with t (c :: r)) eqn:E.
    + exists 0. exact E.
    + destruct (IH _ H) as [k Hk]. exists (S k). exact Hk.
Qed.

Lemma split_string_splits (t s : jsstring) :
  length (split_string t s) <> 1 <-> splits t s.
Proof.
  unfold split_string, splits. destruct t as [|x t'].
  - rewrite length_map. reflexivity.
  - rewrite occurs_in_position. split.
    + apply split_go_parts.
    + intros [k H]. pose proof (split_go_found (x :: t') s ltac:(discriminate) k [] H). lia.
Qed.

Lemma link_fragments_found id link li fragments :
  forall fi, (link_fragments id link li fragments fi).2 = true
             <-> found_in (link_text link) fragments.
Proof.
  induction fragments as [|f rest IH]; intros fi.
  - cbn. split; [discriminate | intros (s & Hin & _); inversion Hin].
  - cbn [link_fragments]. specialize (IH (S fi)).
    destruct (link_fragments id link li rest (S fi)) as [next matched]. cbn [snd] in IH.
    assert (Hrest : found_in (link_text link) rest -> found_in (link_text link) (f :: rest)).
    { intros (s & Hin & Hs). exists s. split; [right; exact Hin | exact Hs]. }
    destruct f as [s|k h c].
    + pose proof (split_string_splits (link_text link) s) as Hsp.
      destruct (length (split_string (link_text link) s) =? 1) eqn:E; cbn [snd].
      * apply Nat.eqb_eq in E. rewrite IH. split; [exact Hrest|].
        intros (s' & Hin & Hs'). apply elem_of_cons in Hin as [[= <-] | Hin].
        -- apply Hsp in Hs'. contradiction.
        -- exists s'. split; assumption.
      * apply Nat.eqb_neq in E. split; [|reflexivity].
        intros _. exists s. split; [left | apply Hsp, E].
    + cbn [snd]. rewrite IH. split; [exact Hrest|].
      intros (s' & Hin & Hs'). apply elem_of_cons in Hin as [Hin | Hin]; [discriminate Hin|].
      exists s'. split; assumption.
Qed.

Lemma apply_links_fragments id links :
  forall li fragments unmatched unmatched',
    (apply_links id links li fragments unmatched).1
    = (apply_links id links li fragments unmatched').1.
Proof.
  induction links as [|link rest IH]; intros li fragments unmatched unmatched';
    [reflexivity|].
  cbn [apply_links]. destruct (link_fragments id link li fragments 0) as [next matched].
  apply IH.
Qed.

Lemma apply_links_marks id links :
  forall li fragments unmatched,
    (apply_links id links li fragments unmatched).2
    = unmatched ++ unmarked links (link_marks id links li fragments)
    /\ length (link_marks id links li fragments) = length links.
Proof.
  induction links as [|link rest IH]; intros li fragments unmatched.
  - cbn. rewrite app_nil_r. split; reflexivity.
  - cbn [apply_links link_marks unmarked length].
    destruct (link_fragments id link li fragments 0) as [next matched]. cbn [fst snd].
    destruct (IH (S li) next (if matched then unmatched else unmatched ++ [link]))
      as [-> ->].
    split; [|reflexivity]. destruct matched; [reflexivity|].
    rewrite <- app_assoc. reflexivity.
Qed.

Lemma link_marks_lookup id links :
  forall li fragments i link,
    links !! i = Some link ->
    link_marks id links li fragments !! i
    = Some (link_fragments id link (li + i)
              (apply_links id (take i links) li fragments []).1 0).2.
Proof.
  induction links as [|l0 rest IH]; intros li fragments i link Hi; [discriminate Hi|].
  destruct i as [|i].
  - injection Hi as ->. cbn [link_marks take apply_links fst]. rewrite Nat.add_0_r.
    reflexivity.
  - cbn [lookup list_lookup] in Hi. cbn [link_marks take apply_links].
    change ((?x :: ?l) !! S i) with (l !! i).
    rewrite (IH (S li) _ i link Hi).
    destruct (link_fragments id l0 li fragments 0) as [next matched]. cbn [fst].
    replace (S li + i) with (li + S i) by lia.
    rewrite (apply_links_fragments id (take i rest) (S li) next
               (if matched then [] else [] ++ [l0]) []).
    reflexivity.
Qed.

(** X19. [renderReferenceText] keeps the text of the reference and lists
    after it the links that matched nowhere: a link matches when, once the
    links before it were applied, its text splits one of the strings among
    the fragments; what the result displays is the text of the reference,
    followed, when some links did not match, by the texts of exactly these
    links in parentheses, in their order and separated by semicolons.
    Without links the result is the text itself. *)
Theorem reference_text_preserved (ref : Reference) :
  exists matched : list bool,
    length matched = length (links_of ref)
    /\ (forall i link,
          links_of ref !! i = Some link ->
          (matched !! i = Some true
           <-> found_in (link_text link) (fragments_after ref i)))
    /\ fragments_text (rendered_fragments (renderReferenceText ref))
       = ref_text ref ++ unmatched_suffix (unmarked (links_of ref) matched)
    /\ (links_of ref = [] -> renderReferenceText ref = Plain (ref_text ref)).
Proof.
  unfold renderReferenceText, fragments_after, links_of.
  destruct (ref_links ref) as [[|link links]|]; cbn [default].
  - exists []. split; [reflexivity|]. split; [intros i l Hi; discriminate Hi|].
    split; [|reflexivity].
    unfold fragments_text. cbn. rewrite !app_nil_r. reflexivity.
  - unfold id. set (L := link :: links).
    pose proof (apply_links_text (ref_id ref) L 0 [Text (ref_text ref)] []) as Htext.
    destruct (apply_links_marks (ref_id ref) L 0 [Text (ref_text ref)] []) as [Hun Hlen].
    exists (link_marks (ref_id ref) L 0 [Text (ref_text ref)]).
    split; [exact Hlen|]. split.
    { intros i l Hi.
      rewrite (link_marks_lookup (ref_id ref) L 0 [Text (ref_text ref)] i l Hi).
      pose proof (link_fragments_found (ref_id ref) l (0 + i)
                    (apply_links (ref_id ref) (take i L) 0 [Text (ref_text ref)] []).1 0)
        as Hf.
      split; [intros [= H]; apply Hf, H | intros H; apply Hf in H; rewrite H; reflexivity]. }
    split; [|discriminate].
    destruct (apply_links (ref_id ref) L 0 [Text (ref_text ref)] [])
      as [fragments unmatched].
    cbn [fst snd app] in *. subst unmatched.
    assert (H0 : fragments_text [Text (ref_text ref)] = ref_text ref)
      by (unfold fragments_text; cbn; apply app_nil_r).
    rewrite H0 in Htext.
    destruct (unmarked L _) as [|l0 extra']; cbn [rendered_fragments unmatched_suffix].
    + rewrite Htext, app_nil_r. reflexivity.
    + change (Text (lit " (") :: ?x) with ([Text (lit " (")] ++ x).
      rewrite !fragments_text_app, Htext, trailing_links_text.
      unfold fragments_text. cbn [map concat fragment_text].
      rewrite !app_nil_r. reflexivity.
  - exists []. split; [reflexivity|]. split; [intros i l Hi; discriminate Hi|].
    split; [|reflexivity].
    unfold fragments_text. cbn. rewrite !app_nil_r. reflexivity.
Qed.

Example renderReferenceText_sample :
  fragments_text (rendered_fragments (renderReferenceText sample_reference))
  = lit "W. Dai, b-money, 1998. (archive)".
Proof. vm_compute. reflexivity. Qed.

Lemma emit_parts_from (L : list Link) key link parts :
  link ∈ L -> forall i, Forall (from_links L) (emit_parts key link parts i).
Proof.
  intros Hin. induction parts as [|p rest IH]; intros i; [constructor|].
  cbn [emit_parts]. apply Forall_app. split; [destruct (truthy p); repeat constructor|].
  apply Forall_app. split; [|apply IH].
  destruct rest; [constructor|]. repeat constructor. cbn. eauto.
Qed.

Lemma link_fragments_from (L : list Link) id link li fragments :
  link ∈ L -> Forall (from_links L) fragments ->
  forall fi, Forall (from_links L) (link_fragments id link li fragments fi).1.
Proof.
  intros Hin. induction 1 as [|f rest Hf _ IH]; intros fi; [constructor|].
  cbn [link_fragments]. specialize (IH (S fi)).
  destruct (link_fragments id link li rest (S fi)) as [next matched]. cbn [fst] in *.
  destruct f as [s|k h c]; [|constructor; assumption].
  destruct (length (split_string (link_text link) s) =? 1); cbn [fst].
  - constructor; assumption.
  - apply Forall_app. split; [apply emit_parts_from, Hin | exact IH].
Qed.

Lemma apply_links_from (L : list Link) id links :
  (forall l, l ∈ links -> l ∈ L) ->
  forall li fragments unmatched,
    Forall (from_links L) fragments ->
    Forall (from_links L) (apply_links id links li fragments unmatched).1.
Proof.
  induction links as [|link rest IH]; intros HL li fragments unmatched Hf; [exact Hf|].
  cbn [apply_links].
  pose proof (link_fragments_from L id link li fragments
                (HL link ltac:(left)) Hf 0) as Hnext.
  destruct (link_fragments id link li fragments 0) as [next matched]. cbn [fst] in Hnext.
  apply IH; [intros l Hl; apply HL; right; exact Hl | exact Hnext].
Qed.

Lemma trailing_links_from (L : list Link) id unmatched :
  (forall l, l ∈ unmatched -> l ∈ L) ->
  forall idx, Forall (from_links L) (trailing_links id unmatched idx).
Proof.
  induction unmatched as [|link rest IH]; intros HL idx; [constructor|].
  cbn [trailing_links]. constructor.
  - cbn. exists link. split; [apply HL; left | split; reflexivity].
  - apply Forall_app. split; [destruct rest; repeat constructor|].
    apply IH. intros l Hl. apply HL. right. exact Hl.
Qed.

Lemma trailing_links_covers id unmatched link :
  link ∈ unmatched ->
  forall idx, exists f, f ∈ trailing_links id unmatched idx /\ anchor_of link f.
Proof.
  induction 1 as [link rest | l0 link rest _ IH]; intros idx; cbn [trailing_links].
  - eexists. split; [left | eexists; reflexivity].
  - destruct (IH (S idx)) as (f & Hf & Ha). exists f. split; [|exact Ha].
    right. apply elem_of_app. right. exact Hf.
Qed.

(** An anchor stays through the pass of a later link. *)
Lemma link_fragments_keeps id link li fragments k h c :
  LinkAnchor k h c ∈ fragments ->
  forall fi, LinkAnchor k h c ∈ (link_fragments id link li fragments fi).1.
Proof.
  induction fragments as [|f rest IH]; intros Hin fi; [inversion Hin|].
  cbn [link_fragments]. specialize (fun H => IH H (S fi)).
  destruct (link_fragments id link li rest (S fi)) as [next matched]. cbn [fst] in *.
  apply elem_of_cons in Hin as [<- | Hin].
  - left.
  - destruct f as [s|k' h' c']; [|right; apply IH, Hin].
    destruct (length (split_string (link_text link) s) =? 1); cbn [fst].
    + right. apply IH, Hin.
    + apply elem_of_app. right. apply IH, Hin.
Qed.

(** A link with a non-empty text that matched has an anchor. *)
Lemma link_fragments_matched id link li fragments :
  link_text link <> [] ->
  forall fi, (link_fragments id link li fragments fi).2 = true ->
    exists f, f ∈ (link_fragments id link li fragments fi).1 /\ anchor_of link f.
Proof.
  intros Hne. induction fragments as [|f rest IH]; intros fi; [discriminate|].
  cbn [link_fragments]. specialize (IH (S fi)).
  destruct (link_fragments id link li rest (S fi)) as [next matched]. cbn [fst snd] in *.
  assert (Hrest : matched = true ->
                  forall pre, exists g, g ∈ pre ++ next /\ anchor_of link g).
  { intros Hm pre. destruct (IH Hm) as (g & Hg & Ha). exists g.
    split; [apply elem_of_app; right; exact Hg | exact Ha]. }
  destruct f as [s|k h c].
  - destruct (length (split_string (link_text link) s) =? 1) eqn:El; cbn [fst snd].
    + intros Hm. apply (Hrest Hm [Text s]).
    + intros _. unfold split_string in *.
      destruct (link_text link) as [|x sep'] eqn:Esep; [contradiction|].
      pose proof (split_go_not_nil (x :: sep') 0 [] s) as Hnn.
      destruct (split_go (x :: sep') 0 [] s) as [|p [|q r]]; [contradiction | discriminate El |].
      cbn [emit_parts]. eexists. split.
      * apply elem_of_app. left. apply elem_of_app. right.
        apply elem_of_app. left. left.
      * eexists. rewrite Esep. reflexivity.
  - cbn [fst snd]. intros Hm. apply (Hrest Hm [LinkAnchor k h c]).
Qed.

Lemma apply_links_covers id links :
  forall li fragments unmatched,
    (forall k h c, LinkAnchor k h c ∈ fragments ->
                   LinkAnchor k h c ∈ (apply_links id links li fragments unmatched).1)
    /\ (forall l, l ∈ unmatched -> l ∈ (apply_links id links li fragments unmatched).2)
    /\ (forall link, link ∈ links -> link_text link <> [] ->
          (exists f, f ∈ (apply_links id links li fragments unmatched).1 /\ anchor_of link f)
          \/ link ∈ (apply_links id links li fragments unmatched).2).
Proof.
  induction links as [|link rest IH]; intros li fragments unmatched.
  - cbn [apply_links fst snd]. split; [auto|]. split; [auto|].
    intros link Hin. inversion Hin.
  - cbn [apply_links].
    pose proof (link_fragments_keeps id link li fragments) as Hkeep.
    pose proof (link_fragments_matched id link li fragments) as Hmatch.
    destruct (link_fragments id link li fragments 0) as [next matched] eqn:E.
    destruct (IH (S li) next (if matched then unmatched else unmatched ++ [link]))
      as (Ha & Hu & Hc).
    split; [|split].
    + intros k h c Hin. apply Ha. specialize (Hkeep k h c Hin 0).
      rewrite E in Hkeep. exact Hkeep.
    + intros l Hl. apply Hu. destruct matched; [exact Hl|].
      apply elem_of_app. left. exact Hl.
    + intros l Hl Hne. apply elem_of_cons in Hl as [-> | Hl]; [|apply Hc; assumption].
      destruct matched.
      * left. specialize (Hmatch Hne 0). rewrite E in Hmatch.
        destruct (Hmatch eq_refl) as (f & Hf & [key ->]).
        eexists. split; [apply Ha, Hf | eexists; reflexivity].
      * right. apply Hu, elem_of_app. right. left.
Qed.

(** X20. The anchors that [renderReferenceText] returns are those of the
    links of the reference: every anchor has the URL and the text of one of
    the links, and every link with a non-empty text has an anchor, in the
    text where it matched or after it. *)
Theorem reference_anchors_are_its_links (ref : Reference) :
  (forall key href children,
      LinkAnchor key href children ∈ rendered_fragments (renderReferenceText ref) ->
      exists link,
        link ∈ links_of ref /\ href = link_url link /\ children = link_text link)
  /\ (forall link,
        link ∈ links_of ref -> link_text link <> [] ->
        exists key,
          LinkAnchor key (link_url link) (link_text link)
          ∈ rendered_fragments (renderReferenceText ref)).
Proof.
  unfold renderReferenceText, links_of.
  destruct (ref_links ref) as [[|link0 links]|]; cbn [default rendered_fragments].
  - split; [|intros link Hin; inversion Hin].
    intros key href children Hin. apply list_elem_of_singleton in Hin. discriminate Hin.
  - set (L := link0 :: links).
    pose proof (apply_links_from L (ref_id ref) L (fun l H => H) 0 [Text (ref_text ref)] []
                  ltac:(repeat constructor)) as Hfrom.
    destruct (apply_links_unmatched (ref_id ref) L 0 [Text (ref_text ref)] [])
      as (extra & Hun & Hsub).
    destruct (apply_links_covers (ref_id ref) L 0 [Text (ref_text ref)] [])
      as (_ & _ & Hcov).
    destruct (apply_links (ref_id ref) L 0 [Text (ref_text ref)] [])
      as [fragments unmatched].
    cbn [fst snd app] in *. subst unmatched.
    assert (HexL : forall l, l ∈ extra -> l ∈ L)
      by (intros l Hl; eapply elem_of_sublist; eassumption).
    assert (Hall : Forall (from_links L)
                     (match extra with
                      | [] => fragments
                      | _ :: _ => fragments ++ [Text (lit " (")]
                                   ++ trailing_links (ref_id ref) extra 0 ++ [Text (lit ")")]
                      end)).
    { destruct extra as [|l0 extra']; [exact Hfrom|].
      apply Forall_app. split; [exact Hfrom|]. constructor; [exact I|].
      apply Forall_app. split; [apply trailing_links_from, HexL | repeat constructor]. }
    split.
    + intros key href children Hin.
      assert (Hin' : LinkAnchor key href children
                     ∈ match extra with
                       | [] => fragments
                       | _ :: _ => fragments ++ [Text (lit " (")]
                                    ++ trailing_links (ref_id ref) extra 0 ++ [Text (lit ")")]
                       end) by (destruct extra; exact Hin).
      rewrite Forall_forall in Hall. exact (Hall _ Hin').
    + intros link Hin Hne. destruct (Hcov link Hin Hne) as [(f & Hf & [key ->]) | Hu].
      * exists key. destruct extra; cbn [rendered_fragments];
          [exact Hf | apply elem_of_app; left; exact Hf].
      * destruct (trailing_links_covers (ref_id ref) extra link Hu 0) as (f & Hf & [key ->]).
        exists key. destruct extra as [|l0 extra']; [inversion Hu|].
        cbn [rendered_fragments]. apply elem_of_app. right. right.
        apply elem_of_app. left. exact Hf.
  - split; [|intros link Hin; inversion Hin].
    intros key href children Hin. apply list_elem_of_singleton in Hin. discriminate Hin.
Qed.

Lemma reference_anchors_are_its_links_witness :
  exists key,
    LinkAnchor key (lit "https://archive.example/bmoney") (lit "archive")
    ∈ rendered_fragments (renderReferenceText sample_reference).
Proof.
  refine (proj2 (reference_anchors_are_its_links sample_reference)
            {| link_text := lit "archive"; link_url := lit "https://archive.example/bmoney" |}
            _ _).
  - right. left.
  - discriminate.
Defined.

(** ** The theme panel *)

Lemma strict_eq_true a b : ThemeSettings.strict_eq a b = true <-> a = b.
Proof. unfold ThemeSettings.strict_eq. apply bool_decide_eq_true. Qed.

Lemma strict_eq_false a b : ThemeSettings.strict_eq a b = false <-> a <> b.
Proof. unfold ThemeSettings.strict_eq. apply bool_decide_eq_false. Qed.

Ltac distinct_literals :=
  repeat match goal with
         | H : lit _ = lit _ |- _ => vm_compute in H; discriminate H
         | |- lit _ <> lit _ => vm_compute; discriminate
         end.

Lemma applyTheme_classes t r c :
  c ∈ ThemeSettings.classList (ThemeSettings.applyTheme t r)
  <-> (c = lit "dark" /\ t = lit "dark") \/ (c <> lit "dark" /\ c ∈ ThemeSettings.classList r).
Proof.
  unfold ThemeSettings.applyTheme.
  destruct (ThemeSettings.strict_eq t (lit "dark")) eqn:E;
    [apply strict_eq_true in E | apply strict_eq_false in E];
    unfold ThemeSettings.classList_add, ThemeSettings.classList_remove,
      ThemeSettings.setAttribute_data_theme; cbn [ThemeSettings.classList].
  - rewrite elem_of_union, elem_of_singleton.
    destruct (decide (c = lit "dark")); tauto.
  - rewrite elem_of_difference, elem_of_singleton. tauto.
Qed.

Lemma applyTheme_attribute t r :
  ThemeSettings.data_theme (ThemeSettings.applyTheme t r) = Some t.
Proof.
  unfold ThemeSettings.applyTheme.
  destruct (ThemeSettings.strict_eq t (lit "dark")); reflexivity.
Qed.

(** Of a pair of classes, [pair_apply] is what [applyFont] and
    [applyReadingMode] do. *)
Lemma pair_classes (on : bool) (a b c : jsstring) (r : ThemeSettings.Root) :
  a <> b ->
  c ∈ ThemeSettings.classList
        (if on
         then ThemeSettings.classList_remove b (ThemeSettings.classList_add a r)
         else ThemeSettings.classList_remove a (ThemeSettings.classList_add b r))
  <-> (c = a /\ on = true) \/ (c = b /\ on = false)
      \/ (c <> a /\ c <> b /\ c ∈ ThemeSettings.classList r).
Proof.
  intros Hab. destruct on;
    unfold ThemeSettings.classList_add, ThemeSettings.classList_remove;
    cbn [ThemeSettings.classList];
    rewrite elem_of_difference, elem_of_union, !elem_of_singleton;
    destruct (decide (c = a)), (decide (c = b)); intuition congruence.
Qed.

Lemma pair_attribute (on : bool) (a b : jsstring) (r : ThemeSettings.Root) :
  ThemeSettings.data_theme
    (if on
     then ThemeSettings.classList_remove b (ThemeSettings.classList_add a r)
     else ThemeSettings.classList_remove a (ThemeSettings.classList_add b r))
  = ThemeSettings.data_theme r.
Proof. destruct on; reflexivity. Qed.

Lemma applyFont_classes f r c :
  c ∈ ThemeSettings.classList (ThemeSettings.applyFont f r)
  <-> (c = lit "font-serif" /\ f = lit "serif")
      \/ (c = lit "font-sans" /\ f <> lit "serif")
      \/ (c <> lit "font-serif" /\ c <> lit "font-sans" /\ c ∈ ThemeSettings.classList r).
Proof.
  unfold ThemeSettings.applyFont. rewrite pair_classes by distinct_literals.
  rewrite strict_eq_true, strict_eq_false. reflexivity.
Qed.

Lemma applyReadingMode_classes m r c :
  c ∈ ThemeSettings.classList (ThemeSettings.applyReadingMode m r)
  <-> (c = lit "reading-page" /\ m = lit "page")
      \/ (c = lit "reading-scroll" /\ m <> lit "page")
      \/ (c <> lit "reading-page" /\ c <> lit "reading-scroll"
          /\ c ∈ ThemeSettings.classList r).
Proof.
  unfold ThemeSettings.applyReadingMode. rewrite pair_classes by distinct_literals.
  rewrite strict_eq_true, strict_eq_false. reflexivity.
Qed.

Ltac panel_literals :=
  repeat match goal with
         | H : lit _ = lit _ |- _ => vm_compute in H; discriminate H
         | H : lit ?a <> lit ?a |- _ => contradiction H; reflexivity
         end.

Ltac panel_solve :=
  intuition (try congruence; try solve [panel_literals]).

Ltac classes_in H :=
  first [apply applyTheme_classes in H | apply applyFont_classes in H
        | apply applyReadingMode_classes in H].

Ltac classes_goal :=
  first [apply applyTheme_classes | apply applyFont_classes
        | apply applyReadingMode_classes].

Ltac reflects_solve :=
  repeat split; try reflexivity; try assumption;
  let H := fresh "H" in
  try intros H; try classes_in H; try classes_goal; solve [panel_solve].

Ltac other_classes_solve :=
  let c := fresh "c" in
  let H := fresh "H" in
  let Hc := fresh "Hc" in
  intros c H; split; intros Hc;
  [ classes_in Hc;
    repeat match type of Hc with
           | _ \/ _ => destruct Hc as [Hc|Hc]
           | _ /\ _ => let E := fresh "E" in destruct Hc as [E Hc]
           end;
    first [ exact Hc | exfalso; subst c; apply H; repeat first [left | right] ]
  | classes_goal;
    repeat match goal with |- _ \/ _ => right end;
    repeat split; try exact Hc;
    let E := fresh "E" in intros E; subst c; apply H; repeat first [left | right] ].

(** Each of the three [apply] functions makes the root element show its
    setting and leaves what it shows of the two others, and the classes
    outside the panel's. *)
Lemma reflects_after_theme t st r :
  let st' := ThemeSettings.setTheme t st in
  let r' := ThemeSettings.applyTheme t r in
  reflects_theme st' r'
  /\ (reflects_font st r -> reflects_font st' r')
  /\ (reflects_mode st r -> reflects_mode st' r')
  /\ same_other_classes r r'.
Proof.
  cbn zeta.
  unfold reflects_theme, reflects_font, reflects_mode, same_other_classes, panel_classes.
  rewrite applyTheme_attribute.
  cbn [ThemeSettings.setTheme ThemeSettings.theme ThemeSettings.fontFamily
       ThemeSettings.readingMode].
  split; [reflects_solve|].
  split; [intros [? ?]; reflects_solve|].
  split; [intros [? ?]; reflects_solve|].
  other_classes_solve.
Qed.

Lemma reflects_after_font f st r :
  let st' := ThemeSettings.setFontFamily f st in
  let r' := ThemeSettings.applyFont f r in
  (reflects_theme st r -> reflects_theme st' r')
  /\ reflects_font st' r'
  /\ (reflects_mode st r -> reflects_mode st' r')
  /\ same_other_classes r r'.
Proof.
  cbn zeta.
  unfold reflects_theme, reflects_font, reflects_mode, same_other_classes, panel_classes.
  unfold ThemeSettings.applyFont at 1. rewrite pair_attribute.
  cbn [ThemeSettings.setFontFamily ThemeSettings.theme ThemeSettings.fontFamily
       ThemeSettings.readingMode].
  split; [intros [? [? ?]]; reflects_solve|].
  split; [reflects_solve|].
  split; [intros [? ?]; reflects_solve|].
  other_classes_solve.
Qed.

Lemma reflects_after_mode m st r :
  let st' := ThemeSettings.setReadingMode m st in
  let r' := ThemeSettings.applyReadingMode m r in
  (reflects_theme st r -> reflects_theme st' r')
  /\ (reflects_font st r -> reflects_font st' r')
  /\ reflects_mode st' r'
  /\ same_other_classes r r'.
Proof.
  cbn zeta.
  unfold reflects_theme, reflects_font, reflects_mode, same_other_classes, panel_classes.
  unfold ThemeSettings.applyReadingMode at 1. rewrite pair_attribute.
  cbn [ThemeSettings.setReadingMode ThemeSettings.theme ThemeSettings.fontFamily
       ThemeSettings.readingMode].
  split; [intros [? [? ?]]; reflects_solve|].
  split; [intros [? ?]; reflects_solve|].
  split; [reflects_solve|].
  other_classes_solve.
Qed.

Lemma same_other_classes_refl r : same_other_classes r r.
Proof. intros c _. reflexivity. Qed.

Lemma same_other_classes_trans r1 r2 r3 :
  same_other_classes r1 r2 -> same_other_classes r2 r3 -> same_other_classes r1 r3.
Proof. intros H12 H23 c Hc. rewrite (H23 c Hc). apply H12, Hc. Qed.

Lemma mountEffect_reflects prefersDark w :
  reflects (ThemeSettings.mountEffect prefersDark w)
  /\ same_other_classes (ThemeSettings.root w)
       (ThemeSettings.root (ThemeSettings.mountEffect prefersDark w)).
Proof.
  unfold ThemeSettings.mountEffect, reflects.
  cbn [ThemeSettings.state ThemeSettings.root].
  set (t := ThemeSettings.or_else _ (if prefersDark then _ else _)).
  set (f := ThemeSettings.or_else _ (lit "sans")).
  set (m := ThemeSettings.or_else _ (lit "scroll")).
  set (st0 := ThemeSettings.setMounted true (ThemeSettings.state w)).
  destruct (reflects_after_theme t st0 (ThemeSettings.root w)) as (T1 & _ & _ & O1).
  destruct (reflects_after_font f (ThemeSettings.setTheme t st0)
              (ThemeSettings.applyTheme t (ThemeSettings.root w))) as (T2 & F2 & _ & O2).
  destruct (reflects_after_mode m
              (ThemeSettings.setFontFamily f (ThemeSettings.setTheme t st0))
              (ThemeSettings.applyFont f (ThemeSettings.applyTheme t (ThemeSettings.root w))))
    as (T3 & F3 & M3 & O3).
  cbn zeta in *. split; [split; [|split]|]; auto.
  eapply same_other_classes_trans; [|exact O3].
  eapply same_other_classes_trans; [exact O1 | exact O2].
Qed.

Lemma step_reflects w a :
  reflects w ->
  reflects (ThemeSettings.step w a)
  /\ same_other_classes (ThemeSettings.root w) (ThemeSettings.root (ThemeSettings.step w a)).
Proof.
  intros (T & F & M). unfold reflects.
  destruct a as [| | |t|f|b|]; cbn [ThemeSettings.step].
  - unfold ThemeSettings.toggleTheme. cbn [ThemeSettings.state ThemeSettings.root].
    match goal with
    | |- context [ThemeSettings.setTheme ?t _] =>
        destruct (reflects_after_theme t (ThemeSettings.state w) (ThemeSettings.root w))
          as (T1 & F1 & M1 & O1)
    end.
    cbn zeta in *. auto.
  - unfold ThemeSettings.toggleFont. cbn [ThemeSettings.state ThemeSettings.root].
    match goal with
    | |- context [ThemeSettings.setFontFamily ?t _] =>
        destruct (reflects_after_font t (ThemeSettings.state w) (ThemeSettings.root w))
          as (T1 & F1 & M1 & O1)
    end.
    cbn zeta in *. auto.
  - unfold ThemeSettings.toggleReadingMode. cbn [ThemeSettings.state ThemeSettings.root].
    match goal with
    | |- context [ThemeSettings.setReadingMode ?t _] =>
        destruct (reflects_after_mode t (ThemeSettings.state w) (ThemeSettings.root w))
          as (T1 & F1 & M1 & O1)
    end.
    cbn zeta in *. auto.
  - unfold ThemeSettings.clickTheme. cbn [ThemeSettings.state ThemeSettings.root].
    destruct (reflects_after_theme (ThemeSettings.Theme_string t)
                (ThemeSettings.state w) (ThemeSettings.root w)) as (T1 & F1 & M1 & O1).
    cbn zeta in *. auto.
  - unfold ThemeSettings.clickFont. cbn [ThemeSettings.state ThemeSettings.root].
    destruct (reflects_after_font (ThemeSettings.FontFamily_string f)
                (ThemeSettings.state w) (ThemeSettings.root w)) as (T1 & F1 & M1 & O1).
    cbn zeta in *. auto.
  - cbn [ThemeSettings.state ThemeSettings.root].
    split; [|apply same_other_classes_refl]. repeat split; try apply T; try apply F; apply M.
  - cbn [ThemeSettings.state ThemeSettings.root].
    split; [|apply same_other_classes_refl]. repeat split; try apply T; try apply F; apply M.
Qed.

Lemma run_reflects actions :
  forall w, reflects w ->
    reflects (ThemeSettings.run actions w)
    /\ same_other_classes (ThemeSettings.root w)
         (ThemeSettings.root (ThemeSettings.run actions w)).
Proof.
  unfold ThemeSettings.run.
  induction actions as [|a rest IH]; intros w Hw; cbn [foldl].
  - split; [exact Hw | apply same_other_classes_refl].
  - destruct (step_reflects w a Hw) as [Hw' O1].
    destruct (IH _ Hw') as [Hw'' O2].
    split; [exact Hw'' | eapply same_other_classes_trans; eassumption].
Qed.

(** X21. For a theme panel that alone changes the root element and the
    storage: whatever they hold when the panel mounts, and whatever is done
    with the panel afterwards, the root element shows the state of the
    panel: its [data-theme] attribute is the
    theme, it has the class [dark] exactly for the theme ["dark"], of
    [font-serif] and [font-sans] exactly the one of the font family, of
    [reading-page] and [reading-scroll] exactly the one of the reading
    mode; and the panel touches no other class. *)
Theorem root_element_reflects_settings
    (prefersDark : bool) (w : ThemeSettings.World) (actions : list ThemeSettings.action) :
  let w' := ThemeSettings.run actions (ThemeSettings.mountEffect prefersDark w) in
  reflects w'
  /\ same_other_classes (ThemeSettings.root w) (ThemeSettings.root w').
Proof.
  cbn zeta. destruct (mountEffect_reflects prefersDark w) as [Hm Om].
  destruct (run_reflects actions _ Hm) as [Hr Or].
  split; [exact Hr | eapply same_other_classes_trans; eassumption].
Qed.

Lemma or_else_stored (ls : HomeTab.Storage) key v d :
  truthy v = true -> ThemeSettings.or_else (<[key := v]> ls !! key) d = v.
Proof. intros Hv. rewrite lookup_insert_eq. cbn. rewrite Hv. reflexivity. Qed.

Lemma mountEffect_stored prefersDark w :
  stored_settings prefersDark (ThemeSettings.mountEffect prefersDark w).
Proof. repeat split. Qed.

Lemma step_stored prefersDark w a :
  stored_settings prefersDark w -> stored_settings prefersDark (ThemeSettings.step w a).
Proof.
  intros (T & F & M). unfold stored_settings in *.
  destruct a as [| | |t|f|b|]; cbn [ThemeSettings.step];
    unfold ThemeSettings.toggleTheme, ThemeSettings.toggleFont,
      ThemeSettings.toggleReadingMode, ThemeSettings.clickTheme, ThemeSettings.clickFont;
    cbn [ThemeSettings.state ThemeSettings.localStorage ThemeSettings.theme
         ThemeSettings.fontFamily ThemeSettings.readingMode ThemeSettings.setTheme
         ThemeSettings.setFontFamily ThemeSettings.setReadingMode ThemeSettings.setIsOpen
         ThemeSettings.setShowAdvanced];
    rewrite ?or_else_stored
      by (repeat match goal with
                 | |- context [if ?b then _ else _] => destruct b
                 | t : ThemeSettings.Theme |- _ => destruct t
                 | f : ThemeSettings.FontFamily |- _ => destruct f
                 end; reflexivity);
    rewrite ?lookup_insert_ne by (vm_compute; discriminate);
    auto.
Qed.

Lemma run_stored prefersDark actions :
  forall w, stored_settings prefersDark w ->
            stored_settings prefersDark (ThemeSettings.run actions w).
Proof.
  unfold ThemeSettings.run.
  induction actions as [|a rest IH]; intros w Hw; cbn [foldl]; [exact Hw|].
  apply IH, step_stored, Hw.
Qed.

Lemma step_theme_stored w a :
  theme_stored w \/ sets_theme a = true -> theme_stored (ThemeSettings.step w a).
Proof.
  unfold theme_stored.
  destruct a as [| | |t|f|b|]; cbn [ThemeSettings.step sets_theme];
    unfold ThemeSettings.toggleTheme, ThemeSettings.toggleFont,
      ThemeSettings.toggleReadingMode, ThemeSettings.clickTheme, ThemeSettings.clickFont;
    cbn [ThemeSettings.state ThemeSettings.localStorage ThemeSettings.theme
         ThemeSettings.setTheme ThemeSettings.setFontFamily ThemeSettings.setReadingMode
         ThemeSettings.setIsOpen ThemeSettings.setShowAdvanced];
    rewrite ?lookup_insert_eq;
    rewrite ?lookup_insert_ne by (vm_compute; discriminate);
    intros [H|H]; try discriminate H; try exact H;
    (split; [reflexivity|]);
    repeat match goal with
           | |- context [if ?b then _ else _] => destruct b
           | t : ThemeSettings.Theme |- _ => destruct t
           end; reflexivity.
Qed.

Lemma run_theme_stored actions :
  forall w, theme_stored w \/ existsb sets_theme actions = true ->
            theme_stored (ThemeSettings.run actions w).
Proof.
  unfold ThemeSettings.run.
  induction actions as [|a rest IH]; intros w H; cbn [foldl existsb] in *.
  - destruct H as [H|H]; [exact H | discriminate H].
  - apply IH. destruct H as [H|H].
    + left. apply step_theme_stored. left. exact H.
    + apply orb_true_iff in H as [H|H]; [|right; exact H].
      left. apply step_theme_stored. right. exact H.
Qed.

(** X22. The settings of a theme panel that alone changes the storage
    survive a reload of the page: mounting the panel again on the storage
    that a session left gives the
    font family and the reading mode of the end of the session, and its
    theme when the system preference for dark is the same; once a theme was
    chosen in the session, the theme is restored whatever the system
    preference is. *)
Theorem settings_survive_reload
    (prefersDark : bool) (w : ThemeSettings.World) (actions : list ThemeSettings.action)
    (r : ThemeSettings.Root) :
  let w' := ThemeSettings.run actions (ThemeSettings.mountEffect prefersDark w) in
  let settings (v : ThemeSettings.World) :=
    (ThemeSettings.fontFamily (ThemeSettings.state v),
     ThemeSettings.readingMode (ThemeSettings.state v)) in
  (forall prefersDark', settings (reload prefersDark' r w') = settings w')
  /\ ThemeSettings.theme (ThemeSettings.state (reload prefersDark r w'))
     = ThemeSettings.theme (ThemeSettings.state w')
  /\ (existsb sets_theme actions = true ->
      forall prefersDark',
        ThemeSettings.theme (ThemeSettings.state (reload prefersDark' r w'))
        = ThemeSettings.theme (ThemeSettings.state w')).
Proof.
  cbn zeta.
  pose proof (run_stored prefersDark actions _ (mountEffect_stored prefersDark w))
    as (T & F & M).
  set (w' := ThemeSettings.run actions (ThemeSettings.mountEffect prefersDark w)) in *.
  split; [|split].
  - intros prefersDark'. unfold reload, ThemeSettings.mountEffect.
    cbn [ThemeSettings.state ThemeSettings.localStorage ThemeSettings.fontFamily
         ThemeSettings.readingMode ThemeSettings.setReadingMode ThemeSettings.setFontFamily].
    rewrite <- F, <- M. reflexivity.
  - unfold reload, ThemeSettings.mountEffect.
    cbn [ThemeSettings.state ThemeSettings.localStorage ThemeSettings.theme
         ThemeSettings.setReadingMode ThemeSettings.setFontFamily ThemeSettings.setTheme].
    symmetry. exact T.
  - intros Hset prefersDark'.
    destruct (run_theme_stored actions (ThemeSettings.mountEffect prefersDark w)
                (or_intror Hset)) as [Hs Ht].
    fold w' in Hs, Ht.
    unfold reload, ThemeSettings.mountEffect.
    cbn [ThemeSettings.state ThemeSettings.localStorage ThemeSettings.theme
         ThemeSettings.setReadingMode ThemeSettings.setFontFamily ThemeSettings.setTheme].
    rewrite Hs. cbn [ThemeSettings.or_else]. rewrite Ht. reflexivity.
Qed.

Lemma settings_survive_reload_witness :
  ThemeSettings.theme
    (ThemeSettings.state
       (reload true (ThemeSettings.root fresh_panel)
          (ThemeSettings.run [ThemeSettings.ClickTheme ThemeSettings.light]
             (ThemeSettings.mountEffect false fresh_panel))))
  = lit "light".
Proof.
  refine (eq_trans
            (proj2 (proj2 (settings_survive_reload false fresh_panel
                             [ThemeSettings.ClickTheme ThemeSettings.light]
                             (ThemeSettings.root fresh_panel))) _ true) _);
    reflexivity.
Defined.

(** ** Two theme panels on one page *)

Lemma reflects_theme_ext st st' r :
  ThemeSettings.theme st = ThemeSettings.theme st' ->
  reflects_theme st r -> reflects_theme st' r.
Proof. unfold reflects_theme. intros ->. tauto. Qed.

Lemma reflects_font_ext st st' r :
  ThemeSettings.fontFamily st = ThemeSettings.fontFamily st' ->
  reflects_font st r -> reflects_font st' r.
Proof. unfold reflects_font. intros ->. tauto. Qed.

Lemma reflects_mode_ext st st' r :
  ThemeSettings.readingMode st = ThemeSettings.readingMode st' ->
  reflects_mode st r -> reflects_mode st' r.
Proof. unfold reflects_mode. intros ->. tauto. Qed.

Lemma stored_state_fields (prefersDark : bool) (ls : Storage) :
  ThemeSettings.theme (stored_state prefersDark ls)
  = ThemeSettings.or_else (ls !! lit "theme") (if prefersDark then lit "dark" else lit "light")
  /\ ThemeSettings.fontFamily (stored_state prefersDark ls)
     = ThemeSettings.or_else (ls !! lit "fontFamily") (lit "sans")
  /\ ThemeSettings.readingMode (stored_state prefersDark ls)
     = ThemeSettings.or_else (ls !! lit "readingMode") (lit "scroll").
Proof. repeat split. Qed.

(** A panel writes a theme to the root element and to the storage. *)
Lemma shows_stored_theme (prefersDark : bool) (r : ThemeSettings.Root) (ls : Storage) (t : jsstring) :
  truthy t = true ->
  shows_stored prefersDark (r, ls) ->
  shows_stored prefersDark (ThemeSettings.applyTheme t r, <[lit "theme" := t]> ls).
Proof.
  intros Ht (T & F & M). unfold shows_stored, reflects in *.
  cbn [fst snd ThemeSettings.state ThemeSettings.root] in *.
  destruct (reflects_after_theme t (stored_state prefersDark ls) r) as (T1 & F1 & M1 & _).
  cbn zeta in *.
  destruct (stored_state_fields prefersDark ls) as (_ & Ef & Em).
  destruct (stored_state_fields prefersDark (<[lit "theme" := t]> ls)) as (Et' & Ef' & Em').
  rewrite or_else_stored in Et' by exact Ht.
  rewrite lookup_insert_ne in Ef' by (vm_compute; discriminate).
  rewrite lookup_insert_ne in Em' by (vm_compute; discriminate).
  split; [|split].
  - eapply reflects_theme_ext; [|exact T1]. rewrite Et'. reflexivity.
  - eapply reflects_font_ext; [|exact (F1 F)]. rewrite Ef'. exact Ef.
  - eapply reflects_mode_ext; [|exact (M1 M)]. rewrite Em'. exact Em.
Qed.

Lemma shows_stored_font (prefersDark : bool) (r : ThemeSettings.Root) (ls : Storage) (f : jsstring) :
  truthy f = true ->
  shows_stored prefersDark (r, ls) ->
  shows_stored prefersDark (ThemeSettings.applyFont f r, <[lit "fontFamily" := f]> ls).
Proof.
  intros Ht (T & F & M). unfold shows_stored, reflects in *.
  cbn [fst snd ThemeSettings.state ThemeSettings.root] in *.
  destruct (reflects_after_font f (stored_state prefersDark ls) r) as (T1 & F1 & M1 & _).
  cbn zeta in *.
  destruct (stored_state_fields prefersDark ls) as (Et & _ & Em).
  destruct (stored_state_fields prefersDark (<[lit "fontFamily" := f]> ls))
    as (Et' & Ef' & Em').
  rewrite or_else_stored in Ef' by exact Ht.
  rewrite lookup_insert_ne in Et' by (vm_compute; discriminate).
  rewrite lookup_insert_ne in Em' by (vm_compute; discriminate).
  split; [|split].
  - eapply reflects_theme_ext; [|exact (T1 T)]. rewrite Et'. exact Et.
  - eapply reflects_font_ext; [|exact F1]. rewrite Ef'. reflexivity.
  - eapply reflects_mode_ext; [|exact (M1 M)]. rewrite Em'. exact Em.
Qed.

Lemma shows_stored_mode (prefersDark : bool) (r : ThemeSettings.Root) (ls : Storage) (m : jsstring) :
  truthy m = true ->
  shows_stored prefersDark (r, ls) ->
  shows_stored prefersDark (ThemeSettings.applyReadingMode m r, <[lit "readingMode" := m]> ls).
Proof.
  intros Ht (T & F & M). unfold shows_stored, reflects in *.
  cbn [fst snd ThemeSettings.state ThemeSettings.root] in *.
  destruct (reflects_after_mode m (stored_state prefersDark ls) r) as (T1 & F1 & M1 & _).
  cbn zeta in *.
  destruct (stored_state_fields prefersDark ls) as (Et & Ef & _).
  destruct (stored_state_fields prefersDark (<[lit "readingMode" := m]> ls))
    as (Et' & Ef' & Em').
  rewrite or_else_stored in Em' by exact Ht.
  rewrite lookup_insert_ne in Et' by (vm_compute; discriminate).
  rewrite lookup_insert_ne in Ef' by (vm_compute; discriminate).
  split; [|split].
  - eapply reflects_theme_ext; [|exact (T1 T)]. rewrite Et'. exact Et.
  - eapply reflects_font_ext; [|exact (F1 F)]. rewrite Ef'. exact Ef.
  - eapply reflects_mode_ext; [|exact M1]. rewrite Em'. reflexivity.
Qed.

Lemma page_mount_shows (prefersDark : bool) x :
  shows_stored prefersDark (page_step prefersDark x PanelMounts).
Proof.
  unfold shows_stored, page_step. cbn [fst snd ThemeSettings.localStorage].
  destruct (mountEffect_reflects prefersDark
              {| ThemeSettings.state := ThemeSettings.initial_state;
                 ThemeSettings.root := fst x; ThemeSettings.localStorage := snd x |})
    as [(T & F & M) _].
  split; [|split]; [exact T | exact F | exact M].
Qed.

Lemma page_act_shows (prefersDark : bool) x st a :
  shows_stored prefersDark x ->
  shows_stored prefersDark (page_step prefersDark x (PanelActs st a)).
Proof.
  destruct x as [r ls]. intros Hx. unfold page_step. cbn [fst snd].
  destruct a as [| | |t|f|b|]; cbn [ThemeSettings.step].
  - unfold ThemeSettings.toggleTheme.
    cbn [ThemeSettings.root ThemeSettings.localStorage ThemeSettings.state].
    apply shows_stored_theme; [|exact Hx].
    destruct (ThemeSettings.strict_eq _ _); reflexivity.
  - unfold ThemeSettings.toggleFont.
    cbn [ThemeSettings.root ThemeSettings.localStorage ThemeSettings.state].
    apply shows_stored_font; [|exact Hx].
    destruct (ThemeSettings.strict_eq _ _); reflexivity.
  - unfold ThemeSettings.toggleReadingMode.
    cbn [ThemeSettings.root ThemeSettings.localStorage ThemeSettings.state].
    apply shows_stored_mode; [|exact Hx].
    destruct (ThemeSettings.strict_eq _ _); reflexivity.
  - unfold ThemeSettings.clickTheme.
    cbn [ThemeSettings.root ThemeSettings.localStorage ThemeSettings.state].
    apply shows_stored_theme; [|exact Hx]. destruct t; reflexivity.
  - unfold ThemeSettings.clickFont.
    cbn [ThemeSettings.root ThemeSettings.localStorage ThemeSettings.state].
    apply shows_stored_font; [|exact Hx]. destruct f; reflexivity.
  - exact Hx.
  - exact Hx.
Qed.

(** X28. With several theme panels on one page, as [HomeTab] has them, the
    root element shows what the storage holds: once a panel has mounted,
    whatever the panels do, in any order and whatever state each of them is
    in, the [data-theme] attribute and the classes of the root element are
    those of the settings that a mount would read from the storage at that
    time, the system preference for dark being the same. *)
Theorem root_element_shows_stored_settings
    (prefersDark : bool) (x : ThemeSettings.Root * Storage) (events : list page_event) :
  shows_stored prefersDark
    (foldl (page_step prefersDark) (page_step prefersDark x PanelMounts) events).
Proof.
  assert (H : forall y, shows_stored prefersDark y ->
                        shows_stored prefersDark (foldl (page_step prefersDark) y events)).
  { induction events as [|e rest IH]; intros y Hy; cbn [foldl]; [exact Hy|].
    apply IH. destruct e as [|st a]; [apply page_mount_shows | apply page_act_shows, Hy]. }
  apply H, page_mount_shows.
Qed.

(** ** The app shell *)

Lemma not_stored_insert (ls : HomeTab.Storage) key :
  MiniApp.not_stored (<[key := lit "true"]> ls) key = false.
Proof. unfold MiniApp.not_stored. rewrite lookup_insert_eq. reflexivity. Qed.

Lemma attempt_marked h w :
  MiniApp.not_stored (App.localStorage w) (lit "hasAttemptedAddMiniApp") = false ->
  App.attemptAddMiniApp h w = w.
Proof.
  intros H. unfold App.attemptAddMiniApp. rewrite H.
  destruct (_ && _); reflexivity.
Qed.

Lemma resume_marked result w :
  MiniApp.not_stored (App.localStorage (App.attemptAddMiniApp_resume result w))
    (lit "hasAttemptedAddMiniApp") = false
  /\ calls (App.log (App.attemptAddMiniApp_resume result w)) = calls (App.log w).
Proof.
  destruct result as [r|e]; cbn [App.attemptAddMiniApp_resume App.localStorage App.log];
    (split; [apply not_stored_insert|]); [destruct (MiniApp.has_details r)|]; reflexivity.
Qed.

Lemma run_marked actions :
  forall w,
    MiniApp.not_stored (App.localStorage w) (lit "hasAttemptedAddMiniApp") = false ->
    calls (App.log (App.run actions w)) = calls (App.log w).
Proof.
  unfold App.run.
  induction actions as [|a rest IH]; intros w Hw; cbn [foldl]; [reflexivity|].
  destruct a as [h|result]; cbn [App.step].
  - rewrite attempt_marked by exact Hw. apply IH, Hw.
  - destruct (App.pending w); [apply IH, Hw|].
    destruct (resume_marked result w) as [Hm Hc]. rewrite IH by exact Hm. exact Hc.
Qed.

(** X23. The shell that adds the mini app without a prompt calls
    [addMiniApp] no more once a call of it has settled: whether that call
    succeeded or failed, and whatever the hook reports afterwards, no later
    run of the effect calls it. *)
Theorem addMiniApp_not_called_again
    (w : App.World) (result : completion (option MiniApp.AddResult))
    (actions : list App.action) :
  0 < App.pending w ->
  calls (App.log (App.run (App.Settle result :: actions) w)) = calls (App.log w).
Proof.
  intros Hp. unfold App.run. cbn [foldl App.step].
  destruct (App.pending w); [lia|].
  destruct (resume_marked result w) as [Hm Hc].
  fold (App.run actions (App.attemptAddMiniApp_resume result w)).
  rewrite run_marked by exact Hm. exact Hc.
Qed.

Lemma addMiniApp_not_called_again_witness :
  calls (App.log calling_world) = 1
  /\ calls (App.log
        (App.run [App.Settle (Throw HostError);
                  App.Effect {| MiniApp.isSDKLoaded := true; MiniApp.added := false;
                                MiniApp.has_addMiniApp := true |}]
           calling_world))
     = calls (App.log calling_world).
Proof.
  split; [reflexivity|].
  apply (addMiniApp_not_called_again calling_world). apply Nat.ltb_lt. vm_compute. reflexivity.
Defined.

Lemma prompt_step w a :
  (AppWithPrompt.showAddPrompt (AppWithPrompt.state w) = true ->
   MiniApp.not_stored (AppWithPrompt.localStorage w) (lit "hasSeenAddPrompt") = true) ->
  let w' := AppWithPrompt.step w a in
  (AppWithPrompt.showAddPrompt (AppWithPrompt.state w') = true ->
   MiniApp.not_stored (AppWithPrompt.localStorage w') (lit "hasSeenAddPrompt") = true)
  /\ (MiniApp.not_stored (AppWithPrompt.localStorage w) (lit "hasSeenAddPrompt") = false ->
      MiniApp.not_stored (AppWithPrompt.localStorage w') (lit "hasSeenAddPrompt") = false).
Proof.
  intros Hw. cbn zeta. destruct a as [h|h| |result]; cbn [AppWithPrompt.step].
  - unfold AppWithPrompt.promptEffect.
    destruct (_ && _); [|tauto].
    destruct (MiniApp.not_stored _ _) eqn:E; cbn; rewrite ?E; intuition congruence.
  - destruct (_ && _); [|tauto]. unfold AppWithPrompt.handleAddMiniApp.
    destruct (_ || _); [tauto|]. cbn. tauto.
  - destruct (AppWithPrompt.showAddPrompt _) eqn:E; [|rewrite ?E; tauto].
    unfold AppWithPrompt.handleDismissPrompt. cbn.
    split; [discriminate | intros _; apply not_stored_insert].
  - destruct (AppWithPrompt.pending w); [tauto|].
    unfold AppWithPrompt.handleAddMiniApp_resume.
    destruct result as [r|e].
    + cbn. split; [discriminate | intros _; apply not_stored_insert].
    + cbn. tauto.
Qed.

Lemma prompt_run (actions : list AppWithPrompt.action) :
  forall w0,
    (AppWithPrompt.showAddPrompt (AppWithPrompt.state w0) = true ->
     MiniApp.not_stored (AppWithPrompt.localStorage w0) (lit "hasSeenAddPrompt") = true) ->
    let w := AppWithPrompt.run actions w0 in
    (AppWithPrompt.showAddPrompt (AppWithPrompt.state w) = true ->
     MiniApp.not_stored (AppWithPrompt.localStorage w) (lit "hasSeenAddPrompt") = true)
    /\ (MiniApp.not_stored (AppWithPrompt.localStorage w0) (lit "hasSeenAddPrompt") = false ->
        MiniApp.not_stored (AppWithPrompt.localStorage w) (lit "hasSeenAddPrompt") = false).
Proof.
  unfold AppWithPrompt.run.
  induction actions as [|a rest IH]; intros w0 Hw0; cbn [foldl]; [tauto|].
  destruct (prompt_step w0 a Hw0) as [H1 H2]. destruct (IH _ H1) as [H3 H4].
  split; [exact H3 | intros E; apply H4, H2, E].
Qed.

(** A dismissal, and a call of [addMiniApp] that succeeds, store the mark. *)
Lemma prompt_marked w a :
  (a = AppWithPrompt.ClickDismiss
   /\ AppWithPrompt.showAddPrompt (AppWithPrompt.state w) = true)
  \/ (exists r, a = AppWithPrompt.Settle (Normal r) /\ 0 < AppWithPrompt.pending w) ->
  AppWithPrompt.localStorage (AppWithPrompt.step w a)
  = <[lit "hasSeenAddPrompt" := lit "true"]> (AppWithPrompt.localStorage w).
Proof.
  intros [[-> Hs] | (r & -> & Hp)]; cbn [AppWithPrompt.step].
  - rewrite Hs. reflexivity.
  - destruct (AppWithPrompt.pending w); [lia|].
    unfold AppWithPrompt.handleAddMiniApp_resume.
    destruct (MiniApp.has_details r); reflexivity.
Qed.

(** X24. In the shell that prompts, the prompt shows only until it is marked
    as seen.  At any time of a session the prompt is open only if
    [hasSeenAddPrompt] is not stored, and a mark that the storage holds when
    the shell mounts stays and keeps the prompt closed.  A dismissal of the
    open prompt and a call of [addMiniApp] that succeeds store the mark
    ["true"], and from then on, whatever happens in the session, the mark
    stays and the prompt is closed. *)
Theorem prompt_only_until_seen
    (localStorage : HomeTab.Storage) (actions : list AppWithPrompt.action) :
  let w := AppWithPrompt.run actions (AppWithPrompt.initial localStorage) in
  (AppWithPrompt.showAddPrompt (AppWithPrompt.state w) = true ->
   MiniApp.not_stored (AppWithPrompt.localStorage w) (lit "hasSeenAddPrompt") = true)
  /\ (MiniApp.not_stored localStorage (lit "hasSeenAddPrompt") = false ->
      AppWithPrompt.showAddPrompt (AppWithPrompt.state w) = false
      /\ MiniApp.not_stored (AppWithPrompt.localStorage w) (lit "hasSeenAddPrompt") = false)
  /\ (forall a later,
        (a = AppWithPrompt.ClickDismiss
         /\ AppWithPrompt.showAddPrompt (AppWithPrompt.state w) = true)
        \/ (exists r, a = AppWithPrompt.Settle (Normal r) /\ 0 < AppWithPrompt.pending w) ->
        AppWithPrompt.localStorage (AppWithPrompt.step w a)
        = <[lit "hasSeenAddPrompt" := lit "true"]> (AppWithPrompt.localStorage w)
        /\ let w' := AppWithPrompt.run later (AppWithPrompt.step w a) in
           AppWithPrompt.showAddPrompt (AppWithPrompt.state w') = false
           /\ MiniApp.not_stored (AppWithPrompt.localStorage w') (lit "hasSeenAddPrompt")
              = false).
Proof.
  cbn zeta.
  destruct (prompt_run actions (AppWithPrompt.initial localStorage)) as [H1 H2];
    [discriminate|]. cbn zeta in H1, H2.
  set (w := AppWithPrompt.run actions (AppWithPrompt.initial localStorage)) in *.
  assert (Hclosed : forall v,
             (AppWithPrompt.showAddPrompt (AppWithPrompt.state v) = true ->
              MiniApp.not_stored (AppWithPrompt.localStorage v) (lit "hasSeenAddPrompt")
              = true) ->
             MiniApp.not_stored (AppWithPrompt.localStorage v) (lit "hasSeenAddPrompt")
             = false ->
             AppWithPrompt.showAddPrompt (AppWithPrompt.state v) = false).
  { intros v Hv E.
    destruct (AppWithPrompt.showAddPrompt (AppWithPrompt.state v)); [|reflexivity].
    rewrite Hv in E by reflexivity. discriminate E. }
  split; [exact H1|]. split.
  - intros E. specialize (H2 E). split; [apply Hclosed; assumption | exact H2].
  - intros a later Ha. pose proof (prompt_marked w a Ha) as Hm. split; [exact Hm|].
    destruct (prompt_step w a H1) as [H3 _].
    destruct (prompt_run later (AppWithPrompt.step w a) H3) as [H5 H6]. cbn zeta in H5, H6.
    assert (E : MiniApp.not_stored (AppWithPrompt.localStorage (AppWithPrompt.step w a))
                  (lit "hasSeenAddPrompt") = false)
      by (rewrite Hm; apply not_stored_insert).
    split; [apply Hclosed; [exact H5 | exact (H6 E)] | exact (H6 E)].
Qed.

Lemma prompt_only_until_seen_witness :
  AppWithPrompt.showAddPrompt
    (AppWithPrompt.state
       (AppWithPrompt.run [AppWithPrompt.Effect loaded_hook]
          (AppWithPrompt.initial ∅)))
  = true
  /\ AppWithPrompt.showAddPrompt
       (AppWithPrompt.state
          (AppWithPrompt.run [AppWithPrompt.Effect loaded_hook]
             (AppWithPrompt.step
                (AppWithPrompt.run [AppWithPrompt.Effect loaded_hook]
                   (AppWithPrompt.initial ∅))
                AppWithPrompt.ClickDismiss)))
     = false.
Proof.
  split; [reflexivity|].
  refine (proj1 (proj2 (proj2 (proj2 (prompt_only_until_seen ∅
                                        [AppWithPrompt.Effect loaded_hook]))
                          AppWithPrompt.ClickDismiss
                          [AppWithPrompt.Effect loaded_hook] _))).
  left. split; reflexivity.
Defined.

Lemma adding_step w a :
  AppWithPrompt.pending w
  = (if AppWithPrompt.isAddingMiniApp (AppWithPrompt.state w) then 1 else 0) ->
  let w' := AppWithPrompt.step w a in
  AppWithPrompt.pending w'
  = (if AppWithPrompt.isAddingMiniApp (AppWithPrompt.state w') then 1 else 0).
Proof.
  intros Hw. cbn zeta. destruct a as [h|h| |result]; cbn [AppWithPrompt.step].
  - unfold AppWithPrompt.promptEffect.
    destruct (_ && _); [|exact Hw].
    destruct (MiniApp.not_stored _ _); [|exact Hw]. exact Hw.
  - destruct (AppWithPrompt.isAddingMiniApp (AppWithPrompt.state w)) eqn:E.
    + rewrite andb_false_r. rewrite E. exact Hw.
    + rewrite andb_true_r.
      destruct (_ && _); [|rewrite E; exact Hw].
      unfold AppWithPrompt.handleAddMiniApp.
      destruct (_ || _); [rewrite E; exact Hw|].
      cbn. rewrite Hw. reflexivity.
  - destruct (AppWithPrompt.showAddPrompt _); exact Hw.
  - destruct (AppWithPrompt.pending w) as [|n] eqn:En; [rewrite En; exact Hw|].
    destruct (AppWithPrompt.isAddingMiniApp (AppWithPrompt.state w)); [|discriminate Hw].
    injection Hw as ->.
    unfold AppWithPrompt.handleAddMiniApp_resume.
    destruct result as [r|e]; [destruct (MiniApp.has_details r)|];
      cbn [AppWithPrompt.pending AppWithPrompt.state AppWithPrompt.isAddingMiniApp
           AppWithPrompt.setIsAddingMiniApp AppWithPrompt.setItem
           AppWithPrompt.setShowAddPrompt AppWithPrompt.emit];
      rewrite En; reflexivity.
Qed.

(** X25. In the shell that prompts, at most one call of [addMiniApp] is
    outstanding at any time of a session, and [isAddingMiniApp], which
    disables the add button, is true exactly while one is. *)
Theorem one_add_outstanding
    (localStorage : HomeTab.Storage) (actions : list AppWithPrompt.action) :
  let w := AppWithPrompt.run actions (AppWithPrompt.initial localStorage) in
  AppWithPrompt.pending w <= 1
  /\ (AppWithPrompt.isAddingMiniApp (AppWithPrompt.state w) = true
      <-> AppWithPrompt.pending w = 1).
Proof.
  cbn zeta.
  assert (H : forall w0,
             AppWithPrompt.pending w0
             = (if AppWithPrompt.isAddingMiniApp (AppWithPrompt.state w0) then 1 else 0) ->
             let w := AppWithPrompt.run actions w0 in
             AppWithPrompt.pending w
             = (if AppWithPrompt.isAddingMiniApp (AppWithPrompt.state w) then 1 else 0)).
  { unfold AppWithPrompt.run.
    induction actions as [|a rest IH]; intros w0 Hw0; cbn [foldl]; [exact Hw0|].
    apply IH. apply (adding_step w0 a Hw0). }
  specialize (H (AppWithPrompt.initial localStorage) eq_refl). cbn zeta in H.
  rewrite H. destruct (AppWithPrompt.isAddingMiniApp _); split; try lia; split; congruence.
Qed.

(** ** The quote menu over a session *)

Lemma handleSelection_cases w contentRef st :
  handleSelection w contentRef st = st \/ exists selection, captured w contentRef selection.
Proof.
  unfold handleSelection.
  destruct (getSelection w) as [sel|] eqn:Hsel; [|left; reflexivity].
  destruct (isCollapsed sel) eqn:Hc; [left; reflexivity|].
  destruct (truthy (normalize_ws (selection_toString sel))) eqn:Ht; [|left; reflexivity].
  cbn [negb].
  destruct (outside_content contentRef _) eqn:Ho; [left; reflexivity|].
  right. exists sel. repeat split; try assumption.
  intros E. rewrite E in Ht. discriminate.
Qed.

Lemma truncate_not_nil n s : s <> [] -> 0 < n -> truncate n s <> [].
Proof.
  intros Hs Hn. unfold truncate. destruct (n <? length s); [|exact Hs].
  destruct s as [|c r]; [contradiction|]. destruct n; [lia|]. discriminate.
Qed.

Lemma handleSelection_consistent w contentRef st :
  menu_consistent st -> menu_consistent (handleSelection w contentRef st).
Proof.
  intros Hst. destruct (handleSelection_cases w contentRef st) as [->|[sel Hcap]];
    [exact Hst|].
  destruct (handleSelection_captured w contentRef st sel Hcap) as (pos & ->).
  unfold menu_consistent. quote_fields. split; [|eexists; reflexivity].
  pose proof (truncate_length 280 (normalize_ws (selection_toString sel))).
  destruct Hcap as (_ & _ & Hne & _).
  pose proof (truncate_not_nil 280 _ Hne ltac:(lia)) as Hn.
  destruct (truncate 280 _); [contradiction|]. cbn [length] in *. lia.
Qed.

Lemma resetQuoteSelection_consistent w st :
  menu_consistent (fst (resetQuoteSelection w st)).
Proof. unfold resetQuoteSelection, menu_consistent. quote_fields. split; reflexivity. Qed.

Lemma menu_step_consistent APP_URL author title st e :
  menu_consistent st -> menu_consistent (menu_step APP_URL author title st e).
Proof.
  intros Hst. destruct e as [w c|w target menuEl|w|actions w|[u|err] w]; cbn [menu_step].
  - unfold scheduleSelectionCheck. destruct (getSelection w); [|exact Hst].
    destruct (_ || _); [exact Hst | apply handleSelection_consistent, Hst].
  - unfold handleDocumentClick. destruct (negb _); [exact Hst|].
    destruct target as [t|]; [|exact Hst].
    destruct menuEl as [contains|]; [|apply resetQuoteSelection_consistent].
    destruct (contains t); [exact Hst | apply resetQuoteSelection_consistent].
  - unfold handleSelectionClear.
    destruct (getSelection w); [|apply resetQuoteSelection_consistent].
    destruct (_ || _); [apply resetQuoteSelection_consistent | exact Hst].
  - unfold handleQuoteShare. destruct (negb _); [exact Hst|].
    destruct (actions ≫= openUrl) as [open|]; [|exact Hst].
    destruct (composeUrl _ _ _ _) as [url|]; [|exact Hst].
    destruct (open url); [|exact Hst].
    pose proof (resetQuoteSelection_consistent w st) as Hr.
    destruct (resetQuoteSelection w st) as [st' evs]. exact Hr.
  - apply resetQuoteSelection_consistent.
  - exact Hst.
Qed.

(** X26. Over a session of the quote menu, whatever the events and the
    order in which they come, the menu is open only on a quote: while
    [showQuoteMenu] is true the stored quote has between 1 and 280 code
    units and the menu has a position, and while it is false no quote and
    no position are kept.  The handlers are those of [mouseup] and
    [touchend], of [mousedown] and [touchstart], of [selectionchange], and
    [handleQuoteShare], also when its [openUrl] call settles late. *)
Theorem quote_menu_consistent
    (APP_URL author title : jsstring) (events : list menu_event) :
  menu_consistent (foldl (menu_step APP_URL author title) initial_quote_state events).
Proof.
  assert (H : forall st, menu_consistent st ->
                         menu_consistent (foldl (menu_step APP_URL author title) st events)).
  { induction events as [|e rest IH]; intros st Hst; cbn [foldl]; [exact Hst|].
    apply IH, menu_step_consistent, Hst. }
  apply H. split; reflexivity.
Qed.

(** ** The reading preferences over a reload *)

Section PreferencesReload.

Context {SpacingSettings : Type}.
Variable JSON_parse : jsstring -> completion SpacingSettings.
Variable JSON_stringify : SpacingSettings -> jsstring.
Variable default_spacing : SpacingSettings.

Lemma load_after_size (localStorage : Storage) (p : Preferences SpacingSettings) size :
  loadPreferences JSON_parse localStorage (initial_preferences default_spacing) = Normal p ->
  loadPreferences JSON_parse (<[lit "fontSize" := FontSize_string size]> localStorage)
    (initial_preferences default_spacing)
  = Normal {| fontSize := FontSize_string size; spacing := spacing p |}.
Proof.
  unfold loadPreferences. rewrite lookup_insert_eq.
  rewrite lookup_insert_ne by (vm_compute; discriminate).
  assert (Ht : truthy (FontSize_string size) = true) by (destruct size; reflexivity).
  rewrite Ht.
  destruct (localStorage !! lit "fontSize") as [v|]; [destruct (truthy v)|];
    (destruct (localStorage !! lit "spacingSettings") as [json|];
     [destruct (truthy json); [destruct (JSON_parse json)|]|]);
    intros H; inversion H; reflexivity.
Qed.

Lemma load_after_spacing (localStorage : Storage) (p : Preferences SpacingSettings) sp :
  JSON_parse (JSON_stringify sp) = Normal sp ->
  truthy (JSON_stringify sp) = true ->
  loadPreferences JSON_parse localStorage (initial_preferences default_spacing) = Normal p ->
  loadPreferences JSON_parse (<[lit "spacingSettings" := JSON_stringify sp]> localStorage)
    (initial_preferences default_spacing)
  = Normal {| fontSize := fontSize p; spacing := sp |}.
Proof.
  intros Hparse Ht. unfold loadPreferences. rewrite lookup_insert_eq.
  rewrite lookup_insert_ne by (vm_compute; discriminate).
  rewrite Ht, Hparse.
  destruct (localStorage !! lit "fontSize") as [v|]; [destruct (truthy v)|];
    (destruct (localStorage !! lit "spacingSettings") as [json|];
     [destruct (truthy json); [destruct (JSON_parse json)|]|]);
    intros H; inversion H; reflexivity.
Qed.

(** X27. The reading preferences survive a reload of the page: when
    [JSON.parse] gives back what [JSON.stringify] wrote, and that is not the
    empty string, then after any series of font-size and spacing changes the
    effect that loads the preferences, run on the storage that the session
    left, restores the font size and the spacing of the end of the
    session. *)
Theorem preferences_survive_reload
    (localStorage : Storage) (p : Preferences SpacingSettings)
    (changes : list (preference_change SpacingSettings)) :
  (forall sp, JSON_parse (JSON_stringify sp) = Normal sp
              /\ truthy (JSON_stringify sp) = true) ->
  loadPreferences JSON_parse localStorage (initial_preferences default_spacing) = Normal p ->
  let after := foldl (change_preference JSON_stringify) (p, localStorage) changes in
  loadPreferences JSON_parse (snd after) (initial_preferences default_spacing)
  = Normal (fst after).
Proof.
  intros Hjson. revert localStorage p.
  induction changes as [|c rest IH]; intros localStorage p Hload; cbn [foldl];
    [exact Hload|].
  destruct c as [size|sp]; cbn [change_preference fst snd].
  - unfold handleFontSizeChange. apply IH, load_after_size, Hload.
  - unfold handleSpacingChange. destruct (Hjson sp) as [Hparse Ht].
    apply IH, load_after_spacing; assumption.
Qed.

End PreferencesReload.

Lemma preferences_survive_reload_witness :
  loadPreferences (fun _ => Normal tt)
    (snd (foldl (change_preference (fun _ : unit => lit "{}"))
            (initial_preferences tt, ∅) [SizeChange large; SpacingChange tt]))
    (initial_preferences tt)
  = Normal (fst (foldl (change_preference (fun _ : unit => lit "{}"))
                   (initial_preferences tt, ∅) [SizeChange large; SpacingChange tt])).
Proof.
  apply (preferences_survive_reload (fun _ => Normal tt) (fun _ : unit => lit "{}") tt
           ∅ (initial_preferences tt) [SizeChange large; SpacingChange tt]).
  - intros []. split; reflexivity.
  - reflexivity.
Defined.
